(** * flenv: command-line flags with defaults in environment variables

    A shallow embedding of the Go package [flenv] (flag.go, parser.go,
    option.go) and the properties of its flag descriptors, its registry
    and its argument tokenizer.

    Layout of the embedding:
    - Go strings are byte strings ([string]); the functions of package
      [strings] that the code calls are defined under their Go names.
    - Go [error] values are an inductive type with their message.
    - A descriptor [*Flag[T]] is a record living in a heap of descriptors;
      the interface value [flag] held by the registry is its address, so
      the slice [flags] and the map [flagIndex] share the descriptors.
    - The memory the targets point into is a finite map from addresses to
      typed values; [os.LookupEnv] reads a finite map.
    - A [panic] is the [Panic] outcome of [Result]. *)

From stdpp Require Import gmap strings list fin_maps.
From Stdlib Require Import ZArith Ascii String DecimalString Sorting.Sorted Sorting.Permutation.
From Stdlib Require OrderedTypeEx.

Local Open Scope string_scope.
Local Open Scope Z_scope.
Local Open Scope list_scope.

(** ** Package [strings] *)

Definition HasPrefix (s prefix : string) : bool := String.prefix prefix s.

Fixpoint dropBytes (n : nat) (s : string) : string :=
  match n, s with
  | O, _ => s
  | S n', EmptyString => EmptyString
  | S n', String _ s' => dropBytes n' s'
  end.

Definition TrimPrefix (s prefix : string) : string :=
  if HasPrefix s prefix then dropBytes (String.length prefix) s else s.

(** [strings.Index]: the position of the first occurrence, [None] for -1. *)
Definition Index (s substr : string) : option nat := String.index 0 substr s.

Definition Contains (s substr : string) : bool :=
  match Index s substr with Some _ => true | None => false end.

(** [s[:i]] and [s[i:]]. *)
Definition sliceTo (s : string) (i : nat) : string := String.substring 0 i s.
Definition sliceFrom (s : string) (i : nat) : string := dropBytes i s.

Definition Join (elems : list string) (sep : string) : string :=
  String.concat sep elems.

Definition Compare (a b : string) : comparison := String.compare a b.

Definition mapBytes (g : ascii -> ascii) : string -> string :=
  fix go (s : string) : string :=
    match s with
    | EmptyString => EmptyString
    | String c s' => String (g c) (go s')
    end.

(** The byte of an upper-case ASCII letter for that of a lower-case one;
    other bytes are kept. *)
Definition upperByte (c : ascii) : ascii :=
  let n := nat_of_ascii c in
  if (97 <=? n)%nat && (n <=? 122)%nat then ascii_of_nat (n - 32) else c.

(** [strings.ToUpper] has two branches.  On a string of ASCII bytes it
    maps the bytes [a]-[z], which is this definition.  On a string with
    a byte from 0x80 up it decodes runes, maps them through the case
    tables of package [unicode] and replaces invalid UTF-8 by U+FFFD;
    those tables are not part of this development, so this definition
    is [strings.ToUpper] on ASCII strings only, and the statements
    about it are made for ASCII strings. *)
Definition ToUpper (s : string) : string := mapBytes upperByte s.

(** [strings.ReplaceAll] for one-byte [old] and [new]. *)
Definition ReplaceAllByte (s : string) (old new : ascii) : string :=
  mapBytes (fun c => if Ascii.eqb c old then new else c) s.

(** ** Errors *)

(** [errorString] is what [errors.New] and [fmt.Errorf] (without [%w])
    return; [NumError] is [*strconv.NumError]. *)
Inductive error : Type :=
| errorString (msg : string)
| NumError (Func Num : string) (Err : error).

Definition hexDigit (n : nat) : ascii :=
  ascii_of_nat (if (n <? 10)%nat then 48 + n else 87 + n).

Definition backslash : ascii := "092"%char.
Definition dquote : ascii := "034"%char.

Definition escaped (c : ascii) (rest : string) : string :=
  String backslash (String c rest).

(** [strconv.Quote] byte by byte.  This is Go's function on ASCII text.
    On a byte from 0x80 up Go decodes a rune, escapes invalid UTF-8 as
    [\x..] and a rune that is not printable as [\u....], by the tables
    of package [unicode]; here such a byte is copied, which is Go's
    result for printable runes only.  The statements that render an
    error as text are therefore made for errors that quote ASCII text. *)
Fixpoint quoteBytes (s : string) : string :=
  match s with
  | EmptyString => EmptyString
  | String c s' =>
      let n := nat_of_ascii c in
      let rest := quoteBytes s' in
      if (n =? 34)%nat || (n =? 92)%nat then escaped c rest
      else if (n =? 7)%nat then escaped "a" rest
      else if (n =? 8)%nat then escaped "b" rest
      else if (n =? 12)%nat then escaped "f" rest
      else if (n =? 10)%nat then escaped "n" rest
      else if (n =? 13)%nat then escaped "r" rest
      else if (n =? 9)%nat then escaped "t" rest
      else if (n =? 11)%nat then escaped "v" rest
      else if (n <? 32)%nat || (n =? 127)%nat then
        escaped "x" (String (hexDigit (n / 16)) (String (hexDigit (n mod 16)) rest))
      else String c rest
  end.

Definition Quote (s : string) : string :=
  String dquote (quoteBytes s +:+ String dquote EmptyString).

(** The method [Error()]. *)
Fixpoint Error (e : error) : string :=
  match e with
  | errorString msg => msg
  | NumError Func Num Err =>
      "strconv." +:+ Func +:+ ": parsing " +:+ Quote Num +:+ ": " +:+ Error Err
  end.

(** ** Package [strconv] *)

Definition ErrSyntax : error := errorString "invalid syntax".
Definition ErrRange : error := errorString "value out of range".

Definition syntaxError (fn str : string) : error := NumError fn str ErrSyntax.
Definition rangeError (fn str : string) : error := NumError fn str ErrRange.

Definition ParseBool (str : string) : bool * option error :=
  if (str =? "1")%string || (str =? "t")%string || (str =? "T")%string
     || (str =? "true")%string || (str =? "TRUE")%string || (str =? "True")%string
  then (true, None)
  else if (str =? "0")%string || (str =? "f")%string || (str =? "F")%string
     || (str =? "false")%string || (str =? "FALSE")%string || (str =? "False")%string
  then (false, None)
  else (false, Some (syntaxError "ParseBool" str)).

Definition maxUint64 : Z := 2 ^ 64 - 1.

(** The digit loop of [ParseUint(s, 10, 64)]; [s0] is the whole input. *)
Fixpoint parseUintDigits (s0 s : string) (n : Z) : Z * option error :=
  match s with
  | EmptyString => (n, None)
  | String c s' =>
      let d := Z.of_nat (nat_of_ascii c) - 48 in
      if (d <? 0) || (9 <? d) then (0, Some (syntaxError "ParseUint" s0))
      else if maxUint64 / 10 + 1 <=? n then (maxUint64, Some (rangeError "ParseUint" s0))
      else
        let n1 := n * 10 + d in
        if maxUint64 <? n1 then (maxUint64, Some (rangeError "ParseUint" s0))
        else parseUintDigits s0 s' n1
  end.

Definition ParseUint10 (s : string) : Z * option error :=
  match s with
  | EmptyString => (0, Some (syntaxError "ParseUint" s))
  | _ => parseUintDigits s s 0
  end.

Definition isRangeError (e : error) : bool :=
  match e with
  | NumError _ _ (errorString msg) => (msg =? "value out of range")%string
  | _ => false
  end.

(** [ParseInt(s, 10, 0)] with a 64-bit [int]. *)
Definition ParseInt10 (s : string) : Z * option error :=
  match s with
  | EmptyString => (0, Some (syntaxError "ParseInt" s))
  | String c s' =>
      let s0 := s in
      let neg := Ascii.eqb c "-" in
      let digits := if Ascii.eqb c "+" || neg then s' else s in
      let '(un, err) := ParseUint10 digits in
      let cutoff := 2 ^ 63 in
      match err with
      | Some e =>
          if negb (isRangeError e) then (0, Some (syntaxError "ParseInt" s0))
          else if neg then (- cutoff, Some (rangeError "ParseInt" s0))
          else (cutoff - 1, Some (rangeError "ParseInt" s0))
      | None =>
          if negb neg && (cutoff <=? un) then (cutoff - 1, Some (rangeError "ParseInt" s0))
          else if neg && (cutoff <? un) then (- cutoff, Some (rangeError "ParseInt" s0))
          else (if neg then - un else un, None)
      end
  end.

(** The fast path of [Atoi] for inputs of 1 to 18 bytes. *)
Fixpoint atoiDigits (s0 s : string) (n : Z) : Z * option error :=
  match s with
  | EmptyString => (n, None)
  | String c s' =>
      let ch := Z.of_nat (nat_of_ascii c) - 48 in
      if (ch <? 0) || (9 <? ch) then (0, Some (syntaxError "Atoi" s0))
      else atoiDigits s0 s' (n * 10 + ch)
  end.

Definition renameFunc (fn : string) (err : option error) : option error :=
  match err with
  | Some (NumError _ num e) => Some (NumError fn num e)
  | other => other
  end.

Definition Atoi (s : string) : Z * option error :=
  let sLen := String.length s in
  if (0 <? sLen)%nat && (sLen <? 19)%nat then
    match s with
    | EmptyString => (0, Some (syntaxError "Atoi" s))
    | String c s' =>
        let signed := Ascii.eqb c "-" || Ascii.eqb c "+" in
        let digits := if signed then s' else s in
        if signed && (String.length digits <? 1)%nat then (0, Some (syntaxError "Atoi" s))
        else
          match atoiDigits s digits 0 with
          | (n, None) => (if Ascii.eqb c "-" then - n else n, None)
          | failed => failed
          end
    end
  else
    let '(i64, err) := ParseInt10 s in (i64, renameFunc "Atoi" err).

(** [fmt.Errorf(format, arg)] for the one-verb formats of the package. *)
Definition Errorf (prefix arg : string) : error := errorString (prefix +:+ arg).

(** ** Values and memory *)

(** The types [T] at which flag.go instantiates [Flag[T]] and for which
    [Parser] has a registration method; [int] is 64 bits wide. *)
Inductive ty : Type := TBool | TInt | TString.

#[global] Instance ty_eq_dec : EqDecision ty.
Proof. solve_decision. Defined.

Definition denote (t : ty) : Type :=
  match t with
  | TBool => bool
  | TInt => Z
  | TString => string
  end.

(** The zero value of [T]. *)
Definition zero (t : ty) : denote t :=
  match t with
  | TBool => false
  | TInt => 0
  | TString => EmptyString
  end.

Inductive value : Type :=
| VBool (b : bool)
| VInt (n : Z)
| VString (s : string).

Definition box (t : ty) : denote t -> value :=
  match t with
  | TBool => VBool
  | TInt => VInt
  | TString => VString
  end.

(** An address a target can point to: the two [bool] fields of the parser
    ([&p.helpCalled], [&p.versionCalled]) and the caller's variables. *)
Inductive loc : Type :=
| addrHelpCalled
| addrVersionCalled
| addr (n : nat).

#[global] Instance loc_eq_dec : EqDecision loc.
Proof. solve_decision. Defined.

Definition loc_code (l : loc) : nat :=
  match l with
  | addrHelpCalled => 0
  | addrVersionCalled => 1
  | addr n => S (S n)
  end.

Definition loc_of_code (n : nat) : loc :=
  match n with
  | O => addrHelpCalled
  | S O => addrVersionCalled
  | S (S n') => addr n'
  end.

#[global] Instance loc_countable : Countable loc.
Proof. apply (inj_countable' loc_code loc_of_code). intros []; reflexivity. Defined.

Abbreviation memory := (gmap loc value).

(** A function that panics either returns or stops with a message. *)
Inductive Result (A : Type) : Type :=
| Done (a : A)
| Panic (msg : string).

Arguments Done {A} a.
Arguments Panic {A} msg.

(** ** flag.go: the descriptor *)

Record Flag (t : ty) : Type := mkFlag {
  target : loc;
  isBool : bool;
  name : string;
  envVarName : string;
  helpMessage : string;
  placeholder : string;
  defaultValue : denote t;
  defaultValueSet : bool;
  required : bool;
  set : bool;
  parseFunc : string -> denote t * option error
}.

Arguments mkFlag {t}.
Arguments target {t} f.
Arguments isBool {t} f.
Arguments name {t} f.
Arguments envVarName {t} f.
Arguments helpMessage {t} f.
Arguments placeholder {t} f.
Arguments defaultValue {t} f.
Arguments defaultValueSet {t} f.
Arguments required {t} f.
Arguments set {t} f.
Arguments parseFunc {t} f.

Section FlagMethods.
Context {t : ty}.
Implicit Type f : Flag t.

Definition Env f (envName : string) : Flag t :=
  mkFlag (target f) (isBool f) (name f) envName (helpMessage f) (placeholder f)
         (defaultValue f) (defaultValueSet f) (required f) (set f) (parseFunc f).

Definition Placeholder f (ph : string) : Result (Flag t) :=
  if isBool f then Panic "setting placeholder for a bool flag is not possible"
  else
    Done (mkFlag (target f) (isBool f) (name f) (envVarName f) (helpMessage f) ph
                 (defaultValue f) (defaultValueSet f) (required f) (set f) (parseFunc f)).

Definition Default f (v : denote t) : Result (Flag t) :=
  if isBool f then Panic "setting default value for a bool flag is not possible"
  else if required f then Panic "setting default value for a required flag is not possible"
  else
    Done (mkFlag (target f) (isBool f) (name f) (envVarName f) (helpMessage f) (placeholder f)
                 v true (required f) (set f) (parseFunc f)).

Definition Required f : Result (Flag t) :=
  if isBool f then Panic "making a bool flag required is not possible"
  else if defaultValueSet f then Panic "making a flag with default value required is not possible"
  else
    Done (mkFlag (target f) (isBool f) (name f) (envVarName f) (helpMessage f) (placeholder f)
                 (defaultValue f) (defaultValueSet f) true (set f) (parseFunc f)).

Definition isRequired f : bool := required f.
Definition isSet f : bool := set f.
Definition getName f : string := name f.

Definition getShortDescription f : string :=
  if isBool f then "--" +:+ name f
  else "--" +:+ name f +:+ "=" +:+ placeholder f.

(** [*f.target = val; f.set = true]. *)
Definition setValue f (val : denote t) (m : memory) : Flag t * memory :=
  (mkFlag (target f) (isBool f) (name f) (envVarName f) (helpMessage f) (placeholder f)
          (defaultValue f) (defaultValueSet f) (required f) true (parseFunc f),
   <[target f := box t val]> m).

Definition setValueFromString f (s : string) (m : memory)
  : Flag t * memory * option error :=
  match parseFunc f s with
  | (_, Some err) => (f, m, Some err)
  | (val, None) => (setValue f val m, None)
  end.

Definition setValueFromDefault f (m : memory) : Flag t * memory :=
  if defaultValueSet f then setValue f (defaultValue f) m else (f, m).
End FlagMethods.

(** [os.LookupEnv]: the empty key is never found. *)
Definition LookupEnv (environ : gmap string string) (key : string) : option string :=
  if (key =? EmptyString)%string then None else environ !! key.

Definition setValueFromEnv {t} (environ : gmap string string) (f : Flag t) (m : memory)
  : Flag t * memory * option error :=
  match LookupEnv environ (envVarName f) with
  | None => (f, m, None)
  | Some val => setValueFromString f val m
  end.

(** [fmt]'s [%v] for the supported types. *)
Definition formatValue (v : value) : string :=
  match v with
  | VBool b => if b then "true" else "false"
  | VInt n => NilZero.string_of_int (Z.to_int n)
  | VString s => s
  end.

Definition tab : ascii := "009"%char.

Definition getLongDescription {t} (f : Flag t) : string :=
  let b := "  " +:+ getShortDescription f +:+ String tab (helpMessage f) in
  let b :=
    if required f then b +:+ " (required)"
    else if defaultValueSet f
         then b +:+ " (default: " +:+ formatValue (box t (defaultValue f)) +:+ ")"
         else b in
  if negb (envVarName f =? EmptyString)%string then b +:+ " [$" +:+ envVarName f +:+ "]" else b.

Definition NewBoolFlag (tgt : loc) (nm help : string) : Flag TBool :=
  mkFlag tgt true nm EmptyString help EmptyString (zero TBool) false false false ParseBool.

Definition NewIntFlag (tgt : loc) (nm help : string) : Flag TInt :=
  mkFlag tgt false nm EmptyString help "INT" (zero TInt) false false false Atoi.

Definition NewStringFlag (tgt : loc) (nm help : string) : Flag TString :=
  mkFlag tgt false nm EmptyString help "STRING" (zero TString) false false false
         (fun s => (s, None)).

(** ** The interface [flag] and the state it is called in *)

(** A registered descriptor of any value type: what an interface value
    of type [flag] can point to. *)
Inductive descriptor : Type :=
| desc (t : ty) (f : Flag t).

(** An interface value of type [flag] wraps a [*Flag[T]]: the address of
    a descriptor in the heap, the position it was allocated at. *)
Abbreviation flag := nat.

(** The state of the process around one parser: the environment
    variables, the memory of the targets and the allocated descriptors. *)
Record World : Type := mkWorld {
  environ : gmap string string;
  mem : memory;
  heap : list descriptor
}.

Definition alloc (d : descriptor) (w : World) : flag * World :=
  (List.length (heap w), mkWorld (environ w) (mem w) (heap w ++ [d])).

Definition flag_isRequired (w : World) (v : flag) : bool :=
  match heap w !! v with
  | Some (desc _ f) => isRequired f
  | None => false
  end.

Definition flag_isSet (w : World) (v : flag) : bool :=
  match heap w !! v with
  | Some (desc _ f) => isSet f
  | None => false
  end.

Definition flag_getName (w : World) (v : flag) : string :=
  match heap w !! v with
  | Some (desc _ f) => getName f
  | None => EmptyString
  end.

Definition flag_getShortDescription (w : World) (v : flag) : string :=
  match heap w !! v with
  | Some (desc _ f) => getShortDescription f
  | None => EmptyString
  end.

Definition flag_getLongDescription (w : World) (v : flag) : string :=
  match heap w !! v with
  | Some (desc _ f) => getLongDescription f
  | None => EmptyString
  end.

Definition flag_setValueFromDefault (v : flag) (w : World) : World :=
  match heap w !! v with
  | Some (desc t f) =>
      let '(f', m') := setValueFromDefault f (mem w) in
      mkWorld (environ w) m' (<[v := desc t f']> (heap w))
  | None => w
  end.

Definition flag_setValueFromEnv (v : flag) (w : World) : World * option error :=
  match heap w !! v with
  | Some (desc t f) =>
      let '(f', m', err) := setValueFromEnv (environ w) f (mem w) in
      (mkWorld (environ w) m' (<[v := desc t f']> (heap w)), err)
  | None => (w, None)
  end.

Definition flag_setValueFromString (v : flag) (s : string) (w : World)
  : World * option error :=
  match heap w !! v with
  | Some (desc t f) =>
      let '(f', m', err) := setValueFromString f s (mem w) in
      (mkWorld (environ w) m' (<[v := desc t f']> (heap w)), err)
  | None => (w, None)
  end.

(** The builder methods called through the pointer a registration
    method returned. *)
Definition flag_configure (g : forall t, Flag t -> Result (Flag t)) (v : flag) (w : World)
  : Result World :=
  match heap w !! v with
  | Some (desc t f) =>
      match g t f with
      | Done f' => Done (mkWorld (environ w) (mem w) (<[v := desc t f']> (heap w)))
      | Panic msg => Panic msg
      end
  | None => Panic "invalid memory address or nil pointer dereference"
  end.

Definition flag_Env (envName : string) : flag -> World -> Result World :=
  flag_configure (fun t f => Done (Env f envName)).

Definition flag_Placeholder (ph : string) : flag -> World -> Result World :=
  flag_configure (fun t f => Placeholder f ph).

Definition flag_Required : flag -> World -> Result World :=
  flag_configure (fun t f => Required f).

Definition castValue (t t' : ty) : denote t -> option (denote t') :=
  match t as a, t' as b return denote a -> option (denote b) with
  | TBool, TBool => Some
  | TInt, TInt => Some
  | TString, TString => Some
  | _, _ => fun _ => None
  end.

(** [Default] on a [*Flag[T]]; Go's type checker rules the mismatch out. *)
Definition flag_Default (t : ty) (val : denote t) : flag -> World -> Result World :=
  flag_configure (fun t' f =>
    match castValue t t' val with
    | Some val' => Default f val'
    | None => Panic "type mismatch"
    end).

(** ** parser.go and option.go *)

Record Parser : Type := mkParser {
  envVarFormatter : string -> string;
  envVarPrefix : string;
  autoEnv : bool;
  helpFlagName : string;
  appName : string;
  appVersion : string;
  appVersionFlagName : string;
  flags : list flag;
  flagIndex : gmap string flag
}.

Definition Option : Type := Parser -> Parser.

Definition WithEnvVarPrefix (prefix : string) : Option := fun p =>
  mkParser (envVarFormatter p) prefix (autoEnv p) (helpFlagName p) (appName p)
           (appVersion p) (appVersionFlagName p) (flags p) (flagIndex p).

Definition WithEnvVarFormatter (f : string -> string) : Option := fun p =>
  mkParser f (envVarPrefix p) (autoEnv p) (helpFlagName p) (appName p)
           (appVersion p) (appVersionFlagName p) (flags p) (flagIndex p).

Definition WithoutAutoEnv : Option := fun p =>
  mkParser (envVarFormatter p) (envVarPrefix p) false (helpFlagName p) (appName p)
           (appVersion p) (appVersionFlagName p) (flags p) (flagIndex p).

Definition WithHelpFlagName (nm : string) : Option := fun p =>
  mkParser (envVarFormatter p) (envVarPrefix p) (autoEnv p) nm (appName p)
           (appVersion p) (appVersionFlagName p) (flags p) (flagIndex p).

Definition WithAppVersionFlagName (nm : string) : Option := fun p =>
  mkParser (envVarFormatter p) (envVarPrefix p) (autoEnv p) (helpFlagName p) (appName p)
           (appVersion p) nm (flags p) (flagIndex p).

Definition WithAppVersion (version : string) : Option := fun p =>
  mkParser (envVarFormatter p) (envVarPrefix p) (autoEnv p) (helpFlagName p) (appName p)
           version (appVersionFlagName p) (flags p) (flagIndex p).

Definition WithAppName (nm : string) : Option := fun p =>
  mkParser (envVarFormatter p) (envVarPrefix p) (autoEnv p) (helpFlagName p) nm
           (appVersion p) (appVersionFlagName p) (flags p) (flagIndex p).

Definition registerFlag (p : Parser) (nm : string) (f : flag) : Result Parser :=
  match flagIndex p !! nm with
  | Some _ => Panic ("flag with name " +:+ nm +:+ " is already registered")
  | None =>
      Done (mkParser (envVarFormatter p) (envVarPrefix p) (autoEnv p) (helpFlagName p)
                     (appName p) (appVersion p) (appVersionFlagName p)
                     (flags p ++ [f]) (<[nm := f]> (flagIndex p)))
  end.

Definition defaultEnvVarFormatter (s : string) : string :=
  ReplaceAllByte (ToUpper s) "-" "_".

(** [New]: the world holds this one parser, whose fields [helpCalled] and
    [versionCalled] start out false. *)
Definition New (opts : list Option) (w : World) : Result (Parser * World) :=
  let p := mkParser defaultEnvVarFormatter EmptyString true "help" EmptyString EmptyString
                    "version" [] ∅ in
  let w := mkWorld (environ w)
                   (<[addrVersionCalled := VBool false]> (<[addrHelpCalled := VBool false]> (mem w)))
                   (heap w) in
  let p := foldl (fun p opt => opt p) p opts in
  let '(helpFlag, w) :=
    alloc (desc TBool (NewBoolFlag addrHelpCalled (helpFlagName p) "Show help message")) w in
  match registerFlag p (helpFlagName p) helpFlag with
  | Panic msg => Panic msg
  | Done p =>
      if negb (appVersion p =? EmptyString)%string then
        let '(versionFlag, w) :=
          alloc (desc TBool (NewBoolFlag addrVersionCalled (appVersionFlagName p)
                                           "Show application version")) w in
        match registerFlag p (appVersionFlagName p) versionFlag with
        | Panic msg => Panic msg
        | Done p => Done (p, w)
        end
      else Done (p, w)
  end.

(** The common body of [Bool], [Int] and [String]: allocate the
    descriptor [f], register it, then derive its environment variable. *)
Definition registerNew {t} (f : Flag t) (nm : string) (p : Parser) (w : World)
  : Result (flag * Parser * World) :=
  let '(v, w) := alloc (desc t f) w in
  match registerFlag p nm v with
  | Panic msg => Panic msg
  | Done p =>
      if autoEnv p then
        let envName := envVarPrefix p +:+ envVarFormatter p nm in
        match flag_Env envName v w with
        | Done w => Done (v, p, w)
        | Panic msg => Panic msg
        end
      else Done (v, p, w)
  end.

Definition Parser_Bool (tgt : loc) (nm description : string) :=
  registerNew (NewBoolFlag tgt nm description) nm.

Definition Parser_Int (tgt : loc) (nm description : string) :=
  registerNew (NewIntFlag tgt nm description) nm.

Definition Parser_String (tgt : loc) (nm description : string) :=
  registerNew (NewStringFlag tgt nm description) nm.

Definition Parser_set (p : Parser) (nm val : string) (w : World) : World * option error :=
  match flagIndex p !! nm with
  | Some f => flag_setValueFromString f val w
  | None => (w, Some (Errorf "unknown flag: --" nm))
  end.

(** [if err != nil { parseErrs = append(parseErrs, err) }]. *)
Definition collect (parseErrs : list error) (err : option error) : list error :=
  match err with
  | Some e => parseErrs ++ [e]
  | None => parseErrs
  end.

(** The body of the first loop of [parse]. *)
Definition seed (v : flag) (st : World * list error) : World * list error :=
  let '(w, parseErrs) := st in
  let w := flag_setValueFromDefault v w in
  let '(w, err) := flag_setValueFromEnv v w in
  (w, collect parseErrs err).

(** The second loop of [parse], over the remaining arguments. *)
Fixpoint tokenize (p : Parser) (args : list string) (w : World) (parseErrs : list error)
  {struct args} : World * list error :=
  match args with
  | [] => (w, parseErrs)
  | arg :: args =>
      if negb (HasPrefix arg "--") then
        (w, parseErrs ++ [Errorf "unexpected argument: " arg])
      else
        let arg := TrimPrefix arg "--" in
        if (arg =? EmptyString)%string then
          match args with
          | [] => (w, parseErrs)
          | _ :: _ => (w, parseErrs ++ [Errorf "unexpected arguments: " (Join args " ")])
          end
        else
          match Index arg "=" with
          | Some equalsIdx =>
              let '(w, err) := Parser_set p (sliceTo arg equalsIdx) (sliceFrom arg (equalsIdx + 1)) w in
              tokenize p args w (collect parseErrs err)
          | None =>
              match args with
              | [] =>
                  let '(w, err) := Parser_set p arg "true" w in
                  tokenize p args w (collect parseErrs err)
              | next :: args' =>
                  if HasPrefix next "--" then
                    let '(w, err) := Parser_set p arg "true" w in
                    tokenize p args w (collect parseErrs err)
                  else
                    let '(w, err) := Parser_set p arg next w in
                    tokenize p args' w (collect parseErrs err)
              end
          end
  end.

(** [parse]: [iter] lists the entries of [flagIndex] in the order in which
    [range] yields them, which Go leaves unspecified. *)
Definition parse (p : Parser) (iter : list (string * flag)) (args : list string) (w : World)
  : World * list error :=
  let '(w, parseErrs) := foldl (fun st kv => seed (snd kv) st) (w, []) iter in
  tokenize p args w parseErrs.

Definition checkRequiredFlags (p : Parser) (w : World) : list error :=
  foldl (fun checkErrs v =>
           if flag_isRequired w v && negb (flag_isSet w v)
           then checkErrs ++ [Errorf "missing required flag: --" (flag_getName w v)]
           else checkErrs)
        [] (flags p).

(** [slices.SortStableFunc]: a stable sort leaves one possible result for
    a given comparison, computed here by insertion from the right. *)
Fixpoint insertStable {A} (cmp : A -> A -> comparison) (x : A) (l : list A) : list A :=
  match l with
  | [] => [x]
  | y :: l' =>
      match cmp x y with
      | Gt => y :: insertStable cmp x l'
      | _ => x :: l
      end
  end.

Fixpoint SortStableFunc {A} (cmp : A -> A -> comparison) (l : list A) : list A :=
  match l with
  | [] => []
  | x :: l' => insertStable cmp x (SortStableFunc cmp l')
  end.

Definition newline : ascii := "010"%char.

(** What [printHelp] writes: [direct] straight to the writer, [table]
    line by line through the [tabwriter]. *)
Record HelpText : Type := mkHelpText { direct : string; table : list string }.

(** [printHelp] sorts [p.flags] in place, so it returns the parser too;
    [arg0] is [os.Args[0]]. *)
Definition printHelp (arg0 : string) (p : Parser) (w : World) : Parser * HelpText :=
  let sorted :=
    SortStableFunc (fun a b => Compare (flag_getName w a) (flag_getName w b)) (flags p) in
  let p := mkParser (envVarFormatter p) (envVarPrefix p) (autoEnv p) (helpFlagName p)
                    (appName p) (appVersion p) (appVersionFlagName p) sorted (flagIndex p) in
  let app := if (appName p =? EmptyString)%string then arg0 else appName p in
  let usage := "Usage: " +:+ app in
  let usage :=
    foldl (fun out v =>
             if flag_isRequired w v then out +:+ " " +:+ flag_getShortDescription w v else out)
          usage (flags p) in
  let usage :=
    foldl (fun out v =>
             if negb (flag_isRequired w v)
             then out +:+ " [" +:+ flag_getShortDescription w v +:+ "]" else out)
          usage (flags p) in
  let usage := usage +:+ String newline (String newline EmptyString)
                     +:+ "Flags:" +:+ String newline EmptyString in
  (p, mkHelpText usage (map (flag_getLongDescription w) (flags p))).

(** ** parser.go: [Parse] and what it prints *)

Definition printVersion (p : Parser) : string :=
  appVersion p +:+ String newline EmptyString.

Definition printErrs (p : Parser) (errs : list error) : string :=
  foldl (fun out err => out +:+ Error err +:+ String newline EmptyString) EmptyString errs
  +:+ String newline EmptyString +:+ "Use '--" +:+ helpFlagName p +:+ "' flag for more info."
  +:+ String newline EmptyString.

(** How [Parse] ends: [os.Exit(1)] after the errors went to the standard
    error, [os.Exit(0)] after the help or the version went to the
    standard output, or a return to the caller. *)
Inductive Outcome : Type :=
| ExitErrors (stderr : string)
| ExitHelp (stdout : HelpText)
| ExitVersion (stdout : string)
| Returns.

(** The fields [p.helpCalled] and [p.versionCalled], read from memory. *)
Definition readBool (m : memory) (l : loc) : bool :=
  match m !! l with
  | Some (VBool b) => b
  | _ => false
  end.

(** [Parse], on [os.Args = arg0 :: args]. *)
Definition Parse (arg0 : string) (args : list string) (iter : list (string * flag))
           (p : Parser) (w : World) : World * Outcome :=
  let '(w, errs) := parse p iter args w in
  match errs with
  | _ :: _ => (w, ExitErrors (printErrs p errs))
  | [] =>
      if readBool (mem w) addrHelpCalled then (w, ExitHelp (snd (printHelp arg0 p w)))
      else if readBool (mem w) addrVersionCalled then (w, ExitVersion (printVersion p))
      else
        match checkRequiredFlags p w with
        | (_ :: _) as errs => (w, ExitErrors (printErrs p errs))
        | [] => (w, Returns)
        end
  end.

(** ** Vocabulary of the statements *)

Definition panics {A} (r : Result A) : bool :=
  match r with
  | Panic _ => true
  | Done _ => false
  end.

(** The descriptor [f] with its field [set] replaced. *)
Definition withSet {t} (b : bool) (f : Flag t) : Flag t :=
  mkFlag (target f) (isBool f) (name f) (envVarName f) (helpMessage f) (placeholder f)
         (defaultValue f) (defaultValueSet f) (required f) b (parseFunc f).

(** A call of one of the methods of [*Flag[T]] that change the
    descriptor or its target. *)
Inductive method (t : ty) : Type :=
| callEnv (envName : string)
| callPlaceholder (ph : string)
| callDefault (v : denote t)
| callRequired
| callSetValue (val : denote t)
| callSetValueFromString (s : string)
| callSetValueFromEnv
| callSetValueFromDefault.

Arguments callEnv {t} envName.
Arguments callPlaceholder {t} ph.
Arguments callDefault {t} v.
Arguments callRequired {t}.
Arguments callSetValue {t} val.
Arguments callSetValueFromString {t} s.
Arguments callSetValueFromEnv {t}.
Arguments callSetValueFromDefault {t}.

Definition call {t} (env : gmap string string) (c : method t) (f : Flag t) (m : memory)
  : Result (Flag t * memory) :=
  match c with
  | callEnv envName => Done (Env f envName, m)
  | callPlaceholder ph =>
      match Placeholder f ph with Done f' => Done (f', m) | Panic msg => Panic msg end
  | callDefault v =>
      match Default f v with Done f' => Done (f', m) | Panic msg => Panic msg end
  | callRequired =>
      match Required f with Done f' => Done (f', m) | Panic msg => Panic msg end
  | callSetValue val => Done (setValue f val m)
  | callSetValueFromString s => Done (fst (setValueFromString f s m))
  | callSetValueFromEnv => Done (fst (setValueFromEnv env f m))
  | callSetValueFromDefault => Done (setValueFromDefault f m)
  end.

Fixpoint calls {t} (env : gmap string string) (cs : list (method t)) (f : Flag t) (m : memory)
  : Result (Flag t * memory) :=
  match cs with
  | [] => Done (f, m)
  | c :: cs' =>
      match call env c f m with
      | Done (f', m') => calls env cs' f' m'
      | Panic msg => Panic msg
      end
  end.

(** The value a call writes into the target, if it writes one. *)
Definition written {t} (env : gmap string string) (c : method t) (f : Flag t)
  : option (denote t) :=
  match c with
  | callSetValue val => Some val
  | callSetValueFromString s =>
      match parseFunc f s with (val, None) => Some val | (_, Some _) => None end
  | callSetValueFromEnv =>
      match LookupEnv env (envVarName f) with
      | Some s => match parseFunc f s with (val, None) => Some val | (_, Some _) => None end
      | None => None
      end
  | callSetValueFromDefault => if defaultValueSet f then Some (defaultValue f) else None
  | _ => None
  end.

(** Sequencing of calls that may panic. *)
#[global] Instance Result_bind : MBind Result := fun A B k r =>
  match r with
  | Done a => k a
  | Panic msg => Panic msg
  end.

(** The scenario of the specification: a parser with one required
    integer flag [count], built the way a caller builds it,
    [p.Int(&n, "count", ...).Required()], in a given environment. *)
Definition requiredCount (env : gmap string string) : Result (flag * Parser * World) :=
  '(p, w) ← New [] (mkWorld env ∅ []);
  '(v, p, w) ← Parser_Int (addr 0) "count" "Number of items" p w;
  w ← flag_Required v w;
  Done (v, p, w).

Definition descTarget (d : descriptor) : loc :=
  match d with desc _ f => target f end.

Definition descEnvVarName (d : descriptor) : string :=
  match d with desc _ f => envVarName f end.

(** What one call of [setValueFromDefault], [setValueFromEnv] or
    [setValueFromString] through the interface value [v] does to the
    state: nothing, or one write of a value into the target of the
    descriptor, which is then marked as set. *)
Inductive touched (v : flag) (w : World) : World -> Prop :=
| touched_not : touched v w w
| touched_write (t : ty) (f : Flag t) (val : denote t) :
    heap w !! v = Some (desc t f) ->
    touched v w (mkWorld (environ w)
                         (<[target f := box t val]> (mem w))
                         (<[v := desc t (withSet true f)]> (heap w))).

(** The descriptor at [v] is [f], up to its field [set]. *)
Definition holds (w : World) (v : flag) {t} (f : Flag t) : Prop :=
  exists b, heap w !! v = Some (desc t (withSet b f)).

(** No other registered descriptor points to the target of [f], the
    descriptor at [v]: the target is owned by one descriptor. *)
Definition exclusive (p : Parser) (w : World) (v : flag) {t} (f : Flag t) : Prop :=
  forall nm u d,
    flagIndex p !! nm = Some u -> u <> v -> heap w !! u = Some d ->
    descTarget d <> target f.

(** The value the first loop of [parse] leaves in the target of [f]:
    the environment value if there is one that parses, else the default
    if there is one. *)
Definition seeded {t} (env : gmap string string) (f : Flag t) : option (denote t) :=
  let fallback := if defaultValueSet f then Some (defaultValue f) else None in
  match LookupEnv env (envVarName f) with
  | Some s => match parseFunc f s with (val, None) => Some val | (_, Some _) => fallback end
  | None => fallback
  end.

Definition wrote {t} (env : gmap string string) (c : method t) (f : Flag t) : bool :=
  match written env c f with
  | Some _ => true
  | None => false
  end.

(** One call of [set] in the second loop of [parse], on the state of the
    loop: the error, if any, is appended. *)
Definition setStep (p : Parser) (st : World * list error) (nm val : string)
  : World * list error :=
  let '(w, err) := Parser_set p nm val (fst st) in (w, collect (snd st) err).

(** The token [--name=value]. *)
Definition assignment (kv : string * string) : string :=
  "--" +:+ fst kv +:+ "=" +:+ snd kv.

(** What the calls of one resolution pass keep true of the state, seen
    from the descriptor [f] at [v]: the environment, the descriptor up to
    [set], and the ownership of its target. *)
Definition stable (p : Parser) (v : flag) {t} (f : Flag t) (env : gmap string string)
           (w : World) : Prop :=
  environ w = env /\ holds w v f /\ exclusive p w v f.

(** The target of [f] holds [x] and the descriptor is marked as set. *)
Definition resolved (v : flag) {t} (f : Flag t) (x : denote t) (w : World) : Prop :=
  mem w !! target f = Some (box t x) /\ heap w !! v = Some (desc t (withSet true f)).

(** Checks, on the entries of the index, that [v] is registered under
    the name [n] only and that no other registered descriptor shares
    its target. *)
Definition soleName (p : Parser) (n : string) (v : flag) : bool :=
  forallb (fun kv => negb (snd kv =? v)%nat || (fst kv =? n)%string)
          (map_to_list (flagIndex p)).

Definition soleOwner (p : Parser) (w : World) (v : flag) : bool :=
  forallb (fun kv =>
             (snd kv =? v)%nat
             || match heap w !! snd kv, heap w !! v with
                | Some d, Some dv => negb (bool_decide (descTarget d = descTarget dv))
                | _, _ => true
                end)
          (map_to_list (flagIndex p)).

(** A parser with one integer flag [port] that has the default 80:
    [p.Int(&port, "port", ...).Default(80)]. *)
Definition portWithDefault (env : gmap string string) : Result (flag * Parser * World) :=
  '(p, w) ← New [] (mkWorld env ∅ []);
  '(v, p, w) ← Parser_Int (addr 0) "port" "Port to listen on" p w;
  w ← flag_Default TInt 80 v w;
  Done (v, p, w).

(** A descriptor without its field [set]: what configuration gave it. *)
Definition config (d : descriptor) : descriptor :=
  match d with desc t f => desc t (withSet false f) end.

Definition descRequired (d : descriptor) : bool :=
  match d with desc _ f => required f end.

Definition descName (d : descriptor) : string :=
  match d with desc _ f => name f end.

(** The error [checkRequiredFlags] reports for the descriptor at [v]. *)
Definition missing (w : World) (v : flag) : error :=
  Errorf "missing required flag: --" (flag_getName w v).

Definition unmet (w : World) (v : flag) : bool :=
  flag_isRequired w v && negb (flag_isSet w v).

(** The parsers reached from [p0] by registrations alone, with the
    descriptors registered on the way, in order. *)
Inductive registrations (p0 : Parser) : list flag -> Parser -> Prop :=
| registrations_none : registrations p0 [] p0
| registrations_more (fs : list flag) (p p' : Parser) (nm : string) (f : flag) :
    registrations p0 fs p -> registerFlag p nm f = Done p' ->
    registrations p0 (fs ++ [f]) p'.

(** The comparison [printHelp] sorts with, and the order it defines. *)
Definition byName (w : World) (a b : flag) : comparison :=
  Compare (flag_getName w a) (flag_getName w b).

Definition nameLe (w : World) (a b : flag) : Prop := byName w a b <> Gt.

(** A parser with two required integer flags, registered as [zeta] and
    then [alpha]. *)
Definition twoRequired : Result (Parser * World) :=
  '(p, w) ← New [] (mkWorld ∅ ∅ []);
  '(v, p, w) ← Parser_Int (addr 0) "zeta" "Last letter" p w;
  w ← flag_Required v w;
  '(v, p, w) ← Parser_Int (addr 1) "alpha" "First letter" p w;
  w ← flag_Required v w;
  Done (p, w).

(** An option that changes neither the names of the help and version
    flags nor the registry, as every option of option.go does except
    [WithHelpFlagName] and [WithAppVersionFlagName]. *)
Definition keepsNames (opt : Option) : Prop :=
  forall p,
    helpFlagName (opt p) = helpFlagName p
    /\ appVersionFlagName (opt p) = appVersionFlagName p
    /\ flags (opt p) = flags p
    /\ flagIndex (opt p) = flagIndex p.

(** The parsers reached from [p0] by registrations and calls of
    [printHelp]. *)
Inductive later (p0 : Parser) : Parser -> Prop :=
| later_now : later p0 p0
| later_register (p p' : Parser) (nm : string) (f : flag) :
    later p0 p -> registerFlag p nm f = Done p' -> later p0 p'
| later_printHelp (p : Parser) (arg0 : string) (w : World) :
    later p0 p -> later p0 (fst (printHelp arg0 p w)).

(** The states these scenarios end in, written out. *)
Definition freshMemory : memory :=
  <[addrVersionCalled := VBool false]> (<[addrHelpCalled := VBool false]> ∅).

Definition helpDescriptor : descriptor :=
  desc TBool (NewBoolFlag addrHelpCalled "help" "Show help message").

Definition parserOf (fs : list flag) (index : gmap string flag) : Parser :=
  mkParser defaultEnvVarFormatter EmptyString true "help" EmptyString EmptyString "version"
           fs index.

Definition countFlag : Flag TInt :=
  @mkFlag TInt (addr 0) false "count" "COUNT" "Number of items" "INT" 0 false true false Atoi.

Definition countParser : Parser :=
  parserOf [0; 1]%nat (<["count" := 1%nat]> (<["help" := 0%nat]> ∅)).

Definition countWorld (env : gmap string string) : World :=
  mkWorld env freshMemory [helpDescriptor; desc TInt countFlag].

Definition portFlag : Flag TInt :=
  @mkFlag TInt (addr 0) false "port" "PORT" "Port to listen on" "INT" 80 true false false Atoi.

Definition portParser : Parser :=
  parserOf [0; 1]%nat (<["port" := 1%nat]> (<["help" := 0%nat]> ∅)).

Definition portWorld (env : gmap string string) : World :=
  mkWorld env freshMemory [helpDescriptor; desc TInt portFlag].

Definition lettersParser : Parser :=
  parserOf [0; 1; 2]%nat
           (<["alpha" := 2%nat]> (<["zeta" := 1%nat]> (<["help" := 0%nat]> ∅))).

Definition lettersWorld : World :=
  mkWorld ∅ freshMemory
          [helpDescriptor;
           desc TInt (@mkFlag TInt (addr 0) false "zeta" "ZETA" "Last letter" "INT" 0 false true false
                             Atoi);
           desc TInt (@mkFlag TInt (addr 1) false "alpha" "ALPHA" "First letter" "INT" 0 false true
                             false Atoi)].

(** The constraints the builder methods guard: never both required and
    with a default, and a boolean descriptor with neither of them nor a
    placeholder. *)
Definition wellConfigured {t} (f : Flag t) : bool :=
  negb (required f && defaultValueSet f)
  && (negb (isBool f)
      || (negb (required f) && negb (defaultValueSet f)
          && (placeholder f =? EmptyString)%string)).

(** The bytes of a Go string. *)
Definition bytes (s : string) : list ascii := list_ascii_of_string s.

Definition isASCII (c : ascii) : bool := (nat_of_ascii c <? 128)%nat.

Definition isLower (c : ascii) : bool :=
  (97 <=? nat_of_ascii c)%nat && (nat_of_ascii c <=? 122)%nat.

(** An option that leaves the registry alone, as all of option.go do. *)
Definition keepsRegistry (opt : Option) : Prop :=
  forall p, flags (opt p) = flags p /\ flagIndex (opt p) = flagIndex p.

(** The states a program reaches through the package: [New] in a process
    without descriptors, the registration methods, the builder methods
    on the pointers they return, [parse] and [printHelp]. *)
Inductive built : Parser -> World -> Prop :=
| built_New (opts : list Option) (w0 : World) (p : Parser) (w : World) :
    heap w0 = [] -> Forall keepsRegistry opts -> New opts w0 = Done (p, w) -> built p w
| built_Bool (tgt : loc) (nm description : string) (p p' : Parser) (w w' : World) (v : flag) :
    built p w -> Parser_Bool tgt nm description p w = Done (v, p', w') -> built p' w'
| built_Int (tgt : loc) (nm description : string) (p p' : Parser) (w w' : World) (v : flag) :
    built p w -> Parser_Int tgt nm description p w = Done (v, p', w') -> built p' w'
| built_String (tgt : loc) (nm description : string) (p p' : Parser) (w w' : World)
               (v : flag) :
    built p w -> Parser_String tgt nm description p w = Done (v, p', w') -> built p' w'
| built_Env (envName : string) (v : flag) (p : Parser) (w w' : World) :
    built p w -> flag_Env envName v w = Done w' -> built p w'
| built_Placeholder (ph : string) (v : flag) (p : Parser) (w w' : World) :
    built p w -> flag_Placeholder ph v w = Done w' -> built p w'
| built_Required (v : flag) (p : Parser) (w w' : World) :
    built p w -> flag_Required v w = Done w' -> built p w'
| built_Default (t : ty) (val : denote t) (v : flag) (p : Parser) (w w' : World) :
    built p w -> flag_Default t val v w = Done w' -> built p w'
| built_parse (iter : list (string * flag)) (args : list string) (p : Parser) (w : World) :
    built p w -> built p (fst (parse p iter args w))
| built_printHelp (arg0 : string) (p : Parser) (w : World) :
    built p w -> built (fst (printHelp arg0 p w)) w.

(** The names of the allocated descriptors, by address. *)
Definition names (w : World) : list string := map descName (heap w).

Definition descWellConfigured (d : descriptor) : bool :=
  match d with desc _ f => wellConfigured f end.

(** The registry and the heap agree: the index maps each name to the
    descriptor of that name, every descriptor is in the index under its
    name, [p.flags] holds every descriptor once, and every descriptor
    satisfies the constraints of the builder methods. *)
Definition consistent (p : Parser) (w : World) : Prop :=
  (forall nm v, flagIndex p !! nm = Some v -> names w !! v = Some nm)
  /\ (forall v nm, names w !! v = Some nm -> flagIndex p !! nm = Some v)
  /\ flags p ≡ₚ seq 0 (List.length (names w))
  /\ Forall (fun d => descWellConfigured d = true) (heap w).

(** The descriptors [vs] have targets of their own: two of them that
    are different descriptors point to different variables. *)
Definition separate (w : World) (vs : list flag) : Prop :=
  forall u v du dv,
    u ∈ vs -> v ∈ vs -> u <> v ->
    heap w !! u = Some du -> heap w !! v = Some dv ->
    descTarget du <> descTarget dv.

(** The error the first loop of [parse] collects for [f]: that of the
    parse function on the value of the environment variable. *)
Definition seedError {t} (env : gmap string string) (f : Flag t) : option error :=
  match LookupEnv env (envVarName f) with
  | Some s => snd (parseFunc f s)
  | None => None
  end.

(** Two integer flags with defaults that share the target [&n]:
    [p.Int(&n, "low", ...).Default(1); p.Int(&n, "high", ...).Default(2)]. *)
Definition sharedTarget : Result (Parser * World) :=
  '(p, w) ← New [] (mkWorld ∅ ∅ []);
  '(v, p, w) ← Parser_Int (addr 0) "low" "Lower bound" p w;
  w ← flag_Default TInt 1 v w;
  '(v, p, w) ← Parser_Int (addr 0) "high" "Upper bound" p w;
  w ← flag_Default TInt 2 v w;
  Done (p, w).

Definition sharedParser : Parser :=
  parserOf [0; 1; 2]%nat
           (<["high" := 2%nat]> (<["low" := 1%nat]> (<["help" := 0%nat]> ∅))).

Definition sharedWorld : World :=
  mkWorld ∅ freshMemory
          [helpDescriptor;
           desc TInt (@mkFlag TInt (addr 0) false "low" "LOW" "Lower bound" "INT" 1 true false false
                             Atoi);
           desc TInt (@mkFlag TInt (addr 0) false "high" "HIGH" "Upper bound" "INT" 2 true false
                             false Atoi)].

(** The calls [p.set(name, value)] that the second loop of [parse] makes
    on the arguments, in order: which calls are made depends on the
    arguments alone, not on the registered flags.  The loop stops at the
    first argument without the marker and at the bare marker. *)
Fixpoint setCalls (args : list string) {struct args} : list (string * string) :=
  match args with
  | [] => []
  | arg :: args =>
      if negb (HasPrefix arg "--") then []
      else
        let arg := TrimPrefix arg "--" in
        if (arg =? EmptyString)%string then []
        else
          match Index arg "=" with
          | Some equalsIdx =>
              (sliceTo arg equalsIdx, sliceFrom arg (equalsIdx + 1)) :: setCalls args
          | None =>
              match args with
              | [] => [(arg, "true")]
              | next :: args' =>
                  if HasPrefix next "--" then (arg, "true") :: setCalls args
                  else (arg, next) :: setCalls args'
              end
          end
  end.

(** The value the command line leaves for the flag [n] with descriptor
    [f], given what the first loop left ([start]): that of the last call
    for [n] whose value the parse function accepts, if there is one. *)
Definition chosen {t} (f : Flag t) (n : string) (calls : list (string * string))
           (start : option (denote t)) : option (denote t) :=
  foldl (fun acc kv =>
           if (fst kv =? n)%string
           then match parseFunc f (snd kv) with
                | (x, None) => Some x
                | (_, Some _) => acc
                end
           else acc)
        start calls.

(** The descriptor [f] at [v] and its target are as they were in [w0]. *)
Definition kept (v : flag) {t} (f : Flag t) (w0 w : World) : Prop :=
  mem w !! target f = mem w0 !! target f /\ heap w !! v = Some (desc t f).

(** The target holds the value the sources gave, or is as it was when
    they gave none. *)
Definition settled (v : flag) {t} (f : Flag t) (w0 : World) (o : option (denote t))
           (w : World) : Prop :=
  match o with
  | Some x => resolved v f x w
  | None => kept v f w0 w
  end.

(** The first loop of [parse], over the entries of the index in the
    order [iter]. *)
Definition firstLoop (iter : list (string * flag)) (w : World) : World * list error :=
  foldl (fun st kv => seed (snd kv) st) (w, []) iter.

(** The text an error quotes is ASCII. *)
Fixpoint quotesASCII (e : error) : bool :=
  match e with
  | errorString _ => true
  | NumError _ Num Err => forallb isASCII (bytes Num) && quotesASCII Err
  end.

(** * Properties *)

(** ** The scenarios *)

Lemma requiredCount_state (env : gmap string string) :
  requiredCount env = Done (1%nat, countParser, countWorld env).
Proof. reflexivity. Qed.

Lemma portWithDefault_state (env : gmap string string) :
  portWithDefault env = Done (1%nat, portParser, portWorld env).
Proof. reflexivity. Qed.

Lemma twoRequired_state : twoRequired = Done (lettersParser, lettersWorld).
Proof. reflexivity. Qed.

(** ** Strings *)

Lemma HasPrefix_marker (s : string) : HasPrefix ("--" +:+ s) "--" = true.
Proof. destruct s; reflexivity. Qed.

Lemma TrimPrefix_marker (s : string) : TrimPrefix ("--" +:+ s) "--" = s.
Proof. unfold TrimPrefix. rewrite HasPrefix_marker. reflexivity. Qed.

Lemma prefix_byte (c a : ascii) (s : string) :
  String.prefix (String c EmptyString) (String a s) = if ascii_dec c a then true else false.
Proof. cbn [String.prefix]. destruct (ascii_dec c a); [destruct s|]; reflexivity. Qed.

Lemma append_empty (s : string) : EmptyString +:+ s = s.
Proof. reflexivity. Qed.

Lemma append_String (a : ascii) (s r : string) : String a s +:+ r = String a (s +:+ r).
Proof. reflexivity. Qed.

Lemma Index_equals_app (n c : string) :
  Index n "=" = None -> Index (n +:+ "=" +:+ c) "=" = Some (String.length n).
Proof.
  unfold Index. induction n as [|a n IH]; intros Hn.
  - rewrite !append_empty, append_String. cbn [String.index]. rewrite prefix_byte. reflexivity.
  - rewrite append_String. cbn [String.length].
    cbn [String.index] in Hn |- *.
    rewrite prefix_byte in Hn |- *.
    destruct (ascii_dec "=" a); [discriminate|].
    destruct (String.index 0 "=" n) eqn:Hi; [discriminate|].
    rewrite IH; reflexivity.
Qed.

Lemma sliceTo_app (n rest : string) : sliceTo (n +:+ rest) (String.length n) = n.
Proof.
  unfold sliceTo. induction n as [|a n IH].
  - rewrite append_empty. destruct rest; reflexivity.
  - rewrite append_String. cbn [String.length String.substring]. f_equal. exact IH.
Qed.

Lemma sliceFrom_app (n c : string) :
  sliceFrom (n +:+ "=" +:+ c) (String.length n + 1) = c.
Proof.
  unfold sliceFrom. induction n as [|a n IH].
  - reflexivity.
  - rewrite append_String. cbn [String.length Nat.add dropBytes]. exact IH.
Qed.

Lemma append_nonempty (n rest : string) : (n +:+ "=" +:+ rest =? EmptyString)%string = false.
Proof. destruct n; reflexivity. Qed.

(** ** strconv: the errors of the parse functions *)

Lemma atoiDigits_error (s0 s : string) (n v : Z) (e : error) :
  atoiDigits s0 s n = (v, Some e) -> e = syntaxError "Atoi" s0.
Proof.
  revert n. induction s as [|c s IH]; intros n; cbn [atoiDigits].
  - discriminate.
  - destruct (_ || _); [intros [= _ <-]; reflexivity | apply IH].
Qed.

Lemma ParseInt10_error (s : string) (v : Z) (e : error) :
  ParseInt10 s = (v, Some e) ->
  e = syntaxError "ParseInt" s \/ e = rangeError "ParseInt" s.
Proof.
  unfold ParseInt10. destruct s as [|c s]; [intros [= _ <-]; auto|].
  destruct (ParseUint10 _) as [un [e'|]].
  - destruct (negb (isRangeError e')); [intros [= _ <-]; auto|].
    destruct (Ascii.eqb c "-"); intros [= _ <-]; auto.
  - destruct (_ && _); [intros [= _ <-]; auto|].
    destruct (_ && _); [intros [= _ <-]; auto|discriminate].
Qed.

(** Every error of [Atoi] is a [NumError] of [Atoi] that records the
    input and one of the two reasons. *)
Lemma Atoi_error (s : string) (v : Z) (e : error) :
  Atoi s = (v, Some e) ->
  e = NumError "Atoi" s ErrSyntax \/ e = NumError "Atoi" s ErrRange.
Proof.
  unfold Atoi. destruct (_ && _).
  - destruct s as [|c s]; [intros [= _ <-]; auto|].
    destruct (_ && _); [intros [= _ <-]; auto|].
    destruct (atoiDigits _ _ _) as [n [e'|]] eqn:Hd; [|discriminate].
    intros [= _ <-]. left. exact (atoiDigits_error _ _ _ _ _ Hd).
  - destruct (ParseInt10 s) as [i64 [e'|]] eqn:Hp; [|discriminate].
    apply ParseInt10_error in Hp as [-> | ->]; intros [= _ <-]; auto.
Qed.

Lemma ParseBool_error (s : string) (v : bool) (e : error) :
  ParseBool s = (v, Some e) -> e = NumError "ParseBool" s ErrSyntax.
Proof.
  unfold ParseBool. destruct (_ || _); [discriminate|].
  destruct (_ || _); [discriminate|]. intros [= _ <-]. reflexivity.
Qed.

(** ** The descriptor *)

Lemma setValue_withSet {t} (f : Flag t) (val : denote t) (m : memory) :
  setValue f val m = (withSet true f, <[target f := box t val]> m).
Proof. reflexivity. Qed.

Lemma setValueFromString_ok {t} (f : Flag t) (s : string) (m : memory) (val : denote t) :
  parseFunc f s = (val, None) ->
  setValueFromString f s m = (withSet true f, <[target f := box t val]> m, None).
Proof. intros H. unfold setValueFromString. rewrite H. reflexivity. Qed.

Lemma setValueFromString_failed {t} (f : Flag t) (s : string) (m : memory)
      (val : denote t) (err : error) :
  parseFunc f s = (val, Some err) -> setValueFromString f s m = (f, m, Some err).
Proof. intros H. unfold setValueFromString. rewrite H. reflexivity. Qed.

Lemma World_eta (w : World) : mkWorld (environ w) (mem w) (heap w) = w.
Proof. destruct w; reflexivity. Qed.

Lemma flag_setValueFromString_failed {t} (f : Flag t) (s : string) (w : World) (v : flag)
      (val : denote t) (err : error) :
  heap w !! v = Some (desc t f) ->
  parseFunc f s = (val, Some err) ->
  flag_setValueFromString v s w = (w, Some err).
Proof.
  intros Hv Hp. unfold flag_setValueFromString. rewrite Hv.
  rewrite (setValueFromString_failed _ _ _ _ _ Hp).
  rewrite (list_insert_id _ _ _ Hv), World_eta. reflexivity.
Qed.

(** C6: [Placeholder] panics exactly on a boolean descriptor, [Default]
    exactly on a boolean or required one, [Required] exactly on a boolean
    one or one with a default; so a default after [Required] and
    [Required] after a default panic, every one of the three panics on a
    descriptor made by [NewBoolFlag], and on a fresh integer or string
    descriptor each succeeds and records what was configured. *)
Theorem configuration_panics (t : ty) (f : Flag t) (ph : string) (v : denote t) :
  panics (Placeholder f ph) = isBool f
  /\ panics (Default f v) = isBool f || required f
  /\ panics (Required f) = isBool f || defaultValueSet f
  /\ (forall f', Required f = Done f' -> panics (Default f' v) = true)
  /\ (forall f', Default f v = Done f' -> panics (Required f') = true)
  /\ (forall f', Placeholder f ph = Done f' -> placeholder f' = ph)
  /\ (forall f', Default f v = Done f' -> defaultValueSet f' = true /\ defaultValue f' = v)
  /\ (forall f', Required f = Done f' -> required f' = true)
  /\ (forall tgt nm help b,
        let g := NewBoolFlag tgt nm help in
        panics (Placeholder g ph) = true /\ panics (Default g b) = true
        /\ panics (Required g) = true)
  /\ (forall tgt nm help n,
        let g := NewIntFlag tgt nm help in
        panics (Placeholder g ph) = false /\ panics (Default g n) = false
        /\ panics (Required g) = false)
  /\ (forall tgt nm help s,
        let g := NewStringFlag tgt nm help in
        panics (Placeholder g ph) = false /\ panics (Default g s) = false
        /\ panics (Required g) = false).
Proof.
  unfold Placeholder, Default, Required.
  split; [destruct (isBool f); reflexivity|].
  split; [destruct (isBool f), (required f); reflexivity|].
  split; [destruct (isBool f), (defaultValueSet f); reflexivity|].
  split.
  { intros f'. destruct (isBool f) eqn:Hb; [discriminate|].
    destruct (defaultValueSet f); [discriminate|].
    intros [= <-]. reflexivity. }
  split.
  { intros f'. destruct (isBool f) eqn:Hb; [discriminate|].
    destruct (required f); [discriminate|].
    intros [= <-]. reflexivity. }
  split.
  { intros f'. destruct (isBool f); [discriminate|]. intros [= <-]. reflexivity. }
  split.
  { intros f'. destruct (isBool f); [discriminate|]. destruct (required f); [discriminate|].
    intros [= <-]. split; reflexivity. }
  split.
  { intros f'. destruct (isBool f); [discriminate|].
    destruct (defaultValueSet f); [discriminate|]. intros [= <-]. reflexivity. }
  repeat split; reflexivity.
Qed.

(** C7: when [parseFunc] rejects the string, [setValueFromString] returns
    the descriptor and the memory it was given, so neither the target nor
    the field [set] changes; called through the interface it returns the
    whole state unchanged. *)
Theorem setValueFromString_rejected_untouched
        (t : ty) (f : Flag t) (s : string) (val : denote t) (err : error) :
  parseFunc f s = (val, Some err) ->
  (forall m : memory,
      fst (setValueFromString f s m) = (f, m)
      /\ set (fst (fst (setValueFromString f s m))) = set f
      /\ snd (fst (setValueFromString f s m)) !! target f = m !! target f)
  /\ (forall (w : World) (v : flag),
        heap w !! v = Some (desc t f) -> fst (flag_setValueFromString v s w) = w).
Proof.
  intros Hp. split.
  - intros m. rewrite (setValueFromString_failed _ _ _ _ _ Hp). auto.
  - intros w v Hv. rewrite (flag_setValueFromString_failed _ _ _ _ _ _ Hv Hp). reflexivity.
Qed.

Lemma setValueFromString_rejected_untouched_witness :
  let f := NewIntFlag (addr 0) "count" "Number of items" in
  let w := mkWorld ∅ (<[addr 0 := VInt 7]> ∅) [desc TInt f] in
  parseFunc f "abc" = (0, Some (NumError "Atoi" "abc" ErrSyntax))
  /\ fst (setValueFromString f "abc" (mem w)) = (f, mem w)
  /\ fst (flag_setValueFromString 0%nat "abc" w) = w.
Proof.
  split; [reflexivity|].
  destruct (setValueFromString_rejected_untouched
              TInt (NewIntFlag (addr 0) "count" "Number of items") "abc" 0
              (NumError "Atoi" "abc" ErrSyntax) eq_refl) as [Hflag Hworld].
  split.
  - apply Hflag.
  - apply Hworld. reflexivity.
Defined.

Lemma setValueFromEnv_lookup {t} (env : gmap string string) (f : Flag t) (m : memory)
      (s : string) :
  LookupEnv env (envVarName f) = Some s ->
  setValueFromEnv env f m = setValueFromString f s m.
Proof. intros H. unfold setValueFromEnv. rewrite H. reflexivity. Qed.

Lemma setValueFromEnv_absent {t} (env : gmap string string) (f : Flag t) (m : memory) :
  LookupEnv env (envVarName f) = None -> setValueFromEnv env f m = (f, m, None).
Proof. intros H. unfold setValueFromEnv. rewrite H. reflexivity. Qed.

Lemma Parser_set_known (p : Parser) (nm val : string) (w : World) (v : flag) :
  flagIndex p !! nm = Some v -> Parser_set p nm val w = flag_setValueFromString v val w.
Proof. intros H. unfold Parser_set. rewrite H. reflexivity. Qed.

Lemma Parser_set_unknown (p : Parser) (nm val : string) (w : World) :
  flagIndex p !! nm = None ->
  Parser_set p nm val w = (w, Some (Errorf "unknown flag: --" nm)).
Proof. intros H. unfold Parser_set. rewrite H. reflexivity. Qed.

(** C2, on the code: the error of a rejected string is the error of
    [strconv.Atoi], which quotes the raw text and does not name the flag.
    The scenario of the specification (required integer flag [count],
    [COUNT=abc], no arguments) yields that one error. *)
Lemma setValueFromString_error_omits_name :
  let f := NewIntFlag (addr 0) "count" "Number of items" in
  let err := NumError "Atoi" "abc" ErrSyntax in
  snd (setValueFromString f "abc" ∅) = Some err
  /\ Error err = "strconv.Atoi: parsing " +:+ Quote "abc" +:+ ": invalid syntax"
  /\ Contains (Error err) "abc" = true
  /\ Contains (Error err) (name f) = false
  /\ exists v p w,
      requiredCount {[ "COUNT" := "abc" ]} = Done (v, p, w)
      /\ flag_getName w v = "count"
      /\ snd (parse p (map_to_list (flagIndex p)) [] w) = [err].
Proof.
  repeat split; try reflexivity.
  exists 1%nat, countParser, (countWorld {[ "COUNT" := "abc" ]}).
  split; [apply requiredCount_state|].
  split; [reflexivity|]. vm_compute. reflexivity.
Qed.

(** C2, amended: [setValueFromString] returns the error of [parseFunc]
    as it is, whether the string comes from the command line ([set]) or
    from the environment, and the same for every descriptor with that
    parse function, whatever its name; for the integer and boolean
    descriptors it is a [strconv.NumError] that records the raw text,
    and a string descriptor rejects nothing. *)
Theorem setValueFromString_returns_parse_error
        (t : ty) (f : Flag t) (s : string) (val : denote t) (err : error) :
  parseFunc f s = (val, Some err) ->
  (forall m, snd (setValueFromString f s m) = Some err)
  /\ (forall (g : Flag t) m,
        parseFunc g = parseFunc f -> snd (setValueFromString g s m) = Some err)
  /\ (forall env m,
        LookupEnv env (envVarName f) = Some s -> snd (setValueFromEnv env f m) = Some err)
  /\ (forall p nm v w,
        flagIndex p !! nm = Some v -> heap w !! v = Some (desc t f) ->
        snd (Parser_set p nm s w) = Some err)
  /\ (forall tgt nm help m e,
        snd (setValueFromString (NewIntFlag tgt nm help) s m) = Some e ->
        e = NumError "Atoi" s ErrSyntax \/ e = NumError "Atoi" s ErrRange)
  /\ (forall tgt nm help m e,
        snd (setValueFromString (NewBoolFlag tgt nm help) s m) = Some e ->
        e = NumError "ParseBool" s ErrSyntax)
  /\ (forall tgt nm help m,
        snd (setValueFromString (NewStringFlag tgt nm help) s m) = None).
Proof.
  intros Hp.
  split. { intros m. rewrite (setValueFromString_failed _ _ _ _ _ Hp). reflexivity. }
  split.
  { intros g m Hg. rewrite (setValueFromString_failed g s m val err); [reflexivity|].
    rewrite Hg. exact Hp. }
  split.
  { intros env m He. rewrite (setValueFromEnv_lookup _ _ _ _ He).
    rewrite (setValueFromString_failed _ _ _ _ _ Hp). reflexivity. }
  split.
  { intros p nm v w Hi Hv. rewrite (Parser_set_known _ _ _ _ _ Hi).
    rewrite (flag_setValueFromString_failed _ _ _ _ _ _ Hv Hp). reflexivity. }
  split.
  { intros tgt nm help m e. unfold setValueFromString. cbn [parseFunc NewIntFlag].
    destruct (Atoi s) as [n [e'|]] eqn:Ha; [|discriminate].
    intros [= <-]. exact (Atoi_error _ _ _ Ha). }
  split.
  { intros tgt nm help m e. unfold setValueFromString. cbn [parseFunc NewBoolFlag].
    destruct (ParseBool s) as [n [e'|]] eqn:Ha; [|discriminate].
    intros [= <-]. exact (ParseBool_error _ _ _ Ha). }
  reflexivity.
Qed.

Lemma setValueFromString_returns_parse_error_witness :
  let f := NewIntFlag (addr 0) "count" "Number of items" in
  parseFunc f "abc" = (0, Some (NumError "Atoi" "abc" ErrSyntax))
  /\ snd (setValueFromString f "abc" ∅) = Some (NumError "Atoi" "abc" ErrSyntax).
Proof.
  split; [reflexivity|].
  destruct (setValueFromString_returns_parse_error
              TInt (NewIntFlag (addr 0) "count" "Number of items") "abc" 0
              (NumError "Atoi" "abc" ErrSyntax) eq_refl) as [Hsame _].
  apply Hsame.
Defined.

(** ** Calls through the interface *)

Lemma desc_inj {t} (f g : Flag t) : desc t f = desc t g -> f = g.
Proof.
  intros H. inversion H as [H1].
  apply (Eqdep_dec.inj_pair2_eq_dec ty) in H1; [exact H1|].
  intros x y. destruct (decide (x = y)); [left|right]; assumption.
Qed.

Lemma withSet_withSet {t} (b c : bool) (f : Flag t) : withSet b (withSet c f) = withSet b f.
Proof. reflexivity. Qed.

Lemma withSet_set {t} (f : Flag t) : withSet (set f) f = f.
Proof. destruct f; reflexivity. Qed.

Lemma holds_here (w : World) (v : flag) {t} (f : Flag t) :
  heap w !! v = Some (desc t f) -> holds w v f.
Proof. intros H. exists (set f). rewrite withSet_set. exact H. Qed.

Lemma untouched_state (w : World) (v : flag) (d : descriptor) :
  heap w !! v = Some d -> mkWorld (environ w) (mem w) (<[v := d]> (heap w)) = w.
Proof. intros H. rewrite (list_insert_id _ _ _ H). apply World_eta. Qed.

Lemma flag_setValueFromDefault_touched (v : flag) (w : World) :
  touched v w (flag_setValueFromDefault v w).
Proof.
  unfold flag_setValueFromDefault.
  destruct (heap w !! v) as [[t f]|] eqn:Hv; [|constructor].
  unfold setValueFromDefault. destruct (defaultValueSet f).
  - rewrite setValue_withSet. econstructor. exact Hv.
  - rewrite (untouched_state _ _ _ Hv). constructor.
Qed.

Lemma flag_setValueFromString_touched (v : flag) (s : string) (w : World) :
  touched v w (fst (flag_setValueFromString v s w)).
Proof.
  unfold flag_setValueFromString.
  destruct (heap w !! v) as [[t f]|] eqn:Hv; [|constructor].
  unfold setValueFromString. destruct (parseFunc f s) as [val [err|]].
  - cbn. rewrite (untouched_state _ _ _ Hv). constructor.
  - rewrite setValue_withSet. cbn. econstructor. exact Hv.
Qed.

Lemma flag_setValueFromEnv_touched (v : flag) (w : World) :
  touched v w (fst (flag_setValueFromEnv v w)).
Proof.
  unfold flag_setValueFromEnv.
  destruct (heap w !! v) as [[t f]|] eqn:Hv; [|constructor].
  unfold setValueFromEnv. destruct (LookupEnv _ _) as [s|].
  - unfold setValueFromString. destruct (parseFunc f s) as [val [err|]].
    + cbn. rewrite (untouched_state _ _ _ Hv). constructor.
    + rewrite setValue_withSet. cbn. econstructor. exact Hv.
  - cbn. rewrite (untouched_state _ _ _ Hv). constructor.
Qed.

Lemma Parser_set_touched (p : Parser) (nm val : string) (w : World) :
  fst (Parser_set p nm val w) = w
  \/ exists v, flagIndex p !! nm = Some v /\ touched v w (fst (Parser_set p nm val w)).
Proof.
  unfold Parser_set. destruct (flagIndex p !! nm) as [v|]; [right|left; reflexivity].
  exists v. split; [reflexivity|]. apply flag_setValueFromString_touched.
Qed.

(** *** What a call preserves *)

Lemma touched_environ (u : flag) (w w' : World) : touched u w w' -> environ w' = environ w.
Proof. intros []; reflexivity. Qed.

Lemma touched_other (u v : flag) (w w' : World) :
  touched u w w' -> u <> v -> heap w' !! v = heap w !! v.
Proof.
  intros [] Hne; [reflexivity|]. cbn. apply list_lookup_insert_ne. exact Hne.
Qed.

Lemma touched_target (u : flag) (w w' : World) (v : flag) :
  touched u w w' -> descTarget <$> heap w' !! v = descTarget <$> heap w !! v.
Proof.
  intros [|t f val Hu]; [reflexivity|]. cbn.
  destruct (decide (u = v)) as [->|Hne].
  - rewrite list_lookup_insert_eq by (eapply lookup_lt_Some; exact Hu).
    rewrite Hu. reflexivity.
  - rewrite list_lookup_insert_ne by exact Hne. reflexivity.
Qed.

Lemma touched_holds (u : flag) (w w' : World) (v : flag) {t} (f : Flag t) :
  touched u w w' -> holds w v f -> holds w' v f.
Proof.
  intros [|t0 f0 val Hu] [b Hb]; [exists b; exact Hb|].
  destruct (decide (u = v)) as [->|Hne].
  - assert (Hd : desc t (withSet b f) = desc t0 f0) by congruence.
    assert (Ht : t = t0) by (inversion Hd; reflexivity). subst t0.
    apply desc_inj in Hd. subst f0. exists true. cbn.
    apply list_lookup_insert_eq. eapply lookup_lt_Some. exact Hb.
  - exists b. cbn. rewrite list_lookup_insert_ne by exact Hne. exact Hb.
Qed.

Lemma touched_exclusive (u : flag) (p : Parser) (w w' : World) (v : flag) {t} (f : Flag t) :
  touched u w w' -> exclusive p w v f -> exclusive p w' v f.
Proof.
  intros Ht Hex nm u' d Hi Hne Hd.
  pose proof (touched_target u w w' u' Ht) as Hsame. rewrite Hd in Hsame. cbn in Hsame.
  destruct (heap w !! u') as [d0|] eqn:Hd0; [|discriminate].
  injection Hsame as ->. exact (Hex nm u' d0 Hi Hne Hd0).
Qed.

(** A call on another registered descriptor leaves the target of [f]. *)
Lemma touched_mem_other (u : flag) (p : Parser) (w w' : World) (v : flag) {t} (f : Flag t)
      (nm : string) :
  touched u w w' -> flagIndex p !! nm = Some u -> u <> v -> exclusive p w v f ->
  mem w' !! target f = mem w !! target f.
Proof.
  intros [|t0 f0 val Hu] Hi Hne Hex; [reflexivity|]. cbn.
  apply lookup_insert_ne. exact (Hex nm u _ Hi Hne Hu).
Qed.

(** The field [set] of a descriptor never goes back to false. *)
Lemma touched_isSet (u : flag) (w w' : World) (v : flag) :
  touched u w w' -> flag_isSet w v = true -> flag_isSet w' v = true.
Proof.
  intros [|t f val Hu]; [trivial|]. unfold flag_isSet. cbn.
  destruct (decide (u = v)) as [->|Hne].
  - rewrite list_lookup_insert_eq by (eapply lookup_lt_Some; exact Hu). reflexivity.
  - rewrite list_lookup_insert_ne by exact Hne. trivial.
Qed.

(** ** The tokenizer, token by token *)

Lemma nonempty_eqb (n : string) : n <> EmptyString -> (n =? EmptyString)%string = false.
Proof. intros H. destruct n; [contradiction|reflexivity]. Qed.

Lemma collect_app (errs : list error) (err : option error) :
  collect errs err = errs ++ collect [] err.
Proof. destruct err; cbn; [reflexivity|]. symmetry. apply app_nil_r. Qed.

Lemma tokenize_stray (p : Parser) (arg : string) (rest : list string) (w : World)
      (errs : list error) :
  HasPrefix arg "--" = false ->
  tokenize p (arg :: rest) w errs = (w, errs ++ [Errorf "unexpected argument: " arg]).
Proof. intros H. cbn [tokenize]. rewrite H. reflexivity. Qed.

Lemma tokenize_end (p : Parser) (w : World) (errs : list error) :
  tokenize p ["--"] w errs = (w, errs).
Proof. reflexivity. Qed.

Lemma tokenize_trailing (p : Parser) (x : string) (rest : list string) (w : World)
      (errs : list error) :
  tokenize p ("--" :: x :: rest) w errs
  = (w, errs ++ [Errorf "unexpected arguments: " (Join (x :: rest) " ")]).
Proof. reflexivity. Qed.

Lemma tokenize_assign (p : Parser) (n c : string) (rest : list string) (w : World)
      (errs : list error) :
  Index n "=" = None ->
  tokenize p (("--" +:+ n +:+ "=" +:+ c) :: rest) w errs
  = tokenize p rest (fst (Parser_set p n c w)) (collect errs (snd (Parser_set p n c w))).
Proof.
  intros Hn. cbn [tokenize].
  rewrite HasPrefix_marker, TrimPrefix_marker, append_nonempty. cbn [negb].
  rewrite (Index_equals_app n c Hn), sliceTo_app, sliceFrom_app.
  destruct (Parser_set p n c w). reflexivity.
Qed.

Lemma tokenize_toggle_last (p : Parser) (n : string) (w : World) (errs : list error) :
  n <> EmptyString -> Index n "=" = None ->
  tokenize p ["--" +:+ n] w errs
  = (fst (Parser_set p n "true" w), collect errs (snd (Parser_set p n "true" w))).
Proof.
  intros Hne Hn. cbn [tokenize].
  rewrite HasPrefix_marker, TrimPrefix_marker, (nonempty_eqb n Hne), Hn. cbn [negb].
  destruct (Parser_set p n "true" w). reflexivity.
Qed.

(** The body of the loop when a token follows the one at the head. *)
Lemma tokenize_followed (p : Parser) (arg next : string) (rest : list string) (w : World)
      (errs : list error) :
  tokenize p (arg :: next :: rest) w errs
  = if negb (HasPrefix arg "--") then (w, errs ++ [Errorf "unexpected argument: " arg])
    else
      if (TrimPrefix arg "--" =? EmptyString)%string then
        (w, errs ++ [Errorf "unexpected arguments: " (Join (next :: rest) " ")])
      else
        match Index (TrimPrefix arg "--") "=" with
        | Some equalsIdx =>
            let '(w', err) :=
              Parser_set p (sliceTo (TrimPrefix arg "--") equalsIdx)
                         (sliceFrom (TrimPrefix arg "--") (equalsIdx + 1)) w in
            tokenize p (next :: rest) w' (collect errs err)
        | None =>
            if HasPrefix next "--" then
              let '(w', err) := Parser_set p (TrimPrefix arg "--") "true" w in
              tokenize p (next :: rest) w' (collect errs err)
            else
              let '(w', err) := Parser_set p (TrimPrefix arg "--") next w in
              tokenize p rest w' (collect errs err)
        end.
Proof. reflexivity. Qed.

Lemma tokenize_toggle_next (p : Parser) (n next : string) (rest : list string) (w : World)
      (errs : list error) :
  n <> EmptyString -> Index n "=" = None -> HasPrefix next "--" = true ->
  tokenize p (("--" +:+ n) :: next :: rest) w errs
  = tokenize p (next :: rest) (fst (Parser_set p n "true" w))
             (collect errs (snd (Parser_set p n "true" w))).
Proof.
  intros Hne Hn Hnext. rewrite tokenize_followed.
  rewrite HasPrefix_marker, TrimPrefix_marker, (nonempty_eqb n Hne), Hn, Hnext. cbn [negb].
  destruct (Parser_set p n "true" w). reflexivity.
Qed.

Lemma tokenize_pair (p : Parser) (n next : string) (rest : list string) (w : World)
      (errs : list error) :
  n <> EmptyString -> Index n "=" = None -> HasPrefix next "--" = false ->
  tokenize p (("--" +:+ n) :: next :: rest) w errs
  = tokenize p rest (fst (Parser_set p n next w)) (collect errs (snd (Parser_set p n next w))).
Proof.
  intros Hne Hn Hnext. rewrite tokenize_followed.
  rewrite HasPrefix_marker, TrimPrefix_marker, (nonempty_eqb n Hne), Hn, Hnext. cbn [negb].
  destruct (Parser_set p n next w). reflexivity.
Qed.

(** A property of the state that every call of [set] preserves holds
    after the loop, however many tokens it consumes. *)
Lemma tokenize_invariant (p : Parser) (I : World -> Prop) :
  (forall nm val w, I w -> I (fst (Parser_set p nm val w))) ->
  forall args w errs, I w -> I (fst (tokenize p args w errs)).
Proof.
  intros Hset args.
  induction args as [args IH] using (induction_ltof1 _ (@List.length string)).
  unfold ltof in IH. intros w errs Hw.
  destruct args as [|arg [|next rest]].
  - exact Hw.
  - cbn [tokenize]. destruct (negb _); [exact Hw|].
    destruct (_ =? _)%string; [exact Hw|].
    destruct (Index _ _).
    + destruct (Parser_set p _ _ w) as [w' err] eqn:Hs. cbn.
      change w' with (fst (w', err)). rewrite <- Hs. apply Hset, Hw.
    + destruct (Parser_set p _ _ w) as [w' err] eqn:Hs. cbn.
      change w' with (fst (w', err)). rewrite <- Hs. apply Hset, Hw.
  - rewrite tokenize_followed. destruct (negb _); [exact Hw|].
    destruct (_ =? _)%string; [exact Hw|].
    destruct (Index _ _); [|destruct (HasPrefix next _)].
    all: destruct (Parser_set p _ _ w) as [w' err] eqn:Hs.
    all: apply IH; [cbn; lia|].
    all: change w' with (fst (w', err)); rewrite <- Hs; apply Hset, Hw.
Qed.

Lemma seed_invariant (I : World -> Prop) (v : flag) :
  (forall w w', touched v w w' -> I w -> I w') ->
  forall w errs, I w -> I (fst (seed v (w, errs))).
Proof.
  intros Ht w errs Hw. unfold seed.
  destruct (flag_setValueFromEnv v (flag_setValueFromDefault v w)) as [w' err] eqn:He.
  cbn. change w' with (fst (w', err)). rewrite <- He.
  eapply Ht; [apply flag_setValueFromEnv_touched|].
  eapply Ht; [apply flag_setValueFromDefault_touched|]. exact Hw.
Qed.

(** A property that every call on a descriptor among [R] preserves
    holds after [parse], when [R] covers the registered descriptors. *)
Lemma parse_invariant (p : Parser) (iter : list (string * flag)) (R : flag -> Prop)
      (I : World -> Prop) :
  (forall k u, (k, u) ∈ iter -> R u) ->
  (forall nm u, flagIndex p !! nm = Some u -> R u) ->
  (forall u w w', R u -> touched u w w' -> I w -> I w') ->
  forall args w, I w -> I (fst (parse p iter args w)).
Proof.
  intros Hiter Hindex Ht args w Hw. unfold parse.
  assert (Hseed : forall errs, I (fst (foldl (fun st kv => seed (snd kv) st) (w, errs) iter))).
  { revert w Hw. induction iter as [|[k u] iter IH]; intros w Hw errs; [exact Hw|].
    cbn [foldl snd].
    destruct (seed u (w, errs)) as [w1 errs1] eqn:Hs.
    apply IH.
    - intros k' u' Hin. apply (Hiter k'). right. exact Hin.
    - change w1 with (fst (w1, errs1)). rewrite <- Hs.
      apply seed_invariant; [|exact Hw].
      intros x y. apply Ht. apply (Hiter k). left. }
  specialize (Hseed []).
  destruct (foldl _ _ iter) as [w1 errs1]. cbn in Hseed.
  apply tokenize_invariant; [|exact Hseed].
  intros nm val w2 Hw2.
  destruct (Parser_set_touched p nm val w2) as [-> | (u & Hu & Htouched)]; [exact Hw2|].
  exact (Ht u _ _ (Hindex nm u Hu) Htouched Hw2).
Qed.

(** ** The field [set] *)

Lemma call_set {t} (env : gmap string string) (c : method t) (f f' : Flag t) (m m' : memory) :
  call env c f m = Done (f', m') ->
  set f' = set f || wrote env c f
  /\ m' = match written env c f with
          | Some val => <[target f := box t val]> m
          | None => m
          end.
Proof.
  unfold wrote.
  destruct c; cbn [call written].
  - intros [= <- <-]. rewrite orb_false_r. split; reflexivity.
  - unfold Placeholder. destruct (isBool f); [discriminate|].
    intros [= <- <-]. rewrite orb_false_r. split; reflexivity.
  - unfold Default. destruct (isBool f); [discriminate|]. destruct (required f); [discriminate|].
    intros [= <- <-]. rewrite orb_false_r. split; reflexivity.
  - unfold Required. destruct (isBool f); [discriminate|].
    destruct (defaultValueSet f); [discriminate|].
    intros [= <- <-]. rewrite orb_false_r. split; reflexivity.
  - intros [= <- <-]. rewrite orb_true_r. split; reflexivity.
  - unfold setValueFromString. destruct (parseFunc f s) as [val [err|]]; intros [= <- <-].
    + rewrite orb_false_r. split; reflexivity.
    + rewrite orb_true_r. split; reflexivity.
  - unfold setValueFromEnv. destruct (LookupEnv env (envVarName f)) as [s|].
    + unfold setValueFromString. destruct (parseFunc f s) as [val [err|]]; intros [= <- <-].
      * rewrite orb_false_r. split; reflexivity.
      * rewrite orb_true_r. split; reflexivity.
    + intros [= <- <-]. rewrite orb_false_r. split; reflexivity.
  - unfold setValueFromDefault. destruct (defaultValueSet f); intros [= <- <-].
    + rewrite orb_true_r. split; reflexivity.
    + rewrite orb_false_r. split; reflexivity.
Qed.

Lemma calls_set {t} (env : gmap string string) (cs : list (method t)) (f f' : Flag t)
      (m m' : memory) :
  calls env cs f m = Done (f', m') -> set f = true -> set f' = true.
Proof.
  revert f m. induction cs as [|c cs IH]; intros f m; cbn [calls].
  - intros [= <- <-]. trivial.
  - destruct (call env c f m) as [[f1 m1]|] eqn:Hc; [|discriminate].
    intros Hcs Hset. apply (IH f1 m1 Hcs).
    destruct (call_set env c f f1 m m1 Hc) as [-> _]. rewrite Hset. reflexivity.
Qed.

Lemma flag_configure_isSet (g : forall t, Flag t -> Result (Flag t)) (v : flag) (w w' : World) :
  (forall t f f', g t f = Done f' -> set f' = set f) ->
  flag_configure g v w = Done w' -> forall u, flag_isSet w' u = flag_isSet w u.
Proof.
  intros Hg. unfold flag_configure.
  destruct (heap w !! v) as [[t f]|] eqn:Hv; [|discriminate].
  destruct (g t f) as [f'|] eqn:Hf; [|discriminate].
  intros [= <-] u. unfold flag_isSet. cbn.
  destruct (decide (v = u)) as [->|Hne].
  - rewrite list_lookup_insert_eq by (eapply lookup_lt_Some; exact Hv).
    rewrite Hv. exact (Hg t f f' Hf).
  - rewrite list_lookup_insert_ne by exact Hne. reflexivity.
Qed.

Lemma alloc_lookup (d : descriptor) (w : World) (u : flag) (d0 : descriptor) :
  heap w !! u = Some d0 -> heap (snd (alloc d w)) !! u = Some d0.
Proof. intros H. cbn. apply lookup_app_l_Some. exact H. Qed.

Lemma registerNew_lookup {t} (f : Flag t) (nm : string) (p p' : Parser) (w w' : World)
      (v u : flag) (d : descriptor) :
  registerNew f nm p w = Done (v, p', w') ->
  heap w !! u = Some d -> heap w' !! u = Some d.
Proof.
  unfold registerNew. cbn [alloc].
  destruct (registerFlag p nm _) as [p1|]; [|discriminate].
  intros H Hu.
  assert (Hlt : (u < List.length (heap w))%nat) by (eapply lookup_lt_Some; exact Hu).
  destruct (autoEnv p1).
  - unfold flag_Env, flag_configure in H. cbn in H.
    rewrite lookup_app_r in H by lia. rewrite Nat.sub_diag in H. cbn in H.
    injection H as <- <- <-. cbn.
    rewrite list_lookup_insert_ne by lia. apply lookup_app_l_Some. exact Hu.
  - injection H as <- <- <-. cbn. apply lookup_app_l_Some. exact Hu.
Qed.

(** C8: a new descriptor is not set; a call of a method leaves [set]
    true if it was and makes it true exactly when the call writes a
    value into the target (from the default, the environment or a
    string), failed parses and the builder methods included; so no
    sequence of calls, no resolution pass, no registration and no
    builder call through a pointer takes a descriptor from set back to
    unset. *)
Theorem set_monotone :
  (forall tgt nm help,
      set (NewBoolFlag tgt nm help) = false /\ set (NewIntFlag tgt nm help) = false
      /\ set (NewStringFlag tgt nm help) = false)
  /\ (forall t env (c : method t) (f f' : Flag t) (m m' : memory),
        call env c f m = Done (f', m') ->
        set f' = set f || wrote env c f
        /\ m' = match written env c f with
                | Some val => <[target f := box t val]> m
                | None => m
                end)
  /\ (forall t env (cs : list (method t)) (f f' : Flag t) (m m' : memory),
        calls env cs f m = Done (f', m') -> set f = true -> set f' = true)
  /\ (forall p iter args w v,
        flag_isSet w v = true -> flag_isSet (fst (parse p iter args w)) v = true)
  /\ (forall t (f : Flag t) nm p p' w w' v u,
        registerNew f nm p w = Done (v, p', w') ->
        flag_isSet w u = true -> flag_isSet w' u = true)
  /\ (forall v w w' u envName ph t (val : denote t),
        flag_Env envName v w = Done w' \/ flag_Placeholder ph v w = Done w'
        \/ flag_Required v w = Done w' \/ flag_Default t val v w = Done w' ->
        flag_isSet w' u = flag_isSet w u).
Proof.
  split; [intros; repeat split; reflexivity|].
  split; [intros t env c f f' m m'; apply call_set|].
  split; [intros t env cs f f' m m'; apply calls_set|].
  split.
  { intros p iter args w v.
    apply (parse_invariant p iter (fun _ => True) (fun w' => flag_isSet w' v = true)); auto.
    intros u w1 w2 _ Ht. exact (touched_isSet u w1 w2 v Ht). }
  split.
  { intros t f nm p p' w w' v u Hreg. unfold flag_isSet.
    destruct (heap w !! u) as [d|] eqn:Hu; [|discriminate].
    rewrite (registerNew_lookup f nm p p' w w' v u d Hreg Hu). trivial. }
  intros v w w' u envName ph t val [H|[H|[H|H]]];
    (eapply flag_configure_isSet; [|exact H]); intros t0 f f'.
  - intros [= <-]. reflexivity.
  - unfold Placeholder. destruct (isBool f); [discriminate|]. intros [= <-]. reflexivity.
  - unfold Required. destruct (isBool f); [discriminate|].
    destruct (defaultValueSet f); [discriminate|]. intros [= <-]. reflexivity.
  - cbv beta. destruct (castValue t t0 val) as [val'|]; [|intros Hx; discriminate Hx].
    unfold Default. destruct (isBool f); [discriminate|].
    destruct (required f); [discriminate|]. intros [= <-]. reflexivity.
Qed.

(** ** The tokenizer: what halts it and what does not *)

Lemma setStep_eq (p : Parser) (w : World) (errs : list error) (nm val : string) :
  setStep p (w, errs) nm val
  = (fst (Parser_set p nm val w), collect errs (snd (Parser_set p nm val w))).
Proof. unfold setStep. cbn [fst snd]. destruct (Parser_set p nm val w). reflexivity. Qed.

Lemma setStep_unknown (p : Parser) (w : World) (errs : list error) (nm val : string) :
  flagIndex p !! nm = None ->
  setStep p (w, errs) nm val = (w, errs ++ [Errorf "unknown flag: --" nm]).
Proof. intros H. rewrite setStep_eq, (Parser_set_unknown _ _ _ _ H). reflexivity. Qed.

Lemma setStep_rejected (p : Parser) (w : World) (errs : list error) (nm s : string)
      (v : flag) {t} (f : Flag t) (val : denote t) (e : error) :
  flagIndex p !! nm = Some v -> heap w !! v = Some (desc t f) ->
  parseFunc f s = (val, Some e) ->
  setStep p (w, errs) nm s = (w, errs ++ [e]).
Proof.
  intros Hi Hv Hp. rewrite setStep_eq, (Parser_set_known _ _ _ _ _ Hi).
  rewrite (flag_setValueFromString_failed _ _ _ _ _ _ Hv Hp). reflexivity.
Qed.

Lemma tokenize_assignments (p : Parser) (kvs : list (string * string)) (rest : list string)
      (w : World) (errs : list error) :
  Forall (fun kv => Index (fst kv) "=" = None) kvs ->
  tokenize p (map assignment kvs ++ rest) w errs
  = tokenize p rest (fst (foldl (fun st kv => setStep p st (fst kv) (snd kv)) (w, errs) kvs))
             (snd (foldl (fun st kv => setStep p st (fst kv) (snd kv)) (w, errs) kvs)).
Proof.
  intros Hall. revert w errs.
  induction Hall as [|[n c] kvs Hn _ IH]; intros w errs; [reflexivity|].
  cbn [map app foldl fst snd]. unfold assignment at 1. cbn [fst snd] in Hn |- *.
  rewrite (tokenize_assign _ _ _ _ _ _ Hn), IH, setStep_eq. reflexivity.
Qed.

(** C4: a token without the marker, and any token after a bare [--],
    end the loop at once with exactly one more error and the state as it
    was, whatever tokens follow; a bare [--] at the end ends it without
    an error. After a flag token the loop goes on with the tokens that
    follow, whatever [set] returned: an unknown flag and a rejected
    value each leave the state, append their one error and do not stop
    the scan, so a whole line of assignments is scanned to its end. *)
Theorem tokenize_halts_on_grammar_only
        (p : Parser) (w : World) (errs : list error) (rest : list string) :
  (forall arg,
      HasPrefix arg "--" = false ->
      tokenize p (arg :: rest) w errs = (w, errs ++ [Errorf "unexpected argument: " arg])
      /\ tokenize p (arg :: rest) w errs = tokenize p [arg] w errs)
  /\ (forall x,
        tokenize p ("--" :: x :: rest) w errs
        = (w, errs ++ [Errorf "unexpected arguments: " (Join (x :: rest) " ")]))
  /\ tokenize p ["--"] w errs = (w, errs)
  /\ (forall n c,
        Index n "=" = None ->
        tokenize p (assignment (n, c) :: rest) w errs
        = tokenize p rest (fst (setStep p (w, errs) n c)) (snd (setStep p (w, errs) n c)))
  /\ (forall n next,
        (n =? EmptyString)%string = false -> Index n "=" = None ->
        tokenize p (("--" +:+ n) :: next :: rest) w errs
        = if HasPrefix next "--"
          then tokenize p (next :: rest) (fst (setStep p (w, errs) n "true"))
                        (snd (setStep p (w, errs) n "true"))
          else tokenize p rest (fst (setStep p (w, errs) n next))
                        (snd (setStep p (w, errs) n next)))
  /\ (forall n val,
        flagIndex p !! n = None ->
        setStep p (w, errs) n val = (w, errs ++ [Errorf "unknown flag: --" n]))
  /\ (forall n s v t (f : Flag t) val e,
        flagIndex p !! n = Some v -> heap w !! v = Some (desc t f) ->
        parseFunc f s = (val, Some e) ->
        setStep p (w, errs) n s = (w, errs ++ [e]))
  /\ (forall kvs,
        Forall (fun kv => Index (fst kv) "=" = None) kvs ->
        tokenize p (map assignment kvs ++ rest) w errs
        = tokenize p rest
            (fst (foldl (fun st kv => setStep p st (fst kv) (snd kv)) (w, errs) kvs))
            (snd (foldl (fun st kv => setStep p st (fst kv) (snd kv)) (w, errs) kvs))).
Proof.
  split.
  { intros arg H. rewrite !(tokenize_stray _ _ _ _ _ H). split; reflexivity. }
  split; [intros x; apply tokenize_trailing|].
  split; [apply tokenize_end|].
  split.
  { intros n c Hn. unfold assignment. cbn [fst snd].
    rewrite (tokenize_assign _ _ _ _ _ _ Hn), setStep_eq. reflexivity. }
  split.
  { intros n next Hne Hn.
    assert (Hne' : n <> EmptyString) by (intros ->; discriminate Hne).
    destruct (HasPrefix next "--") eqn:Hnext.
    - rewrite (tokenize_toggle_next _ _ _ _ _ _ Hne' Hn Hnext), setStep_eq. reflexivity.
    - rewrite (tokenize_pair _ _ _ _ _ _ Hne' Hn Hnext), setStep_eq. reflexivity. }
  split; [intros n val; apply setStep_unknown|].
  split; [intros n s v t f val e; apply setStep_rejected|].
  intros kvs. apply tokenize_assignments.
Qed.

(** C5: a token [--name] with no [=] in it, when it is the last token or
    the next token starts with the marker, calls [set] with the text
    [true] and leaves the next token to be scanned; otherwise it calls
    [set] with the next token and the loop goes on after that token.
    [set] passes the text to [setValueFromString] of the descriptor
    registered under the name, of whatever type; for an unknown name it
    returns an error and the value token is consumed all the same. *)
Theorem toggle_or_value (p : Parser) (w : World) (errs : list error) (n : string) :
  (n =? EmptyString)%string = false ->
  Index n "=" = None ->
  tokenize p ["--" +:+ n] w errs = setStep p (w, errs) n "true"
  /\ (forall next rest,
        HasPrefix next "--" = true ->
        tokenize p (("--" +:+ n) :: next :: rest) w errs
        = tokenize p (next :: rest) (fst (setStep p (w, errs) n "true"))
                   (snd (setStep p (w, errs) n "true")))
  /\ (forall next rest,
        HasPrefix next "--" = false ->
        tokenize p (("--" +:+ n) :: next :: rest) w errs
        = tokenize p rest (fst (setStep p (w, errs) n next))
                   (snd (setStep p (w, errs) n next)))
  /\ (forall v val,
        flagIndex p !! n = Some v ->
        setStep p (w, errs) n val
        = (fst (flag_setValueFromString v val w),
           collect errs (snd (flag_setValueFromString v val w))))
  /\ (forall next rest,
        flagIndex p !! n = None -> HasPrefix next "--" = false ->
        tokenize p (("--" +:+ n) :: next :: rest) w errs
        = tokenize p rest w (errs ++ [Errorf "unknown flag: --" n])).
Proof.
  intros Hne Hn.
  assert (Hne' : n <> EmptyString) by (intros ->; discriminate Hne).
  split.
  { rewrite (tokenize_toggle_last _ _ _ _ Hne' Hn), setStep_eq. reflexivity. }
  split.
  { intros next rest Hnext.
    rewrite (tokenize_toggle_next _ _ _ _ _ _ Hne' Hn Hnext), setStep_eq. reflexivity. }
  split.
  { intros next rest Hnext.
    rewrite (tokenize_pair _ _ _ _ _ _ Hne' Hn Hnext), setStep_eq. reflexivity. }
  split.
  { intros v val Hv. rewrite setStep_eq, (Parser_set_known _ _ _ _ _ Hv). reflexivity. }
  intros next rest Hi Hnext.
  rewrite (tokenize_pair _ _ _ _ _ _ Hne' Hn Hnext), (Parser_set_unknown _ _ _ _ Hi).
  reflexivity.
Qed.

Lemma toggle_or_value_witness :
  ("count" =? EmptyString)%string = false
  /\ Index "count" "=" = None
  /\ exists v p w,
      requiredCount ∅ = Done (v, p, w)
      /\ tokenize p ["--count"] w [] = setStep p (w, []) "count" "true"
      /\ setStep p (w, []) "count" "true" = (w, [NumError "Atoi" "true" ErrSyntax])
      /\ mem (fst (tokenize p ["--count"; "7"; "--help"] w [])) !! addr 0 = Some (VInt 7)
      /\ mem (fst (tokenize p ["--count"; "7"; "--help"] w [])) !! addrHelpCalled
         = Some (VBool true).
Proof.
  split; [reflexivity|]. split; [reflexivity|].
  exists 1%nat, countParser, (countWorld ∅).
  split; [apply requiredCount_state|].
  split.
  - apply toggle_or_value; reflexivity.
  - split; [reflexivity|]. split; vm_compute; reflexivity.
Defined.

(** ** Precedence of the sources *)

Section Precedence.
Variables (p : Parser) (v : flag) (t : ty) (f : Flag t) (env : gmap string string).

Local Abbreviation stable := (stable p v f env).
Local Abbreviation resolved := (resolved v f).

Lemma touched_stable (u : flag) (w w' : World) :
  touched u w w' -> stable w -> stable w'.
Proof.
  intros Ht (He & Hh & Hx). split; [|split].
  - rewrite (touched_environ _ _ _ Ht). exact He.
  - exact (touched_holds _ _ _ _ _ Ht Hh).
  - exact (touched_exclusive _ _ _ _ _ _ Ht Hx).
Qed.

Lemma touched_resolved_other (u : flag) (nm : string) (x : denote t) (w w' : World) :
  touched u w w' -> flagIndex p !! nm = Some u -> u <> v ->
  stable w -> resolved x w -> resolved x w'.
Proof.
  intros Ht Hi Hne (_ & _ & Hx) [Hm Hd]. split.
  - rewrite (touched_mem_other _ _ _ _ _ _ _ Ht Hi Hne Hx). exact Hm.
  - rewrite (touched_other _ _ _ _ Ht Hne). exact Hd.
Qed.

(** The first loop, at the descriptor itself. *)
Lemma seed_here (w : World) (errs : list error) (x : denote t) :
  stable w -> seeded env f = Some x -> resolved x (fst (seed v (w, errs))).
Proof.
  intros (He & [b Hb] & _) Hx. unfold seed, flag_setValueFromDefault. rewrite Hb.
  assert (Hlt : (v < List.length (heap w))%nat) by (eapply lookup_lt_Some; exact Hb).
  unfold seeded in Hx. unfold setValueFromDefault. cbn [defaultValueSet withSet].
  destruct (defaultValueSet f) eqn:Hdef.
  - rewrite setValue_withSet. unfold flag_setValueFromEnv. cbn [heap mem environ].
    rewrite list_lookup_insert_eq by exact Hlt.
    unfold setValueFromEnv. cbn [envVarName withSet]. rewrite He.
    destruct (LookupEnv env (envVarName f)) as [s|].
    + unfold setValueFromString. cbn [parseFunc withSet].
      destruct (parseFunc f s) as [val [err|]]; injection Hx as <-; cbn.
      * split; [apply lookup_insert_eq|].
        rewrite list_insert_insert_eq. apply list_lookup_insert_eq. exact Hlt.
      * split; [apply lookup_insert_eq|].
        rewrite list_insert_insert_eq. apply list_lookup_insert_eq. exact Hlt.
    + injection Hx as <-. cbn.
      split; [apply lookup_insert_eq|].
      rewrite list_insert_insert_eq. apply list_lookup_insert_eq. exact Hlt.
  - unfold flag_setValueFromEnv. cbn [heap mem environ].
    rewrite list_lookup_insert_eq by exact Hlt.
    unfold setValueFromEnv. cbn [envVarName withSet]. rewrite He.
    destruct (LookupEnv env (envVarName f)) as [s|]; [|discriminate].
    unfold setValueFromString. cbn [parseFunc withSet].
    destruct (parseFunc f s) as [val [err|]]; [discriminate|]. injection Hx as <-. cbn.
    split; [apply lookup_insert_eq|].
    rewrite list_insert_insert_eq. apply list_lookup_insert_eq. exact Hlt.
Qed.

Lemma seed_stable (u : flag) (w : World) (errs : list error) :
  stable w -> stable (fst (seed u (w, errs))).
Proof. apply seed_invariant. intros w1 w2. apply touched_stable. Qed.

Lemma seed_other (u : flag) (nm : string) (x : denote t) (w : World) (errs : list error) :
  flagIndex p !! nm = Some u -> u <> v ->
  stable w /\ resolved x w ->
  stable (fst (seed u (w, errs))) /\ resolved x (fst (seed u (w, errs))).
Proof.
  intros Hi Hne.
  apply (seed_invariant (fun w => stable w /\ resolved x w)).
  intros w1 w2 Ht [Hs Hr]. split.
  - exact (touched_stable _ _ _ Ht Hs).
  - exact (touched_resolved_other _ _ _ _ _ Ht Hi Hne Hs Hr).
Qed.

(** The first loop, over any entries of the index. *)
Lemma seeds_resolved (iter : list (string * flag)) (x : denote t) :
  (forall k u, (k, u) ∈ iter -> flagIndex p !! k = Some u) ->
  seeded env f = Some x ->
  forall w errs,
    stable w ->
    let w' := fst (foldl (fun st kv => seed (snd kv) st) (w, errs) iter) in
    stable w' /\ ((v ∈ map snd iter \/ resolved x w) -> resolved x w').
Proof.
  intros Hiter Hx. induction iter as [|[k u] iter IH]; intros w errs Hs.
  - cbn. split; [exact Hs|]. intros [Hin|Hr]; [|exact Hr]. inversion Hin.
  - cbn [foldl snd map].
    destruct (seed u (w, errs)) as [w1 errs1] eqn:Hseed.
    assert (Hw1 : w1 = fst (seed u (w, errs))) by (rewrite Hseed; reflexivity).
    assert (Hs1 : stable w1) by (rewrite Hw1; apply seed_stable; exact Hs).
    destruct (IH (fun k' u' Hin => Hiter k' u' (list_elem_of_further _ _ _ Hin))
                 w1 errs1 Hs1) as [Hs' Hr'].
    split; [exact Hs'|]. intros Hor. apply Hr'.
    destruct (decide (u = v)) as [->|Hne].
    + right. rewrite Hw1. apply seed_here; assumption.
    + destruct Hor as [Hin|Hr].
      * left. apply elem_of_cons in Hin as [Heq|Hin]; [|exact Hin].
        exfalso. apply Hne. symmetry. exact Heq.
      * right. rewrite Hw1.
        apply (seed_other u k x w errs (Hiter k u (list_elem_of_here _ _)) Hne).
        split; assumption.
Qed.

(** The second loop: a call of [set]. *)
Lemma setStep_stable (nm val : string) (st : World * list error) :
  stable (fst st) -> stable (fst (setStep p st nm val)).
Proof.
  destruct st as [w errs]. rewrite setStep_eq. cbn [fst]. intros Hs.
  destruct (Parser_set_touched p nm val w) as [-> | (u & _ & Ht)]; [exact Hs|].
  exact (touched_stable _ _ _ Ht Hs).
Qed.

Lemma setStep_other (nm val : string) (x : denote t) (st : World * list error) :
  flagIndex p !! nm <> Some v ->
  stable (fst st) /\ resolved x (fst st) ->
  stable (fst (setStep p st nm val)) /\ resolved x (fst (setStep p st nm val)).
Proof.
  destruct st as [w errs]. rewrite setStep_eq. cbn [fst]. intros Hnm [Hs Hr].
  destruct (Parser_set_touched p nm val w) as [-> | (u & Hu & Ht)]; [split; assumption|].
  assert (Hne : u <> v) by (intros ->; exact (Hnm Hu)).
  split.
  - exact (touched_stable _ _ _ Ht Hs).
  - exact (touched_resolved_other _ _ _ _ _ Ht Hu Hne Hs Hr).
Qed.

Lemma setStep_here (n c : string) (x : denote t) (st : World * list error) :
  flagIndex p !! n = Some v -> parseFunc f c = (x, None) ->
  stable (fst st) ->
  stable (fst (setStep p st n c)) /\ resolved x (fst (setStep p st n c)).
Proof.
  intros Hn Hp Hs. split; [apply setStep_stable; exact Hs|].
  destruct st as [w errs]. cbn [fst] in Hs. destruct Hs as (_ & [b Hb] & _).
  rewrite setStep_eq, (Parser_set_known _ _ _ _ _ Hn). cbn [fst].
  unfold flag_setValueFromString. rewrite Hb.
  rewrite (setValueFromString_ok (withSet b f) c (mem w) x Hp). cbn.
  split; [apply lookup_insert_eq|].
  apply list_lookup_insert_eq. eapply lookup_lt_Some. exact Hb.
Qed.

Lemma setSteps_stable (kvs : list (string * string)) (st : World * list error) :
  stable (fst st) ->
  stable (fst (foldl (fun st kv => setStep p st (fst kv) (snd kv)) st kvs)).
Proof.
  revert st. induction kvs as [|kv kvs IH]; intros st Hs; [exact Hs|].
  cbn [foldl]. apply IH, setStep_stable, Hs.
Qed.

Lemma setSteps_other (kvs : list (string * string)) (x : denote t)
      (st : World * list error) :
  Forall (fun kv => flagIndex p !! fst kv <> Some v) kvs ->
  stable (fst st) /\ resolved x (fst st) ->
  resolved x (fst (foldl (fun st kv => setStep p st (fst kv) (snd kv)) st kvs)).
Proof.
  intros Hall. revert st.
  induction Hall as [|kv kvs Hkv _ IH]; intros st Hsr; [exact (proj2 Hsr)|].
  cbn [foldl]. apply IH, setStep_other; assumption.
Qed.
End Precedence.

Lemma parse_unfold (p : Parser) (iter : list (string * flag)) (args : list string) (w : World) :
  parse p iter args w
  = tokenize p args (fst (foldl (fun st kv => seed (snd kv) st) (w, []) iter))
             (snd (foldl (fun st kv => seed (snd kv) st) (w, []) iter)).
Proof. unfold parse. destruct (foldl _ _ iter). reflexivity. Qed.

Lemma tokenize_only_assignments (p : Parser) (kvs : list (string * string)) (w : World)
      (errs : list error) :
  Forall (fun kv => Index (fst kv) "=" = None) kvs ->
  tokenize p (map assignment kvs) w errs
  = foldl (fun st kv => setStep p st (fst kv) (snd kv)) (w, errs) kvs.
Proof.
  intros Hall. rewrite <- (app_nil_r (map assignment kvs)).
  rewrite (tokenize_assignments _ _ _ _ _ Hall). cbn [tokenize].
  destruct (foldl _ _ kvs). reflexivity.
Qed.

Lemma seeds_stable (p : Parser) (v : flag) {t} (f : Flag t) (env : gmap string string)
      (iter : list (string * flag)) (w : World) (errs : list error) :
  stable p v f env w ->
  stable p v f env (fst (foldl (fun st kv => seed (snd kv) st) (w, errs) iter)).
Proof.
  revert w errs. induction iter as [|[k u] iter IH]; intros w errs Hs; [exact Hs|].
  cbn [foldl snd]. destruct (seed u (w, errs)) as [w1 errs1] eqn:Hseed.
  apply IH. change w1 with (fst (w1, errs1)). rewrite <- Hseed.
  apply seed_stable. exact Hs.
Qed.

Lemma tokenize_assignment (p : Parser) (n c : string) (rest : list string) (w : World)
      (errs : list error) :
  Index n "=" = None ->
  tokenize p (assignment (n, c) :: rest) w errs
  = tokenize p rest (fst (setStep p (w, errs) n c)) (snd (setStep p (w, errs) n c)).
Proof.
  intros Hn. unfold assignment. cbn [fst snd].
  rewrite (tokenize_assign _ _ _ _ _ _ Hn), setStep_eq. reflexivity.
Qed.

Lemma soleName_spec (p : Parser) (n : string) (v : flag) :
  soleName p n v = true -> forall nm, flagIndex p !! nm = Some v -> nm = n.
Proof.
  unfold soleName. rewrite forallb_forall. intros Hall nm Hnm.
  apply elem_of_map_to_list, list_elem_of_In in Hnm.
  specialize (Hall _ Hnm). cbn [fst snd] in Hall.
  rewrite Nat.eqb_refl in Hall. cbn in Hall. apply String.eqb_eq. exact Hall.
Qed.

Lemma soleOwner_exclusive (p : Parser) (w : World) (v : flag) {t} (f : Flag t) :
  soleOwner p w v = true -> heap w !! v = Some (desc t f) -> exclusive p w v f.
Proof.
  unfold soleOwner. rewrite forallb_forall. intros Hall Hv nm u d Hu Hne Hd.
  apply elem_of_map_to_list, list_elem_of_In in Hu.
  specialize (Hall _ Hu). cbn [fst snd] in Hall.
  rewrite Hd, Hv in Hall.
  apply orb_true_iff in Hall as [Hall|Hall].
  - apply Nat.eqb_eq in Hall. contradiction.
  - apply negb_true_iff, bool_decide_eq_false in Hall. exact Hall.
Qed.

(** ** The first loop at one descriptor *)

Lemma seed_shape (v : flag) (w : World) {t} (f : Flag t) (errs : list error) :
  heap w !! v = Some (desc t f) ->
  seed v (w, errs)
  = (match seeded (environ w) f with
     | Some x => mkWorld (environ w) (<[target f := box t x]> (mem w))
                         (<[v := desc t (withSet true f)]> (heap w))
     | None => w
     end,
     collect errs (seedError (environ w) f)).
Proof.
  intros Hv. assert (Hlt : (v < List.length (heap w))%nat) by (eapply lookup_lt_Some; exact Hv).
  unfold seed, flag_setValueFromDefault, seeded, seedError. rewrite Hv.
  unfold setValueFromDefault.
  destruct (defaultValueSet f) eqn:Hdef.
  - rewrite setValue_withSet. unfold flag_setValueFromEnv. cbn [heap mem environ].
    rewrite list_lookup_insert_eq by exact Hlt.
    unfold setValueFromEnv. cbn [envVarName withSet].
    destruct (LookupEnv (environ w) (envVarName f)) as [s|]; cbn [mem heap environ].
    + unfold setValueFromString. cbn [parseFunc withSet].
      destruct (parseFunc f s) as [val [err|]]; cbn [snd];
        rewrite ?setValue_withSet, ?list_insert_insert_eq; cbn [target withSet];
        rewrite ?insert_insert_eq; destruct f; reflexivity.
    + rewrite list_insert_insert_eq. destruct f; reflexivity.
  - unfold flag_setValueFromEnv. cbn [heap mem environ].
    rewrite list_lookup_insert_eq by exact Hlt.
    unfold setValueFromEnv.
    destruct (LookupEnv (environ w) (envVarName f)) as [s|]; cbn [mem heap environ].
    + unfold setValueFromString.
      destruct (parseFunc f s) as [val [err|]]; cbn [snd];
        rewrite ?setValue_withSet, ?list_insert_insert_eq.
      * rewrite (untouched_state w v _ Hv). reflexivity.
      * reflexivity.
    + rewrite list_insert_insert_eq, (untouched_state w v _ Hv). reflexivity.
Qed.

Lemma seed_absent (v : flag) (w : World) (errs : list error) :
  heap w !! v = None -> seed v (w, errs) = (w, errs).
Proof.
  intros Hv. unfold seed, flag_setValueFromDefault. rewrite Hv.
  unfold flag_setValueFromEnv. rewrite Hv. reflexivity.
Qed.

(** ** The calls of the second loop *)

Lemma tokenize_last (p : Parser) (arg : string) (w : World) (errs : list error) :
  tokenize p [arg] w errs
  = if negb (HasPrefix arg "--") then (w, errs ++ [Errorf "unexpected argument: " arg])
    else
      if (TrimPrefix arg "--" =? EmptyString)%string then (w, errs)
      else
        match Index (TrimPrefix arg "--") "=" with
        | Some equalsIdx =>
            let '(w', err) :=
              Parser_set p (sliceTo (TrimPrefix arg "--") equalsIdx)
                         (sliceFrom (TrimPrefix arg "--") (equalsIdx + 1)) w in
            tokenize p [] w' (collect errs err)
        | None =>
            let '(w', err) := Parser_set p (TrimPrefix arg "--") "true" w in
            tokenize p [] w' (collect errs err)
        end.
Proof. reflexivity. Qed.

Lemma setCalls_last (arg : string) :
  setCalls [arg]
  = if negb (HasPrefix arg "--") then []
    else
      if (TrimPrefix arg "--" =? EmptyString)%string then []
      else
        match Index (TrimPrefix arg "--") "=" with
        | Some equalsIdx =>
            [(sliceTo (TrimPrefix arg "--") equalsIdx,
              sliceFrom (TrimPrefix arg "--") (equalsIdx + 1))]
        | None => [(TrimPrefix arg "--", "true")]
        end.
Proof. reflexivity. Qed.

Lemma setCalls_followed (arg next : string) (rest : list string) :
  setCalls (arg :: next :: rest)
  = if negb (HasPrefix arg "--") then []
    else
      if (TrimPrefix arg "--" =? EmptyString)%string then []
      else
        match Index (TrimPrefix arg "--") "=" with
        | Some equalsIdx =>
            (sliceTo (TrimPrefix arg "--") equalsIdx,
             sliceFrom (TrimPrefix arg "--") (equalsIdx + 1)) :: setCalls (next :: rest)
        | None =>
            if HasPrefix next "--"
            then (TrimPrefix arg "--", "true") :: setCalls (next :: rest)
            else (TrimPrefix arg "--", next) :: setCalls rest
        end.
Proof. reflexivity. Qed.

(** One turn of the second loop: it halts, with no call, or makes the
    call [setCalls] lists first and goes on with the arguments left. *)
Lemma setCalls_cases (p : Parser) (arg : string) (rest : list string) (w : World) :
  (setCalls (arg :: rest) = []
   /\ exists l, forall errs, tokenize p (arg :: rest) w errs = (w, errs ++ l))
  \/ (exists nm val rest',
         (List.length rest' <= List.length rest)%nat
         /\ setCalls (arg :: rest) = (nm, val) :: setCalls rest'
         /\ forall errs,
             tokenize p (arg :: rest) w errs
             = tokenize p rest' (fst (Parser_set p nm val w))
                        (collect errs (snd (Parser_set p nm val w)))).
Proof.
  destruct rest as [|next rest].
  - rewrite setCalls_last.
    destruct (negb (HasPrefix arg "--")) eqn:H1.
    { left. split; [reflexivity|]. eexists. intros errs. rewrite tokenize_last, H1. reflexivity. }
    destruct (TrimPrefix arg "--" =? EmptyString)%string eqn:H2.
    { left. split; [reflexivity|]. exists []. intros errs.
      rewrite tokenize_last, H1, H2, app_nil_r. reflexivity. }
    destruct (Index (TrimPrefix arg "--") "=") as [i|] eqn:H3.
    + right. exists (sliceTo (TrimPrefix arg "--") i), (sliceFrom (TrimPrefix arg "--") (i + 1)), [].
      split; [reflexivity|]. split; [reflexivity|]. intros errs.
      rewrite tokenize_last, H1, H2, H3. destruct (Parser_set p _ _ w). reflexivity.
    + right. exists (TrimPrefix arg "--"), "true", [].
      split; [reflexivity|]. split; [reflexivity|]. intros errs.
      rewrite tokenize_last, H1, H2, H3. destruct (Parser_set p _ _ w). reflexivity.
  - rewrite setCalls_followed.
    destruct (negb (HasPrefix arg "--")) eqn:H1.
    { left. split; [reflexivity|]. eexists. intros errs.
      rewrite tokenize_followed, H1. reflexivity. }
    destruct (TrimPrefix arg "--" =? EmptyString)%string eqn:H2.
    { left. split; [reflexivity|]. eexists. intros errs.
      rewrite tokenize_followed, H1, H2. reflexivity. }
    destruct (Index (TrimPrefix arg "--") "=") as [i|] eqn:H3.
    { right.
      exists (sliceTo (TrimPrefix arg "--") i), (sliceFrom (TrimPrefix arg "--") (i + 1)),
             (next :: rest).
      split; [reflexivity|]. split; [reflexivity|]. intros errs.
      rewrite tokenize_followed, H1, H2, H3. destruct (Parser_set p _ _ w). reflexivity. }
    destruct (HasPrefix next "--") eqn:H4.
    + right. exists (TrimPrefix arg "--"), "true", (next :: rest).
      split; [reflexivity|]. split; [reflexivity|]. intros errs.
      rewrite tokenize_followed, H1, H2, H3, H4. destruct (Parser_set p _ _ w). reflexivity.
    + right. exists (TrimPrefix arg "--"), next, rest.
      split; [cbn; lia|]. split; [reflexivity|]. intros errs.
      rewrite tokenize_followed, H1, H2, H3, H4. destruct (Parser_set p _ _ w). reflexivity.
Qed.

(** The state the second loop ends in is that of the calls of [set]
    which [setCalls] lists, made in order. *)
Lemma tokenize_setCalls (p : Parser) (args : list string) :
  forall w errs,
    fst (tokenize p args w errs)
    = fst (foldl (fun st kv => setStep p st (fst kv) (snd kv)) (w, errs) (setCalls args)).
Proof.
  induction args as [args IH] using (induction_ltof1 _ (@List.length string)).
  unfold ltof in IH. intros w errs.
  destruct args as [|arg rest]; [reflexivity|].
  destruct (setCalls_cases p arg rest w)
    as [(Hnone & l & Hhalt) | (nm & val & rest' & Hlen & Hcalls & Hgo)].
  - rewrite Hhalt, Hnone. reflexivity.
  - rewrite Hgo, Hcalls. cbn [foldl fst snd]. rewrite setStep_eq.
    apply IH. cbn. lia.
Qed.

Lemma chosen_others {t} (f : Flag t) (n : string) (calls : list (string * string))
      (o : option (denote t)) :
  Forall (fun kv => fst kv <> n) calls -> chosen f n calls o = o.
Proof.
  induction 1 as [|kv calls Hkv _ IH]; [reflexivity|].
  unfold chosen in *. cbn [foldl].
  apply String.eqb_neq in Hkv. rewrite Hkv. exact IH.
Qed.

Lemma chosen_last {t} (f : Flag t) (n c : string) (before after : list (string * string))
      (o : option (denote t)) (x : denote t) :
  Forall (fun kv => fst kv <> n) after ->
  parseFunc f c = (x, None) ->
  chosen f n (before ++ (n, c) :: after) o = Some x.
Proof.
  intros Hafter Hp. unfold chosen. rewrite foldl_app. cbn [foldl fst snd].
  rewrite String.eqb_refl, Hp. exact (chosen_others f n after (Some x) Hafter).
Qed.

Section AnyCommandLine.
Variables (p : Parser) (v : flag) (t : ty) (f : Flag t) (env : gmap string string).
Variables (n : string) (w0 : World).
Hypothesis Hn : flagIndex p !! n = Some v.
Hypothesis Hsole : forall nm, flagIndex p !! nm = Some v -> nm = n.

Local Abbreviation stable := (stable p v f env).
Local Abbreviation kept := (kept v f w0).
Local Abbreviation settled := (settled v f w0).

Lemma touched_kept (u : flag) (nm : string) (w w' : World) :
  touched u w w' -> flagIndex p !! nm = Some u -> u <> v ->
  stable w -> kept w -> kept w'.
Proof.
  intros Ht Hi Hne (_ & _ & Hx) [Hm Hd]. split.
  - rewrite (touched_mem_other _ _ _ _ _ _ _ Ht Hi Hne Hx). exact Hm.
  - rewrite (touched_other _ _ _ _ Ht Hne). exact Hd.
Qed.

Lemma seed_kept (u : flag) (k : string) (w : World) (errs : list error) :
  seeded env f = None -> flagIndex p !! k = Some u ->
  stable w /\ kept w ->
  stable (fst (seed u (w, errs))) /\ kept (fst (seed u (w, errs))).
Proof.
  intros Hnone Hk [Hs Hkept].
  destruct (decide (u = v)) as [->|Hne].
  - destruct Hs as (He & Hrest). destruct Hkept as [Hm Hd].
    rewrite (seed_shape v w f errs Hd), He, Hnone. cbn [fst].
    split; [split; assumption|split; assumption].
  - apply (seed_invariant (fun w => stable w /\ kept w)); [|split; assumption].
    intros w1 w2 Ht [Hs1 Hk1]. split.
    + exact (touched_stable p v t f env _ _ _ Ht Hs1).
    + exact (touched_kept _ _ _ _ Ht Hk Hne Hs1 Hk1).
Qed.

Lemma seeds_kept (iter : list (string * flag)) :
  (forall k u, (k, u) ∈ iter -> flagIndex p !! k = Some u) ->
  seeded env f = None ->
  forall w errs,
    stable w /\ kept w ->
    kept (fst (foldl (fun st kv => seed (snd kv) st) (w, errs) iter)).
Proof.
  intros Hiter Hnone. induction iter as [|[k u] iter IH]; intros w errs Hsk.
  - exact (proj2 Hsk).
  - cbn [foldl snd].
    destruct (seed u (w, errs)) as [w1 errs1] eqn:Hseed.
    apply (IH (fun k' u' Hin => Hiter k' u' (list_elem_of_further _ _ _ Hin))).
    change w1 with (fst (w1, errs1)). rewrite <- Hseed.
    exact (seed_kept u k w errs Hnone (Hiter k u (list_elem_of_here _ _)) Hsk).
Qed.

(** A call of [set] in the second loop. *)
Lemma setStep_settled (nm val : string) (o : option (denote t)) (st : World * list error) :
  stable (fst st) -> settled o (fst st) ->
  stable (fst (setStep p st nm val))
  /\ settled (chosen f n [(nm, val)] o) (fst (setStep p st nm val)).
Proof.
  intros Hs Ho. split; [apply setStep_stable; exact Hs|].
  unfold chosen. cbn [foldl fst snd].
  destruct (nm =? n)%string eqn:Hnm.
  - apply String.eqb_eq in Hnm. subst nm.
    destruct (parseFunc f val) as [x [err|]] eqn:Hp.
    + destruct st as [w errs]. cbn [fst] in Hs, Ho |- *.
      destruct Hs as (_ & [b Hb] & _).
      rewrite setStep_eq, (Parser_set_known _ _ _ _ _ Hn). cbn [fst].
      rewrite (flag_setValueFromString_failed (withSet b f) val w v x err Hb Hp).
      exact Ho.
    + exact (proj2 (setStep_here p v t f env n val x st Hn Hp Hs)).
  - assert (Hother : flagIndex p !! nm <> Some v).
    { intros H. apply Hsole in H. subst nm. rewrite String.eqb_refl in Hnm. discriminate Hnm. }
    destruct o as [x|].
    + exact (proj2 (setStep_other p v t f env nm val x st Hother (conj Hs Ho))).
    + destruct st as [w errs]. cbn [fst] in Hs, Ho |- *. rewrite setStep_eq. cbn [fst].
      destruct (Parser_set_touched p nm val w) as [-> | (u & Hu & Ht)]; [exact Ho|].
      assert (Hne : u <> v) by (intros ->; exact (Hother Hu)).
      exact (touched_kept _ _ _ _ Ht Hu Hne Hs Ho).
Qed.

Lemma setSteps_settled (calls : list (string * string)) :
  forall (o : option (denote t)) (st : World * list error),
    stable (fst st) -> settled o (fst st) ->
    settled (chosen f n calls o)
            (fst (foldl (fun st kv => setStep p st (fst kv) (snd kv)) st calls)).
Proof.
  induction calls as [|[nm val] calls IH]; intros o st Hs Ho; [exact Ho|].
  cbn [foldl fst snd].
  destruct (setStep_settled nm val o st Hs Ho) as [Hs' Ho'].
  exact (IH _ _ Hs' Ho').
Qed.
End AnyCommandLine.

(** C1: for a descriptor registered under one name whose target no other
    registered descriptor shares, one resolution pass over any command
    line, in any order of the index, ends with the value of the highest
    source present in the target, and the descriptor set.  The second
    loop makes the calls of [set] that [setCalls] lists; the target ends
    with the value of the last call for the flag that parses, else with
    what the first loop left: the parsed environment value, else the
    default, else what it held before.  So the last value given for
    the flag on the command line wins when it parses, whatever the
    environment and the default and whatever tokens stand around it;
    with no call for the flag, the parsed environment value wins when
    the variable is set; else the default when there is one.  The same
    is stated for the two forms of one assignment, [--n=c] among other
    assignments and [--n c]. *)
Theorem source_precedence
        (p : Parser) (iter : list (string * flag)) (w : World)
        (n : string) (v : flag) (t : ty) (f : Flag t) :
  iter ≡ₚ map_to_list (flagIndex p) ->
  flagIndex p !! n = Some v ->
  (forall nm, flagIndex p !! nm = Some v -> nm = n) ->
  heap w !! v = Some (desc t f) ->
  exclusive p w v f ->
  (forall args w1 errs,
      fst (tokenize p args w1 errs)
      = fst (foldl (fun st kv => setStep p st (fst kv) (snd kv)) (w1, errs) (setCalls args)))
  /\ (forall args,
        settled v f w (chosen f n (setCalls args) (seeded (environ w) f))
                (fst (parse p iter args w)))
  /\ (forall args before c after x,
        setCalls args = before ++ (n, c) :: after ->
        Forall (fun kv => fst kv <> n) after ->
        parseFunc f c = (x, None) ->
        resolved v f x (fst (parse p iter args w)))
  /\ (forall args e x,
        Forall (fun kv => fst kv <> n) (setCalls args) ->
        LookupEnv (environ w) (envVarName f) = Some e ->
        parseFunc f e = (x, None) ->
        resolved v f x (fst (parse p iter args w)))
  /\ (forall args,
        Forall (fun kv => fst kv <> n) (setCalls args) ->
        LookupEnv (environ w) (envVarName f) = None ->
        defaultValueSet f = true ->
        resolved v f (defaultValue f) (fst (parse p iter args w)))
  /\ (forall before after c x,
        Index n "=" = None ->
        Forall (fun kv => Index (fst kv) "=" = None) before ->
        Forall (fun kv => Index (fst kv) "=" = None /\ fst kv <> n) after ->
        parseFunc f c = (x, None) ->
        resolved v f x
          (fst (parse p iter
                      (map assignment before ++ assignment (n, c) :: map assignment after) w)))
  /\ (forall c x,
        Index n "=" = None ->
        (n =? EmptyString)%string = false -> HasPrefix c "--" = false ->
        parseFunc f c = (x, None) ->
        resolved v f x (fst (parse p iter ["--" +:+ n; c] w)))
  /\ (forall others e x,
        Forall (fun kv => Index (fst kv) "=" = None /\ fst kv <> n) others ->
        LookupEnv (environ w) (envVarName f) = Some e ->
        parseFunc f e = (x, None) ->
        resolved v f x (fst (parse p iter (map assignment others) w)))
  /\ (forall others,
        Forall (fun kv => Index (fst kv) "=" = None /\ fst kv <> n) others ->
        LookupEnv (environ w) (envVarName f) = None ->
        defaultValueSet f = true ->
        resolved v f (defaultValue f) (fst (parse p iter (map assignment others) w))).
Proof.
  intros Hiter Hn Hsole Hv Hex.
  assert (Hreg : forall k u, (k, u) ∈ iter -> flagIndex p !! k = Some u).
  { intros k u Hin. rewrite Hiter in Hin. apply elem_of_map_to_list. exact Hin. }
  assert (Hin : v ∈ map snd iter).
  { apply list_elem_of_In, in_map_iff. exists (n, v). split; [reflexivity|].
    apply list_elem_of_In. rewrite Hiter. apply elem_of_map_to_list. exact Hn. }
  assert (Hs0 : stable p v f (environ w) w).
  { split; [reflexivity|]. split; [apply holds_here; exact Hv|exact Hex]. }
  assert (Hfold : stable p v f (environ w)
                    (fst (foldl (fun st kv => seed (snd kv) st) (w, []) iter))
                  /\ (forall x, seeded (environ w) f = Some x ->
                        resolved v f x
                          (fst (foldl (fun st kv => seed (snd kv) st) (w, []) iter)))
                  /\ (seeded (environ w) f = None ->
                      kept v f w (fst (foldl (fun st kv => seed (snd kv) st) (w, []) iter)))).
  { split; [|split].
    - apply seeds_stable. exact Hs0.
    - intros x Hx.
      apply (proj2 (seeds_resolved p v t f _ iter x Hreg Hx w [] Hs0)). left. exact Hin.
    - intros Hnone.
      apply (seeds_kept p v t f (environ w) w iter Hreg Hnone w []).
      split; [exact Hs0|]. split; [reflexivity|exact Hv]. }
  destruct Hfold as (Hs1 & Hseeded & Hkept).
  assert (Hparse : forall args,
             parse p iter args w
             = tokenize p args (fst (foldl (fun st kv => seed (snd kv) st) (w, []) iter))
                        (snd (foldl (fun st kv => seed (snd kv) st) (w, []) iter)))
    by (intros args; apply parse_unfold).
  destruct (foldl (fun st kv => seed (snd kv) st) (w, []) iter) as [w1 errs1].
  cbn [fst snd] in Hs1, Hseeded, Hkept, Hparse.
  assert (Hothers : forall kvs : list (string * string),
             Forall (fun kv => Index (fst kv) "=" = None /\ fst kv <> n) kvs ->
             Forall (fun kv => Index (fst kv) "=" = None) kvs
             /\ Forall (fun kv => flagIndex p !! fst kv <> Some v) kvs).
  { intros kvs Hall. split.
    - eapply Forall_impl; [exact Hall|]. intros kv [H _]. exact H.
    - eapply Forall_impl; [exact Hall|]. intros kv [_ H] Hkv. exact (H (Hsole _ Hkv)). }
  assert (Hgeneral : forall args,
             settled v f w (chosen f n (setCalls args) (seeded (environ w) f))
                     (fst (parse p iter args w))).
  { intros args. rewrite Hparse, tokenize_setCalls.
    apply (setSteps_settled p v t f (environ w) n w Hn Hsole); [exact Hs1|].
    cbn [fst]. destruct (seeded (environ w) f) as [x|] eqn:Hx.
    - exact (Hseeded x eq_refl).
    - exact (Hkept eq_refl). }
  split; [intros args w2 errs; apply tokenize_setCalls|].
  split; [exact Hgeneral|].
  split.
  { intros args before c after x Hcalls Hafter Hp.
    pose proof (Hgeneral args) as H.
    rewrite Hcalls, (chosen_last f n c before after _ x Hafter Hp) in H. exact H. }
  split.
  { intros args e x Hall He Hp.
    pose proof (Hgeneral args) as H.
    rewrite (chosen_others f n _ _ Hall) in H.
    unfold seeded in H. rewrite He, Hp in H. exact H. }
  split.
  { intros args Hall He Hdef.
    pose proof (Hgeneral args) as H.
    rewrite (chosen_others f n _ _ Hall) in H.
    unfold seeded in H. rewrite He, Hdef in H. exact H. }
  split.
  { intros before after c x Hnoeq Hbefore Hafter Hp.
    destruct (Hothers after Hafter) as [Hafter1 Hafter2].
    rewrite Hparse, (tokenize_assignments _ _ _ _ _ Hbefore).
    rewrite (tokenize_assignment _ _ _ _ _ _ Hnoeq).
    rewrite (tokenize_only_assignments _ _ _ _ Hafter1), <- !surjective_pairing.
    apply (setSteps_other p v t f (environ w)); [exact Hafter2|].
    apply setStep_here; [exact Hn|exact Hp|].
    apply setSteps_stable. exact Hs1. }
  split.
  { intros c x Hnoeq Hne Hc Hp.
    assert (Hne' : n <> EmptyString) by (intros ->; discriminate Hne).
    rewrite Hparse, (tokenize_pair _ _ _ _ _ _ Hne' Hnoeq Hc). cbn [tokenize fst].
    destruct (setStep_here p v t f (environ w) n c x (w1, errs1) Hn Hp Hs1) as [_ Hr].
    rewrite setStep_eq in Hr. exact Hr. }
  split.
  { intros others e x Hall He Hp.
    destruct (Hothers others Hall) as [Hall1 Hall2].
    rewrite Hparse, (tokenize_only_assignments _ _ _ _ Hall1).
    apply (setSteps_other p v t f (environ w)); [exact Hall2|].
    split; [exact Hs1|]. apply Hseeded. unfold seeded. rewrite He, Hp. reflexivity. }
  intros others Hall He Hdef.
  destruct (Hothers others Hall) as [Hall1 Hall2].
  rewrite Hparse, (tokenize_only_assignments _ _ _ _ Hall1).
  apply (setSteps_other p v t f (environ w)); [exact Hall2|].
  split; [exact Hs1|]. apply Hseeded. unfold seeded. rewrite He, Hdef. reflexivity.
Qed.

Lemma source_precedence_witness :
  exists v p w w0 f,
    portWithDefault {[ "PORT" := "8080" ]} = Done (v, p, w)
    /\ portWithDefault ∅ = Done (v, p, w0)
    /\ flagIndex p !! "port" = Some v
    /\ heap w !! v = Some (desc TInt f)
    /\ heap w0 !! v = Some (desc TInt f)
    /\ target f = addr 0
    /\ defaultValueSet f = true /\ defaultValue f = 80
    /\ LookupEnv (environ w) (envVarName f) = Some "8080"
    /\ LookupEnv (environ w0) (envVarName f) = None
    /\ resolved v f 9090 (fst (parse p (map_to_list (flagIndex p)) ["--port=9090"] w))
    /\ resolved v f 9090 (fst (parse p (map_to_list (flagIndex p)) ["--port"; "9090"] w))
    /\ resolved v f 8080 (fst (parse p (map_to_list (flagIndex p)) [] w))
    /\ resolved v f 80 (fst (parse p (map_to_list (flagIndex p)) [] w0))
    /\ setCalls ["--verbose"; "--port=9090"] = [("verbose", "true"); ("port", "9090")]
    /\ resolved v f 9090
                (fst (parse p (map_to_list (flagIndex p)) ["--verbose"; "--port=9090"] w))
    /\ setCalls ["--port"; "9090"; "--host"; "x"] = [("port", "9090"); ("host", "x")]
    /\ resolved v f 9090
                (fst (parse p (map_to_list (flagIndex p)) ["--port"; "9090"; "--host"; "x"] w))
    /\ setCalls ["--port=1"; "--port"; "x"; "--port=2"; "--help"]
       = [("port", "1"); ("port", "x"); ("port", "2"); ("help", "true")]
    /\ resolved v f 2
                (fst (parse p (map_to_list (flagIndex p))
                            ["--port=1"; "--port"; "x"; "--port=2"; "--help"] w))
    /\ resolved v f 8080
                (fst (parse p (map_to_list (flagIndex p)) ["--port=x"; "--help"; "stray"] w))
    /\ resolved v f 80 (fst (parse p (map_to_list (flagIndex p)) ["--help"] w0)).
Proof.
  exists 1%nat, portParser, (portWorld {[ "PORT" := "8080" ]}), (portWorld ∅), portFlag.
  split; [apply portWithDefault_state|].
  split; [apply portWithDefault_state|].
  split; [reflexivity|].
  split; [reflexivity|].
  split; [reflexivity|].
  split; [reflexivity|].
  split; [reflexivity|].
  split; [reflexivity|].
  split; [reflexivity|].
  split; [reflexivity|].
  destruct (source_precedence portParser (map_to_list (flagIndex portParser))
                              (portWorld {[ "PORT" := "8080" ]}) "port" 1%nat TInt portFlag)
    as (_ & Hany & Hlast & Hnocall & _ & Hcmd & Hpair & Henv & _);
    [ reflexivity
    | reflexivity
    | apply soleName_spec; vm_compute; reflexivity
    | reflexivity
    | apply soleOwner_exclusive; [vm_compute; reflexivity|reflexivity]
    | ].
  destruct (source_precedence portParser (map_to_list (flagIndex portParser))
                              (portWorld ∅) "port" 1%nat TInt portFlag)
    as (_ & _ & _ & _ & Hnocall0 & _ & _ & _ & Hdef);
    [ reflexivity
    | reflexivity
    | apply soleName_spec; vm_compute; reflexivity
    | reflexivity
    | apply soleOwner_exclusive; [vm_compute; reflexivity|reflexivity]
    | ].
  split; [exact (Hcmd [] [] "9090" 9090 eq_refl ltac:(constructor) ltac:(constructor) eq_refl)|].
  split; [exact (Hpair "9090" 9090 eq_refl eq_refl eq_refl eq_refl)|].
  split; [exact (Henv [] "8080" 8080 ltac:(constructor) eq_refl eq_refl)|].
  split; [exact (Hdef [] ltac:(constructor) eq_refl eq_refl)|].
  split; [reflexivity|].
  split.
  { apply (Hlast ["--verbose"; "--port=9090"] [("verbose", "true")] "9090" [] 9090);
      [reflexivity|constructor|reflexivity]. }
  split; [reflexivity|].
  split.
  { apply (Hlast ["--port"; "9090"; "--host"; "x"] [] "9090" [("host", "x")] 9090);
      [reflexivity| |reflexivity].
    constructor; [discriminate|constructor]. }
  split; [reflexivity|].
  split.
  { apply (Hlast ["--port=1"; "--port"; "x"; "--port=2"; "--help"]
                 [("port", "1"); ("port", "x")] "2" [("help", "true")] 2);
      [reflexivity| |reflexivity].
    constructor; [discriminate|constructor]. }
  split; [exact (Hany ["--port=x"; "--help"; "stray"])|].
  apply (Hnocall0 ["--help"]); [|reflexivity|reflexivity].
  constructor; [discriminate|constructor].
Defined.

(** ** Required flags *)

Lemma touched_config (u : flag) (w w' : World) (v : flag) :
  touched u w w' -> config <$> heap w' !! v = config <$> heap w !! v.
Proof.
  intros [|t f val Hu]; [reflexivity|]. cbn.
  destruct (decide (u = v)) as [->|Hne].
  - rewrite list_lookup_insert_eq by (eapply lookup_lt_Some; exact Hu).
    rewrite Hu. reflexivity.
  - rewrite list_lookup_insert_ne by exact Hne. reflexivity.
Qed.

Lemma config_proj {A} (g : descriptor -> A) (w w' : World) (v : flag) :
  (forall d, g (config d) = g d) ->
  config <$> heap w' !! v = config <$> heap w !! v ->
  g <$> heap w' !! v = g <$> heap w !! v.
Proof.
  intros Hg.
  destruct (heap w' !! v) as [d'|], (heap w !! v) as [d|]; cbn [fmap option_fmap option_map];
    intros H; try discriminate H; [|reflexivity].
  assert (Hd : config d' = config d) by congruence.
  f_equal. rewrite <- (Hg d'), <- (Hg d), Hd. reflexivity.
Qed.

Lemma config_isRequired (w w' : World) (v : flag) :
  config <$> heap w' !! v = config <$> heap w !! v ->
  flag_isRequired w' v = flag_isRequired w v.
Proof.
  intros H. apply (config_proj descRequired) in H; [|intros []; reflexivity].
  unfold flag_isRequired, isRequired.
  destruct (heap w' !! v) as [[t' f']|], (heap w !! v) as [[t f]|];
    cbn [fmap option_fmap option_map descRequired] in H; congruence.
Qed.

Lemma config_getName (w w' : World) (v : flag) :
  config <$> heap w' !! v = config <$> heap w !! v ->
  flag_getName w' v = flag_getName w v.
Proof.
  intros H. apply (config_proj descName) in H; [|intros []; reflexivity].
  unfold flag_getName, getName.
  destruct (heap w' !! v) as [[t' f']|], (heap w !! v) as [[t f]|];
    cbn [fmap option_fmap option_map descName] in H; congruence.
Qed.

Lemma config_envVarName (w w' : World) (v : flag) (d' : descriptor) :
  config <$> heap w' !! v = config <$> heap w !! v ->
  heap w' !! v = Some d' ->
  exists d, heap w !! v = Some d /\ descEnvVarName d' = descEnvVarName d.
Proof.
  intros H Hd'. apply (config_proj descEnvVarName) in H; [|intros []; reflexivity].
  rewrite Hd' in H.
  destruct (heap w !! v) as [d|]; [|discriminate H]. exists d. split; [reflexivity|].
  cbn [fmap option_fmap option_map] in H. congruence.
Qed.

(** [checkRequiredFlags] as a list comprehension over [p.flags]. *)
Lemma checkRequiredFlags_filter (p : Parser) (w : World) :
  checkRequiredFlags p w = map (missing w) (List.filter (unmet w) (flags p)).
Proof.
  unfold checkRequiredFlags.
  enough (H : forall l acc,
             foldl (fun checkErrs v =>
                      if flag_isRequired w v && negb (flag_isSet w v)
                      then checkErrs ++ [Errorf "missing required flag: --" (flag_getName w v)]
                      else checkErrs) acc l
             = acc ++ map (missing w) (List.filter (unmet w) l)) by apply (H (flags p) []).
  induction l as [|v l IH]; intros acc; cbn [foldl List.filter map].
  - symmetry. apply app_nil_r.
  - rewrite IH. unfold unmet at 2.
    destruct (flag_isRequired w v && negb (flag_isSet w v)); [|reflexivity].
    cbn [map]. rewrite <- app_assoc. reflexivity.
Qed.

(** Without a value in the environment the first loop only applies the
    default and reports nothing. *)
Lemma seed_no_env (u : flag) (w : World) (errs : list error) :
  (forall d, heap w !! u = Some d -> LookupEnv (environ w) (descEnvVarName d) = None) ->
  seed u (w, errs) = (flag_setValueFromDefault u w, errs).
Proof.
  intros Hno. unfold seed.
  pose proof (flag_setValueFromDefault_touched u w) as Ht.
  set (w1 := flag_setValueFromDefault u w) in *.
  unfold flag_setValueFromEnv.
  destruct (heap w1 !! u) as [[t f]|] eqn:Hu; [|reflexivity].
  destruct (config_envVarName w w1 u _ (touched_config u w w1 u Ht) Hu) as (d & Hd & He).
  unfold setValueFromEnv. cbn [descEnvVarName] in He.
  assert (Hl : LookupEnv (environ w1) (envVarName f) = None).
  { rewrite (touched_environ _ _ _ Ht), He. exact (Hno d Hd). }
  rewrite Hl, (untouched_state _ _ _ Hu). reflexivity.
Qed.

Lemma flag_setValueFromDefault_unset (v : flag) (w : World) {t} (f : Flag t) :
  heap w !! v = Some (desc t f) -> defaultValueSet f = false ->
  flag_setValueFromDefault v w = w.
Proof.
  intros Hv Hd. unfold flag_setValueFromDefault, setValueFromDefault. rewrite Hv, Hd.
  apply untouched_state. exact Hv.
Qed.

Lemma seeds_no_env (iter : list (string * flag)) (w : World) (v : flag) {t} (f : Flag t) :
  (forall k u d, (k, u) ∈ iter -> heap w !! u = Some d ->
                 LookupEnv (environ w) (descEnvVarName d) = None) ->
  heap w !! v = Some (desc t f) -> defaultValueSet f = false ->
  forall w1,
    environ w1 = environ w ->
    (forall u, config <$> heap w1 !! u = config <$> heap w !! u) ->
    heap w1 !! v = Some (desc t f) ->
    exists w',
      foldl (fun st kv => seed (snd kv) st) (w1, []) iter = (w', [])
      /\ (forall u, config <$> heap w' !! u = config <$> heap w !! u)
      /\ heap w' !! v = Some (desc t f).
Proof.
  intros Hno Hv Hd. induction iter as [|[k u] iter IH]; intros w1 He Hc Hv1.
  - exists w1. split; [reflexivity|]. split; assumption.
  - cbn [foldl snd]. rewrite seed_no_env.
    + pose proof (flag_setValueFromDefault_touched u w1) as Ht.
      apply IH.
      * intros k' u' d Hin. apply (Hno k'). right. exact Hin.
      * rewrite (touched_environ _ _ _ Ht). exact He.
      * intros u'. rewrite (touched_config _ _ _ u' Ht). apply Hc.
      * destruct (decide (u = v)) as [->|Hne].
        -- rewrite (flag_setValueFromDefault_unset v w1 f Hv1 Hd). exact Hv1.
        -- rewrite (touched_other _ _ _ _ Ht Hne). exact Hv1.
    + intros d1 Hd1. rewrite He.
      destruct (config_envVarName w w1 u d1 (Hc u) Hd1) as (d & Hd0 & ->).
      apply (Hno k u d); [left|exact Hd0].
Qed.

Lemma registerFlag_appends (p p' : Parser) (nm : string) (f : flag) :
  registerFlag p nm f = Done p' ->
  flags p' = flags p ++ [f] /\ flagIndex p' = <[nm := f]> (flagIndex p).
Proof.
  unfold registerFlag. destruct (flagIndex p !! nm); [discriminate|].
  intros [= <-]. split; reflexivity.
Qed.

(** C3: [checkRequiredFlags] returns one error for each descriptor of
    [p.flags] that is required and not set, in the order of [p.flags],
    and registrations append to [p.flags], which so is the order of
    registration. When no registered descriptor has a value in the
    environment and the only required descriptor of [p.flags] has
    neither a default nor a value yet, resolving no arguments reports
    no error and the check that follows reports that one descriptor. *)
Theorem checkRequiredFlags_insertion_order (p : Parser) (w : World) :
  checkRequiredFlags p w = map (missing w) (List.filter (unmet w) (flags p))
  /\ (forall fs p',
        registrations p fs p' ->
        flags p' = flags p ++ fs
        /\ checkRequiredFlags p' w
           = checkRequiredFlags p w ++ map (missing w) (List.filter (unmet w) fs))
  /\ (forall iter v t (f : Flag t) before after,
        iter ≡ₚ map_to_list (flagIndex p) ->
        (forall nm u d,
            flagIndex p !! nm = Some u -> heap w !! u = Some d ->
            LookupEnv (environ w) (descEnvVarName d) = None) ->
        heap w !! v = Some (desc t f) ->
        required f = true -> set f = false -> defaultValueSet f = false ->
        flags p = before ++ v :: after ->
        (forall u, u ∈ before ++ after -> flag_isRequired w u = false) ->
        snd (parse p iter [] w) = []
        /\ checkRequiredFlags p (fst (parse p iter [] w))
           = [Errorf "missing required flag: --" (name f)]).
Proof.
  split; [apply checkRequiredFlags_filter|].
  split.
  { intros fs p' Hreg.
    assert (Hflags : flags p' = flags p ++ fs).
    { induction Hreg as [|fs p1 p2 nm f _ IH Hstep]; [symmetry; apply app_nil_r|].
      destruct (registerFlag_appends _ _ _ _ Hstep) as [-> _].
      rewrite IH. symmetry. apply app_assoc. }
    split; [exact Hflags|].
    rewrite !checkRequiredFlags_filter, Hflags, List.filter_app, map_app. reflexivity. }
  intros iter v t f before after Hiter Hno Hv Hreq Hset Hdef Hflags Hothers.
  destruct (seeds_no_env iter w v f) with (w1 := w) as (w' & Hfold & Hc & Hv');
    try assumption; try reflexivity.
  { intros k u d Hin. apply (Hno k). apply elem_of_map_to_list.
    rewrite <- Hiter. exact Hin. }
  rewrite parse_unfold, Hfold. cbn [tokenize fst snd]. split; [reflexivity|].
  rewrite checkRequiredFlags_filter, Hflags, List.filter_app. cbn [List.filter].
  assert (Hnone : forall l, (forall u, u ∈ l -> flag_isRequired w u = false) ->
                            List.filter (unmet w') l = []).
  { induction l as [|u l IH]; intros Hl; [reflexivity|]. cbn [List.filter].
    unfold unmet at 1. rewrite (config_isRequired w w' u (Hc u)), (Hl u (list_elem_of_here _ _)).
    cbn. apply IH. intros u' Hu'. apply Hl. right. exact Hu'. }
  assert (Hunmet : unmet w' v = true).
  { unfold unmet, flag_isRequired, flag_isSet, isRequired, isSet.
    rewrite Hv', Hreq, Hset. reflexivity. }
  assert (Hname : missing w' v = Errorf "missing required flag: --" (name f)).
  { unfold missing, flag_getName, getName. rewrite Hv'. reflexivity. }
  rewrite Hunmet, !Hnone.
  - cbn [app map]. rewrite Hname. reflexivity.
  - intros u Hu. apply Hothers, elem_of_app. right. exact Hu.
  - intros u Hu. apply Hothers, elem_of_app. left. exact Hu.
Qed.

Lemma checkRequiredFlags_insertion_order_witness :
  exists v p w f,
    requiredCount ∅ = Done (v, p, w)
    /\ heap w !! v = Some (desc TInt f)
    /\ flags p = [0%nat] ++ v :: []
    /\ (exists p0 w0, New [] (mkWorld ∅ ∅ []) = Done (p0, w0) /\ registrations p0 [v] p)
    /\ snd (parse p (map_to_list (flagIndex p)) [] w) = []
    /\ checkRequiredFlags p (fst (parse p (map_to_list (flagIndex p)) [] w))
       = [Errorf "missing required flag: --" "count"].
Proof.
  exists 1%nat, countParser, (countWorld ∅), countFlag.
  split; [apply requiredCount_state|].
  split; [reflexivity|].
  split; [reflexivity|].
  split.
  { exists (parserOf [0%nat] (<["help" := 0%nat]> ∅)), (mkWorld ∅ freshMemory [helpDescriptor]).
    split; [reflexivity|].
    apply (registrations_more _ [] (parserOf [0%nat] (<["help" := 0%nat]> ∅)) countParser
                              "count" 1%nat); [constructor|reflexivity]. }
  destruct (checkRequiredFlags_insertion_order countParser (countWorld ∅))
    as (_ & _ & Hboundary).
  apply (Hboundary (map_to_list (flagIndex countParser)) 1%nat TInt countFlag [0%nat] []).
  - reflexivity.
  - intros nm u d Hu Hd.
    apply elem_of_map_to_list in Hu. vm_compute in Hu.
    apply elem_of_cons in Hu as [Hu|Hu];
      [|apply elem_of_cons in Hu as [Hu|Hu]; [|inversion Hu]];
      injection Hu as -> ->; cbv in Hd; injection Hd as <-; reflexivity.
  - reflexivity.
  - reflexivity.
  - reflexivity.
  - reflexivity.
  - reflexivity.
  - intros u Hu. apply list_elem_of_singleton in Hu as ->. reflexivity.
Defined.

(** ** [printHelp] and the order of [p.flags] *)

Lemma insertStable_perm {A} (cmp : A -> A -> comparison) (x : A) (l : list A) :
  insertStable cmp x l ≡ₚ x :: l.
Proof.
  induction l as [|y l IH]; cbn [insertStable]; [reflexivity|].
  destruct (cmp x y); try reflexivity.
  rewrite IH. apply Permutation_swap.
Qed.

Lemma SortStableFunc_perm {A} (cmp : A -> A -> comparison) (l : list A) :
  SortStableFunc cmp l ≡ₚ l.
Proof.
  induction l as [|x l IH]; cbn [SortStableFunc]; [reflexivity|].
  rewrite insertStable_perm, IH. reflexivity.
Qed.

Lemma Compare_le_trans (a b c : string) :
  Compare a b <> Gt -> Compare b c <> Gt -> Compare a c <> Gt.
Proof.
  unfold Compare. intros Hab Hbc Hac.
  assert (Hca : String.compare c a = Lt).
  { rewrite String.compare_antisym, Hac. reflexivity. }
  apply OrderedTypeEx.String_as_OT.cmp_lt in Hca.
  destruct (String.compare a b) eqn:Eab; [| |contradiction].
  - apply String.compare_eq_iff in Eab. subst b.
    apply Hbc. rewrite String.compare_antisym.
    apply OrderedTypeEx.String_as_OT.cmp_lt in Hca.
    change OrderedTypeEx.String_as_OT.cmp with String.compare in Hca.
    rewrite Hca. reflexivity.
  - apply OrderedTypeEx.String_as_OT.cmp_lt in Eab.
    pose proof (OrderedTypeEx.String_as_OT.lt_trans _ _ _ Hca Eab) as Hcb.
    apply OrderedTypeEx.String_as_OT.cmp_lt in Hcb.
    change OrderedTypeEx.String_as_OT.cmp with String.compare in Hcb.
    apply Hbc. rewrite String.compare_antisym, Hcb. reflexivity.
Qed.

Lemma nameLe_trans (w : World) (a b c : flag) :
  nameLe w a b -> nameLe w b c -> nameLe w a c.
Proof. apply Compare_le_trans. Qed.

Lemma nameLe_flip (w : World) (a b : flag) : byName w a b = Gt -> nameLe w b a.
Proof.
  unfold nameLe, byName, Compare. intros H. rewrite String.compare_antisym, H. discriminate.
Qed.

Lemma insertStable_sorted (w : World) (x : flag) (l : list flag) :
  StronglySorted (nameLe w) l -> StronglySorted (nameLe w) (insertStable (byName w) x l).
Proof.
  induction 1 as [|y l Hl IH Hy]; cbn [insertStable].
  - constructor; constructor.
  - destruct (byName w x y) eqn:Hxy.
    + constructor; [constructor; assumption|].
      assert (Hle : nameLe w x y) by (unfold nameLe; rewrite Hxy; discriminate).
      constructor; [exact Hle|].
      eapply Forall_impl; [exact Hy|]. intros z Hz. exact (nameLe_trans _ _ _ _ Hle Hz).
    + constructor; [constructor; assumption|].
      assert (Hle : nameLe w x y) by (unfold nameLe; rewrite Hxy; discriminate).
      constructor; [exact Hle|].
      eapply Forall_impl; [exact Hy|]. intros z Hz. exact (nameLe_trans _ _ _ _ Hle Hz).
    + constructor; [exact IH|].
      rewrite (insertStable_perm (byName w) x l).
      constructor; [exact (nameLe_flip _ _ _ Hxy)|exact Hy].
Qed.

Lemma SortStableFunc_sorted (w : World) (l : list flag) :
  StronglySorted (nameLe w) (SortStableFunc (byName w) l).
Proof.
  induction l as [|x l IH]; cbn [SortStableFunc]; [constructor|].
  apply insertStable_sorted, IH.
Qed.

Lemma printHelp_flags (arg0 : string) (p : Parser) (w : World) :
  flags (fst (printHelp arg0 p w)) = SortStableFunc (byName w) (flags p)
  /\ flagIndex (fst (printHelp arg0 p w)) = flagIndex p.
Proof. split; reflexivity. Qed.

Lemma filter_sorted {A} (R : A -> A -> Prop) (keep : A -> bool) (l : list A) :
  StronglySorted R l -> StronglySorted R (List.filter keep l).
Proof.
  induction 1 as [|x l Hl IH Hx]; cbn [List.filter]; [constructor|].
  destruct (keep x); [|exact IH]. constructor; [exact IH|].
  apply Forall_forall. intros y Hy. apply list_elem_of_In, filter_In in Hy as [Hy _].
  rewrite Forall_forall in Hx. apply Hx, list_elem_of_In, Hy.
Qed.

(** C9: [printHelp] leaves in [p.flags] the stable sort of the
    descriptors by name, a permutation of what was there that is in name
    order, and leaves the index alone; every later [checkRequiredFlags]
    on that parser walks the sorted sequence, so its errors come in name
    order. With [zeta] registered before [alpha], both required, the
    check reports [zeta] first before [printHelp] and [alpha] first
    after it. *)
Theorem printHelp_sorts_in_place (arg0 : string) (p : Parser) (w : World) :
  flags (fst (printHelp arg0 p w)) = SortStableFunc (byName w) (flags p)
  /\ flags (fst (printHelp arg0 p w)) ≡ₚ flags p
  /\ StronglySorted (nameLe w) (flags (fst (printHelp arg0 p w)))
  /\ flagIndex (fst (printHelp arg0 p w)) = flagIndex p
  /\ (forall w',
        checkRequiredFlags (fst (printHelp arg0 p w)) w'
        = map (missing w') (List.filter (unmet w') (SortStableFunc (byName w) (flags p)))
        /\ StronglySorted (nameLe w)
             (List.filter (unmet w') (flags (fst (printHelp arg0 p w)))))
  /\ (exists p0 w0,
        twoRequired = Done (p0, w0)
        /\ flags p0 = [0; 1; 2]%nat
        /\ flags (fst (printHelp arg0 p0 w0)) = [2; 0; 1]%nat
        /\ map Error (checkRequiredFlags p0 w0)
           = ["missing required flag: --zeta"; "missing required flag: --alpha"]
        /\ map Error (checkRequiredFlags (fst (printHelp arg0 p0 w0)) w0)
           = ["missing required flag: --alpha"; "missing required flag: --zeta"]).
Proof.
  destruct (printHelp_flags arg0 p w) as [Hflags Hindex].
  split; [exact Hflags|].
  split; [rewrite Hflags; apply SortStableFunc_perm|].
  split; [rewrite Hflags; apply SortStableFunc_sorted|].
  split; [exact Hindex|].
  split.
  { intros w'. split.
    - rewrite checkRequiredFlags_filter, Hflags. reflexivity.
    - rewrite Hflags. apply filter_sorted, SortStableFunc_sorted. }
  exists lettersParser, lettersWorld. split; [apply twoRequired_state|].
  split; [reflexivity|].
  split; [vm_compute; reflexivity|].
  split; vm_compute; reflexivity.
Qed.

(** ** The names taken at construction *)

Lemma registerFlag_panics (p : Parser) (nm : string) (f : flag) :
  panics (registerFlag p nm f) = bool_decide (is_Some (flagIndex p !! nm)).
Proof.
  unfold registerFlag. destruct (flagIndex p !! nm) as [u|] eqn:H; cbn [panics].
  - symmetry. apply bool_decide_eq_true_2. eauto.
  - symmetry. apply bool_decide_eq_false_2. intros [u Hu]. discriminate Hu.
Qed.

Lemma registerNew_panics {t} (f : Flag t) (nm : string) (p : Parser) (w : World) :
  is_Some (flagIndex p !! nm) -> panics (registerNew f nm p w) = true.
Proof.
  intros [u Hu]. unfold registerNew, registerFlag. cbn [alloc]. rewrite Hu. reflexivity.
Qed.

Lemma later_index (p0 p : Parser) (nm : string) :
  later p0 p -> is_Some (flagIndex p0 !! nm) -> is_Some (flagIndex p !! nm).
Proof.
  induction 1 as [|p p' nm' f _ IH Hreg|p arg0 w _ IH]; intros H0.
  - exact H0.
  - destruct (registerFlag_appends _ _ _ _ Hreg) as [_ ->].
    apply lookup_insert_is_Some'. right. apply IH, H0.
  - apply IH, H0.
Qed.

Lemma options_keep (opts : list Option) (p : Parser) :
  Forall keepsNames opts ->
  helpFlagName (foldl (fun p opt => opt p) p opts) = helpFlagName p
  /\ appVersionFlagName (foldl (fun p opt => opt p) p opts) = appVersionFlagName p
  /\ flags (foldl (fun p opt => opt p) p opts) = flags p
  /\ flagIndex (foldl (fun p opt => opt p) p opts) = flagIndex p.
Proof.
  intros Hall. revert p. induction Hall as [|opt opts Hopt _ IH]; intros p; [auto|].
  cbn [foldl]. destruct (IH (opt p)) as (-> & -> & -> & ->). apply Hopt.
Qed.

Lemma taken_name_panics (p p' : Parser) (nm : string) :
  later p p' -> is_Some (flagIndex p !! nm) ->
  forall f tgt description w2,
    panics (registerFlag p' nm f) = true
    /\ panics (Parser_Bool tgt nm description p' w2) = true
    /\ panics (Parser_Int tgt nm description p' w2) = true
    /\ panics (Parser_String tgt nm description p' w2) = true.
Proof.
  intros Hlater H0 f tgt description w2.
  pose proof (later_index _ _ _ Hlater H0) as Hsome.
  split; [rewrite registerFlag_panics; apply bool_decide_eq_true_2; exact Hsome|].
  repeat split; apply registerNew_panics; exact Hsome.
Qed.

(** C10: with options that keep the default names, [New] succeeds and
    has registered the help toggle under [help], and the version toggle
    under [version] exactly when a version string was configured; from
    then on, after any registrations and calls of [printHelp], a
    registration under [help] panics, and so does one under [version]
    when a version string was configured. *)
Theorem reserved_names_panic (opts : list Option) (w : World) :
  Forall keepsNames opts ->
  (keepsNames (WithEnvVarPrefix "APP_") /\ keepsNames WithoutAutoEnv
   /\ keepsNames (WithAppVersion "1.2.3") /\ keepsNames (WithAppName "app")
   /\ keepsNames (WithEnvVarFormatter ToUpper))
  /\ exists p w',
      New opts w = Done (p, w')
      /\ helpFlagName p = "help" /\ appVersionFlagName p = "version"
      /\ flagIndex p !! "help" = Some (List.length (heap w))
      /\ flagIndex p !! "version"
         = (if (appVersion p =? EmptyString)%string then None
            else Some (S (List.length (heap w))))
      /\ forall p',
          later p p' ->
          (forall f tgt description w2,
              panics (registerFlag p' "help" f) = true
              /\ panics (Parser_Bool tgt "help" description p' w2) = true
              /\ panics (Parser_Int tgt "help" description p' w2) = true
              /\ panics (Parser_String tgt "help" description p' w2) = true)
          /\ ((appVersion p =? EmptyString)%string = false ->
              forall f tgt description w2,
                panics (registerFlag p' "version" f) = true
                /\ panics (Parser_Bool tgt "version" description p' w2) = true
                /\ panics (Parser_Int tgt "version" description p' w2) = true
                /\ panics (Parser_String tgt "version" description p' w2) = true).
Proof.
  intros Hall. split; [repeat split|].
  unfold New.
  set (p0 := mkParser defaultEnvVarFormatter EmptyString true "help" EmptyString EmptyString
                      "version" [] ∅).
  destruct (options_keep opts p0 Hall) as (Hh & Hv & Hf & Hi).
  set (p1 := foldl (fun p opt => opt p) p0 opts) in *.
  cbn [alloc heap]. unfold registerFlag at 1.
  rewrite Hi, Hh. cbn [flagIndex p0 helpFlagName]. rewrite lookup_empty.
  cbn [appVersion appVersionFlagName].
  destruct (appVersion p1 =? EmptyString)%string eqn:Hver; cbn [negb].
  - eexists _, _. split; [reflexivity|].
    cbn [helpFlagName appVersionFlagName flagIndex appVersion].
    split; [reflexivity|]. split; [exact Hv|].
    split; [apply lookup_insert_eq|].
    rewrite Hver. split; [rewrite lookup_insert_ne by discriminate; apply lookup_empty|].
    intros p' Hlater. split; [|discriminate].
    apply (taken_name_panics _ _ _ Hlater). cbn [flagIndex].
    rewrite lookup_insert_eq. eauto.
  - unfold registerFlag. cbn [flagIndex]. rewrite Hv. cbn [p0 appVersionFlagName].
    rewrite lookup_insert_ne by discriminate. rewrite lookup_empty.
    eexists _, _. split; [reflexivity|].
    cbn [helpFlagName appVersionFlagName flagIndex appVersion].
    split; [reflexivity|]. split; [reflexivity|].
    split; [rewrite lookup_insert_ne by discriminate; apply lookup_insert_eq|].
    rewrite Hver, length_app. cbn [List.length].
    split; [rewrite lookup_insert_eq; f_equal; lia|].
    intros p' Hlater. split.
    + apply (taken_name_panics _ _ _ Hlater). cbn [flagIndex].
      rewrite lookup_insert_ne by discriminate. rewrite lookup_insert_eq. eauto.
    + intros _. apply (taken_name_panics _ _ _ Hlater). cbn [flagIndex].
      rewrite lookup_insert_eq. eauto.
Qed.

Lemma reserved_names_panic_witness :
  Forall keepsNames [WithAppName "test-app"; WithAppVersion "1.2.3"]
  /\ exists p w,
      New [WithAppName "test-app"; WithAppVersion "1.2.3"] (mkWorld ∅ ∅ []) = Done (p, w)
      /\ flagIndex p !! "help" = Some 0%nat.
Proof.
  assert (H : Forall keepsNames [WithAppName "test-app"; WithAppVersion "1.2.3"]).
  { repeat constructor. }
  split; [exact H|].
  destruct (reserved_names_panic [WithAppName "test-app"; WithAppVersion "1.2.3"]
                                 (mkWorld ∅ ∅ []) H)
    as (_ & p & w & Hnew & _ & _ & Hhelp & _).
  exists p, w. split; [exact Hnew|exact Hhelp].
Defined.

(** * Further properties of the code *)

(** ** The constraints of a descriptor *)

Lemma call_wellConfigured {t} (env : gmap string string) (c : method t) (f f' : Flag t)
      (m m' : memory) :
  call env c f m = Done (f', m') ->
  wellConfigured f = true ->
  wellConfigured f' = true
  /\ name f' = name f /\ target f' = target f /\ isBool f' = isBool f
  /\ helpMessage f' = helpMessage f /\ parseFunc f' = parseFunc f.
Proof.
  unfold wellConfigured.
  destruct c; cbn [call];
    unfold Placeholder, Default, Required, setValueFromEnv, setValueFromString,
      setValueFromDefault;
    try destruct (LookupEnv env (envVarName f)) as [s0|];
    try match goal with |- context [parseFunc f ?x] =>
          destruct (parseFunc f x) as [val0 [err0|]] end;
    destruct (isBool f) eqn:Hb, (required f) eqn:Hr, (defaultValueSet f) eqn:Hd;
    try discriminate;
    intros [= <- <-] Hw; cbn in Hw |- *; rewrite ?Hb, ?Hr, ?Hd;
    repeat split; try reflexivity; try exact Hw; try discriminate Hw.
Qed.

(** X1: the descriptors the constructors return satisfy the constraints
    (not both required and with a default; a boolean descriptor has
    neither, and no placeholder), and no sequence of method calls that
    returns breaks them or changes the name, the target, the help
    message, the parse function or whether the descriptor is boolean. *)
Theorem calls_keep_constraints
        (t : ty) (env : gmap string string) (cs : list (method t)) (f f' : Flag t)
        (m m' : memory) :
  wellConfigured f = true ->
  calls env cs f m = Done (f', m') ->
  wellConfigured f' = true
  /\ name f' = name f /\ target f' = target f /\ isBool f' = isBool f
  /\ helpMessage f' = helpMessage f /\ parseFunc f' = parseFunc f
  /\ (forall tgt nm help,
        wellConfigured (NewBoolFlag tgt nm help) = true
        /\ wellConfigured (NewIntFlag tgt nm help) = true
        /\ wellConfigured (NewStringFlag tgt nm help) = true).
Proof.
  intros Hw Hcalls.
  assert (H : wellConfigured f' = true
              /\ name f' = name f /\ target f' = target f /\ isBool f' = isBool f
              /\ helpMessage f' = helpMessage f /\ parseFunc f' = parseFunc f).
  { revert f m Hw Hcalls. induction cs as [|c cs IH]; intros f m Hw; cbn [calls].
    - intros [= <- <-]. repeat split; [exact Hw|..]; reflexivity.
    - destruct (call env c f m) as [[f1 m1]|] eqn:Hc; [|discriminate].
      intros Hcs.
      destruct (call_wellConfigured env c f f1 m m1 Hc Hw) as (Hw1 & Hn & Ht & Hb & Hh & Hp).
      destruct (IH f1 m1 Hw1 Hcs) as (Hw' & Hn' & Ht' & Hb' & Hh' & Hp').
      rewrite Hn', Ht', Hb', Hh', Hp'. repeat split; assumption. }
  destruct H as (H1 & H2 & H3 & H4 & H5 & H6).
  repeat split; assumption || reflexivity.
Qed.

Lemma calls_keep_constraints_witness :
  let f := NewStringFlag (addr 0) "name" "Your name" in
  let cs := [callPlaceholder "NAME"; callEnv "USER_NAME"; callRequired;
             callSetValueFromString "Ada"] in
  let f' := @mkFlag TString (addr 0) false "name" "USER_NAME" "Your name" "NAME" EmptyString
                    false true true (parseFunc f) in
  wellConfigured f = true
  /\ calls ∅ cs f ∅ = Done (f', <[addr 0 := VString "Ada"]> ∅)
  /\ wellConfigured f' = true /\ name f' = name f.
Proof.
  split; [reflexivity|]. split; [reflexivity|].
  pose proof (calls_keep_constraints
                TString ∅
                [callPlaceholder "NAME"; callEnv "USER_NAME"; callRequired;
                 callSetValueFromString "Ada"]
                (NewStringFlag (addr 0) "name" "Your name")
                (@mkFlag TString (addr 0) false "name" "USER_NAME" "Your name" "NAME"
                         EmptyString false true true
                         (parseFunc (NewStringFlag (addr 0) "name" "Your name")))
                ∅ (<[addr 0 := VString "Ada"]> ∅) eq_refl eq_refl) as (Hw & Hn & _).
  split; [exact Hw|exact Hn].
Defined.

(** ** The list of errors *)

Lemma collect_length (err : option error) : (List.length (collect [] err) <= 1)%nat.
Proof. destruct err; cbn; lia. Qed.

(** One turn of the second loop either ends it, with at most one more
    error, or calls [set] once and goes on with fewer tokens. *)
Lemma tokenize_cases (p : Parser) (arg : string) (rest : list string) (w : World) :
  (exists l, (List.length l <= 1)%nat
             /\ forall errs, tokenize p (arg :: rest) w errs = (w, errs ++ l))
  \/ (exists nm val rest',
         (List.length rest' <= List.length rest)%nat
         /\ forall errs,
             tokenize p (arg :: rest) w errs
             = tokenize p rest' (fst (Parser_set p nm val w))
                        (collect errs (snd (Parser_set p nm val w)))).
Proof.
  destruct rest as [|next rest].
  - cbn [tokenize]. destruct (negb _).
    { left. eexists. split; [|reflexivity]. cbn. lia. }
    destruct (_ =? _)%string.
    { left. exists []. split; [cbn; lia|]. intros errs. rewrite app_nil_r. reflexivity. }
    destruct (Index _ _) as [i|].
    + right. exists (sliceTo (TrimPrefix arg "--") i), (sliceFrom (TrimPrefix arg "--") (i + 1)), [].
      split; [reflexivity|]. intros errs. destruct (Parser_set p _ _ w). reflexivity.
    + right. exists (TrimPrefix arg "--"), "true", [].
      split; [reflexivity|]. intros errs. destruct (Parser_set p _ _ w). reflexivity.
  - destruct (negb (HasPrefix arg "--")) eqn:H1.
    { left. eexists. split; [|intros errs; rewrite tokenize_followed, H1; reflexivity].
      cbn. lia. }
    destruct (TrimPrefix arg "--" =? EmptyString)%string eqn:H2.
    { left. eexists. split; [|intros errs; rewrite tokenize_followed, H1, H2; reflexivity].
      cbn. lia. }
    destruct (Index (TrimPrefix arg "--") "=") as [i|] eqn:H3.
    { right.
      exists (sliceTo (TrimPrefix arg "--") i), (sliceFrom (TrimPrefix arg "--") (i + 1)),
             (next :: rest).
      split; [reflexivity|]. intros errs.
      rewrite tokenize_followed, H1, H2, H3. destruct (Parser_set p _ _ w). reflexivity. }
    destruct (HasPrefix next "--") eqn:H4.
    + right. exists (TrimPrefix arg "--"), "true", (next :: rest).
      split; [reflexivity|]. intros errs.
      rewrite tokenize_followed, H1, H2, H3, H4. destruct (Parser_set p _ _ w). reflexivity.
    + right. exists (TrimPrefix arg "--"), next, rest. split; [cbn; lia|]. intros errs.
      rewrite tokenize_followed, H1, H2, H3, H4. destruct (Parser_set p _ _ w). reflexivity.
Qed.

Lemma tokenize_appends (p : Parser) (args : list string) :
  forall w errs,
    tokenize p args w errs
    = (fst (tokenize p args w []), errs ++ snd (tokenize p args w []))
    /\ (List.length (snd (tokenize p args w [])) <= List.length args)%nat.
Proof.
  induction args as [args IH] using (induction_ltof1 _ (@List.length string)).
  unfold ltof in IH. intros w errs.
  destruct args as [|arg rest]; [cbn; rewrite app_nil_r; split; [reflexivity|lia]|].
  destruct (tokenize_cases p arg rest w) as [(l & Hl & Hhalt) | (nm & val & rest' & Hlen & Hgo)].
  - rewrite (Hhalt errs), (Hhalt []). cbn [fst snd app List.length]. split; [reflexivity|lia].
  - rewrite (Hgo errs), (Hgo []).
    assert (Hlt : (List.length rest' < List.length (arg :: rest))%nat) by (cbn; lia).
    destruct (IH rest' Hlt (fst (Parser_set p nm val w))
                 (collect errs (snd (Parser_set p nm val w)))) as [-> _].
    destruct (IH rest' Hlt (fst (Parser_set p nm val w))
                 (collect [] (snd (Parser_set p nm val w)))) as [-> Hbound].
    cbn [fst snd]. split.
    + rewrite (collect_app errs), <- app_assoc. reflexivity.
    + rewrite length_app. pose proof (collect_length (snd (Parser_set p nm val w))).
      cbn [List.length]. lia.
Qed.

Lemma seed_appends (v : flag) (w : World) (errs : list error) :
  seed v (w, errs) = (fst (seed v (w, [])), errs ++ snd (seed v (w, [])))
  /\ (List.length (snd (seed v (w, []))) <= 1)%nat.
Proof.
  unfold seed. destruct (flag_setValueFromEnv v (flag_setValueFromDefault v w)) as [w1 err].
  cbn [fst snd]. split; [rewrite (collect_app errs); reflexivity|apply collect_length].
Qed.

Lemma seeds_appends (iter : list (string * flag)) :
  forall w errs,
    foldl (fun st kv => seed (snd kv) st) (w, errs) iter
    = (fst (foldl (fun st kv => seed (snd kv) st) (w, []) iter),
       errs ++ snd (foldl (fun st kv => seed (snd kv) st) (w, []) iter))
    /\ (List.length (snd (foldl (fun st kv => seed (snd kv) st) (w, []) iter))
        <= List.length iter)%nat.
Proof.
  induction iter as [|[k u] iter IH]; intros w errs.
  - cbn. rewrite app_nil_r. split; [reflexivity|lia].
  - cbn [foldl snd].
    destruct (seed_appends u w errs) as [Hs Hone].
    destruct (seed u (w, [])) as [w1 e1]. cbn [fst snd] in Hs, Hone. rewrite Hs.
    destruct (IH w1 (errs ++ e1)) as [-> _].
    destruct (IH w1 e1) as [-> Hbound].
    cbn [fst snd List.length]. split.
    + rewrite <- app_assoc. reflexivity.
    + rewrite length_app. lia.
Qed.

(** X2: errors are only ever appended. The state the second loop ends in
    does not depend on the errors collected so far, which stay at the
    front in their order; each token adds at most one error and each
    entry of the index at most one, and the errors of the first loop
    (the environment) come first and are the same whatever the
    arguments. *)
Theorem parse_errors_accumulate
        (p : Parser) (iter : list (string * flag)) (args : list string) (w : World)
        (errs : list error) :
  tokenize p args w errs = (fst (tokenize p args w []), errs ++ snd (tokenize p args w []))
  /\ (List.length (snd (tokenize p args w [])) <= List.length args)%nat
  /\ snd (parse p iter args w)
     = snd (parse p iter [] w) ++ snd (tokenize p args (fst (parse p iter [] w)) [])
  /\ (List.length (snd (parse p iter [] w)) <= List.length iter)%nat
  /\ (List.length (snd (parse p iter args w)) <= List.length iter + List.length args)%nat.
Proof.
  destruct (tokenize_appends p args w errs) as [Happ Hlen].
  split; [exact Happ|]. split; [exact Hlen|].
  rewrite !parse_unfold. cbn [tokenize fst snd].
  set (st := foldl (fun st kv => seed (snd kv) st) (w, []) iter).
  destruct (tokenize_appends p args (fst st) (snd st)) as [-> Hlen'].
  destruct (seeds_appends iter w []) as [_ Hseeds]. fold st in Hseeds.
  cbn [fst snd]. split; [reflexivity|]. split; [exact Hseeds|].
  rewrite length_app. lia.
Qed.

(** ** Registration *)

Lemma registerNew_done {t} (f : Flag t) (nm : string) (p : Parser) (w : World) :
  flagIndex p !! nm = None ->
  registerNew f nm p w
  = Done (List.length (heap w),
          mkParser (envVarFormatter p) (envVarPrefix p) (autoEnv p) (helpFlagName p)
                   (appName p) (appVersion p) (appVersionFlagName p)
                   (flags p ++ [List.length (heap w)])
                   (<[nm := List.length (heap w)]> (flagIndex p)),
          mkWorld (environ w) (mem w)
                  (heap w ++ [desc t (if autoEnv p
                                      then Env f (envVarPrefix p +:+ envVarFormatter p nm)
                                      else f)])).
Proof.
  intros Hfree. unfold registerNew, registerFlag. cbn [alloc]. rewrite Hfree.
  cbn [autoEnv envVarPrefix envVarFormatter]. destruct (autoEnv p); [|reflexivity].
  unfold flag_Env, flag_configure. cbn [heap environ mem].
  rewrite lookup_app_r by lia. rewrite Nat.sub_diag. cbn [lookup list_lookup].
  rewrite insert_app_r_alt by lia. rewrite Nat.sub_diag. reflexivity.
Qed.

(** X3: a registration method panics exactly when the name is taken;
    otherwise it returns the next address of the heap, appends it to
    [p.flags], enters it in the index under the name, and stores the
    descriptor with the environment variable [prefix + formatter(name)],
    or, after [WithoutAutoEnv], as it was built. The memory of the
    targets and the environment are left alone, and a descriptor with
    no environment variable never reads the environment. *)
Theorem registration_result
        (t : ty) (f : Flag t) (nm : string) (p p' : Parser) (w w' : World) (v : flag) :
  registerNew f nm p w = Done (v, p', w') ->
  flagIndex p !! nm = None
  /\ v = List.length (heap w)
  /\ flags p' = flags p ++ [v]
  /\ flagIndex p' = <[nm := v]> (flagIndex p)
  /\ heap w' = heap w ++ [desc t (if autoEnv p
                                  then Env f (envVarPrefix p +:+ envVarFormatter p nm)
                                  else f)]
  /\ mem w' = mem w /\ environ w' = environ w
  /\ autoEnv p' = autoEnv p /\ envVarPrefix p' = envVarPrefix p
  /\ (forall (g : Flag t) nm' p0 w0,
        panics (registerNew g nm' p0 w0) = bool_decide (is_Some (flagIndex p0 !! nm')))
  /\ (forall (g : Flag t) env m,
        envVarName g = EmptyString -> setValueFromEnv env g m = (g, m, None)).
Proof.
  intros Hreg.
  assert (Hfree : flagIndex p !! nm = None).
  { destruct (flagIndex p !! nm) eqn:H; [|reflexivity].
    pose proof (registerNew_panics f nm p w (ex_intro _ _ H)) as Hp.
    rewrite Hreg in Hp. discriminate Hp. }
  rewrite (registerNew_done f nm p w Hfree) in Hreg. injection Hreg as <- <- <-.
  repeat split; try reflexivity; try exact Hfree.
  - intros g nm' p0 w0. destruct (flagIndex p0 !! nm') as [u|] eqn:H.
    + rewrite (registerNew_panics g nm' p0 w0) by (rewrite H; eauto).
      symmetry. apply bool_decide_eq_true_2. eauto.
    + rewrite (registerNew_done g nm' p0 w0 H). symmetry.
      apply bool_decide_eq_false_2. intros [u Hu]. discriminate Hu.
  - intros g env m Hempty. apply setValueFromEnv_absent. rewrite Hempty. reflexivity.
Qed.

Lemma registration_result_witness :
  let p0 := parserOf [0%nat] (<["help" := 0%nat]> ∅) in
  let w0 := mkWorld ∅ freshMemory [helpDescriptor] in
  Parser_Int (addr 0) "count" "Number of items" p0 w0
  = Done (1%nat, countParser,
          mkWorld ∅ freshMemory
                  [helpDescriptor;
                   desc TInt (Env (NewIntFlag (addr 0) "count" "Number of items") "COUNT")])
  /\ flagIndex countParser = <["count" := 1%nat]> (flagIndex p0).
Proof.
  split; [reflexivity|].
  pose proof (registration_result
                TInt (NewIntFlag (addr 0) "count" "Number of items") "count"
                (parserOf [0%nat] (<["help" := 0%nat]> ∅)) countParser
                (mkWorld ∅ freshMemory [helpDescriptor])
                (mkWorld ∅ freshMemory
                         [helpDescriptor;
                          desc TInt (Env (NewIntFlag (addr 0) "count" "Number of items")
                                         "COUNT")])
                1%nat eq_refl) as (_ & _ & _ & Hindex & _).
  exact Hindex.
Defined.

(** ** The default name of the environment variable *)

Lemma upperByte_facts (c : ascii) :
  isASCII c = true ->
  isASCII (upperByte c) = true /\ isLower (upperByte c) = false
  /\ upperByte (upperByte c) = upperByte c.
Proof.
  destruct c as [[] [] [] [] [] [] [] []]; intros H; try discriminate H;
    repeat split; reflexivity.
Qed.

Lemma mapBytes_bytes (g : ascii -> ascii) (s : string) :
  bytes (mapBytes g s) = map g (bytes s).
Proof. induction s as [|c s IH]; cbn; [reflexivity|]. f_equal. exact IH. Qed.

Lemma mapBytes_length (g : ascii -> ascii) (s : string) :
  String.length (mapBytes g s) = String.length s.
Proof. induction s as [|c s IH]; cbn; [reflexivity|]. f_equal. exact IH. Qed.

Lemma mapBytes_append (g : ascii -> ascii) (a b : string) :
  mapBytes g (a +:+ b) = mapBytes g a +:+ mapBytes g b.
Proof.
  induction a as [|c a IH]; [reflexivity|].
  rewrite append_String. cbn [mapBytes]. rewrite append_String. f_equal. exact IH.
Qed.

Lemma bytes_inj (a b : string) : bytes a = bytes b -> a = b.
Proof.
  unfold bytes. intros H.
  rewrite <- (string_of_list_ascii_of_string a), <- (string_of_list_ascii_of_string b), H.
  reflexivity.
Qed.

(** X4: on an ASCII name the default formatter of [New] returns an
    ASCII string of the same length without lower-case letters and
    without dashes, and formatting it again changes nothing; cut in two
    pieces anywhere, the name is formatted piece by piece. *)
Theorem defaultEnvVarFormatter_shape (s : string) :
  Forall (fun c => isASCII c = true) (bytes s) ->
  String.length (defaultEnvVarFormatter s) = String.length s
  /\ Forall (fun c => isASCII c = true /\ isLower c = false /\ c <> "-"%char)
            (bytes (defaultEnvVarFormatter s))
  /\ defaultEnvVarFormatter (defaultEnvVarFormatter s) = defaultEnvVarFormatter s
  /\ (forall a b,
        s = a +:+ b ->
        defaultEnvVarFormatter s = defaultEnvVarFormatter a +:+ defaultEnvVarFormatter b).
Proof.
  intros Hascii. unfold defaultEnvVarFormatter, ReplaceAllByte, ToUpper.
  split; [rewrite !mapBytes_length; reflexivity|].
  assert (Hbyte : forall c, isASCII c = true ->
            let d := (if Ascii.eqb (upperByte c) "-" then "_"%char else upperByte c) in
            (isASCII d = true /\ isLower d = false /\ d <> "-"%char)
            /\ (if Ascii.eqb (upperByte d) "-" then "_"%char else upperByte d) = d).
  { intros c. destruct c as [[] [] [] [] [] [] [] []]; intros H; try discriminate H;
      cbv; repeat split; discriminate. }
  split.
  { rewrite !mapBytes_bytes, map_map. apply Forall_map.
    eapply Forall_impl; [exact Hascii|]. intros c Hc. exact (proj1 (Hbyte c Hc)). }
  split.
  { apply bytes_inj. rewrite !mapBytes_bytes, !map_map.
    apply map_ext_Forall. eapply Forall_impl; [exact Hascii|].
    intros c Hc. exact (proj2 (Hbyte c Hc)). }
  intros a b ->. rewrite !mapBytes_append. reflexivity.
Qed.

Lemma defaultEnvVarFormatter_shape_witness :
  Forall (fun c => isASCII c = true) (bytes "my-bool-flag")
  /\ defaultEnvVarFormatter "my-bool-flag" = "MY_BOOL_FLAG"
  /\ String.length (defaultEnvVarFormatter "my-bool-flag") = String.length "my-bool-flag".
Proof.
  assert (H : Forall (fun c => isASCII c = true) (bytes "my-bool-flag")).
  { repeat constructor. }
  split; [exact H|]. split; [reflexivity|].
  exact (proj1 (defaultEnvVarFormatter_shape "my-bool-flag" H)).
Defined.

(** ** [Parse] *)

Lemma filter_nil_iff {A} (keep : A -> bool) (l : list A) :
  List.filter keep l = [] <-> forall x, x ∈ l -> keep x = false.
Proof.
  induction l as [|y l IH]; cbn [List.filter].
  - split; [intros _ x Hx; inversion Hx|reflexivity].
  - destruct (keep y) eqn:Hy.
    + split; [discriminate|]. intros H. rewrite (H y (list_elem_of_here _ _)) in Hy.
      discriminate Hy.
    + rewrite IH. split.
      * intros H x Hx. apply elem_of_cons in Hx as [->|Hx]; [exact Hy|exact (H x Hx)].
      * intros H x Hx. apply H. right. exact Hx.
Qed.

Lemma checkRequiredFlags_nil (p : Parser) (w : World) :
  checkRequiredFlags p w = []
  <-> forall v, v ∈ flags p -> flag_isRequired w v = true -> flag_isSet w v = true.
Proof.
  rewrite checkRequiredFlags_filter. split.
  - intros H v Hv Hreq. apply map_eq_nil in H.
    pose proof (proj1 (filter_nil_iff _ _) H v Hv) as Hu.
    unfold unmet in Hu. rewrite Hreq in Hu. cbn in Hu.
    destruct (flag_isSet w v); [reflexivity|discriminate Hu].
  - intros H. rewrite (proj2 (filter_nil_iff (unmet w) (flags p))); [reflexivity|].
    intros v Hv. unfold unmet. destruct (flag_isRequired w v) eqn:Hreq; [|reflexivity].
    rewrite (H v Hv Hreq). reflexivity.
Qed.

Lemma append_assoc (a b c : string) : (a +:+ b) +:+ c = a +:+ (b +:+ c).
Proof.
  induction a as [|x a IH]; [rewrite !append_empty; reflexivity|].
  rewrite !append_String, IH. reflexivity.
Qed.

(** X5: how [Parse] ends.  It leaves the state [parse] left.  It returns
    to its caller exactly when the pass has no error, neither toggle was
    called and every required descriptor of [p.flags] is set.  Any error
    of the pass makes it exit with failure, whether or not help was
    asked for, and what it prints is every error on a line of its own
    and the hint (stated for errors that quote ASCII text).  Without
    errors, help comes before the version, and the version before the
    check of the required flags, whose errors are all printed, one for
    each unset required descriptor in the order of [p.flags]. *)
Theorem Parse_returns_resolved
        (arg0 : string) (args : list string) (iter : list (string * flag))
        (p : Parser) (w : World) :
  fst (Parse arg0 args iter p w) = fst (parse p iter args w)
  /\ (snd (Parse arg0 args iter p w) = Returns <->
      snd (parse p iter args w) = []
      /\ readBool (mem (fst (parse p iter args w))) addrHelpCalled = false
      /\ readBool (mem (fst (parse p iter args w))) addrVersionCalled = false
      /\ forall v, v ∈ flags p ->
                   flag_isRequired (fst (parse p iter args w)) v = true ->
                   flag_isSet (fst (parse p iter args w)) v = true)
  /\ (snd (parse p iter args w) <> [] ->
      exists stderr, snd (Parse arg0 args iter p w) = ExitErrors stderr)
  /\ (snd (parse p iter args w) <> [] ->
      Forall (fun e => quotesASCII e = true) (snd (parse p iter args w)) ->
      snd (Parse arg0 args iter p w) = ExitErrors (printErrs p (snd (parse p iter args w))))
  /\ (snd (parse p iter args w) = [] ->
      readBool (mem (fst (parse p iter args w))) addrHelpCalled = true ->
      snd (Parse arg0 args iter p w)
      = ExitHelp (snd (printHelp arg0 p (fst (parse p iter args w)))))
  /\ (snd (parse p iter args w) = [] ->
      readBool (mem (fst (parse p iter args w))) addrHelpCalled = false ->
      readBool (mem (fst (parse p iter args w))) addrVersionCalled = true ->
      snd (Parse arg0 args iter p w) = ExitVersion (printVersion p))
  /\ (snd (parse p iter args w) = [] ->
      readBool (mem (fst (parse p iter args w))) addrHelpCalled = false ->
      readBool (mem (fst (parse p iter args w))) addrVersionCalled = false ->
      checkRequiredFlags p (fst (parse p iter args w)) <> [] ->
      snd (Parse arg0 args iter p w)
      = ExitErrors (printErrs p (checkRequiredFlags p (fst (parse p iter args w)))))
  /\ checkRequiredFlags p (fst (parse p iter args w))
     = map (missing (fst (parse p iter args w)))
           (List.filter (unmet (fst (parse p iter args w))) (flags p))
  /\ (forall errs,
        printErrs p errs
        = foldr (fun e out => Error e +:+ String newline out)
                (String newline
                        ("Use '--" +:+ helpFlagName p +:+ "' flag for more info."
                                   +:+ String newline EmptyString))
                errs).
Proof.
  assert (Hprint : forall errs,
             printErrs p errs
             = foldr (fun e out => Error e +:+ String newline out)
                     (String newline
                             ("Use '--" +:+ helpFlagName p +:+ "' flag for more info."
                                        +:+ String newline EmptyString))
                     errs).
  { intros errs. unfold printErrs.
    enough (H : forall acc rest,
               foldl (fun out err => out +:+ Error err +:+ String newline EmptyString) acc errs
               +:+ rest
               = acc +:+ foldr (fun e out => Error e +:+ String newline out) rest errs).
    { rewrite (H EmptyString). reflexivity. }
    induction errs as [|e errs IH]; intros acc rest; [reflexivity|].
    cbn [foldl foldr]. rewrite IH, !append_assoc. reflexivity. }
  split; [unfold Parse; destruct (parse p iter args w) as [w' errs];
          destruct errs; [|reflexivity];
          destruct (readBool _ addrHelpCalled); [reflexivity|];
          destruct (readBool _ addrVersionCalled); [reflexivity|];
          destruct (checkRequiredFlags p w'); reflexivity|].
  split; [|split; [|split; [|split; [|split; [|split; [|split]]]]]];
    try exact Hprint; try apply checkRequiredFlags_filter;
    unfold Parse; destruct (parse p iter args w) as [w' errs]; cbn [fst snd];
    destruct errs as [|e errs].
  - destruct (readBool (mem w') addrHelpCalled) eqn:Hh.
    { split; [discriminate|]. intros (_ & H & _). discriminate H. }
    destruct (readBool (mem w') addrVersionCalled) eqn:Hv.
    { split; [discriminate|]. intros (_ & _ & H & _). discriminate H. }
    destruct (checkRequiredFlags p w') as [|e errs] eqn:Hc.
    + split; [|reflexivity]. intros _. repeat split.
      apply checkRequiredFlags_nil. exact Hc.
    + split; [discriminate|]. intros (_ & _ & _ & H).
      apply checkRequiredFlags_nil in H. rewrite H in Hc. discriminate Hc.
  - split; [discriminate|]. intros [H _]. discriminate H.
  - intros H. contradiction.
  - intros _. eexists. reflexivity.
  - intros H. contradiction.
  - intros _ _. reflexivity.
  - intros _ ->. reflexivity.
  - intros H. discriminate H.
  - intros _ -> ->. reflexivity.
  - intros H. discriminate H.
  - intros _ -> -> Hc. destruct (checkRequiredFlags p w'); [contradiction|reflexivity].
  - intros H. discriminate H.
Qed.

Lemma Parse_returns_resolved_witness :
  snd (Parse "app" [] [("help", 0%nat); ("zeta", 1%nat); ("alpha", 2%nat)]
             lettersParser lettersWorld)
  = ExitErrors
      ("missing required flag: --zeta"
         +:+ String newline
               ("missing required flag: --alpha"
                  +:+ String newline
                        (String newline
                                ("Use '--help' flag for more info."
                                   +:+ String newline EmptyString)))).
Proof.
  destruct (Parse_returns_resolved
              "app" [] [("help", 0%nat); ("zeta", 1%nat); ("alpha", 2%nat)]
              lettersParser lettersWorld)
    as (_ & _ & _ & _ & _ & _ & Hrequired & _).
  rewrite Hrequired; [reflexivity|reflexivity|reflexivity|reflexivity|discriminate].
Defined.

Lemma parse_holds (p : Parser) (iter : list (string * flag)) (args : list string) (w : World)
      (v : flag) {t} (f : Flag t) :
  heap w !! v = Some (desc t f) -> holds (fst (parse p iter args w)) v f.
Proof.
  intros Hv.
  apply (parse_invariant p iter (fun _ => True) (fun w' => holds w' v f)); auto.
  - intros u w1 w2 _ Ht. exact (touched_holds u w1 w2 v f Ht).
  - apply holds_here. exact Hv.
Qed.

(** X6: asking for help wins over missing required flags. When the pass
    over the environment reports no error and the help toggle is
    registered under [n] with [p.helpCalled] as its target, the single
    argument [--n] makes [Parse] print the help and exit with success,
    whatever required flags are unset. *)
Theorem help_wins_over_required
        (arg0 n : string) (iter : list (string * flag)) (p : Parser) (w : World)
        (v : flag) (f : Flag TBool) :
  (n =? EmptyString)%string = false ->
  Index n "=" = None ->
  flagIndex p !! n = Some v ->
  heap w !! v = Some (desc TBool f) ->
  target f = addrHelpCalled ->
  parseFunc f = ParseBool ->
  snd (parse p iter [] w) = [] ->
  snd (parse p iter ["--" +:+ n] w) = []
  /\ readBool (mem (fst (parse p iter ["--" +:+ n] w))) addrHelpCalled = true
  /\ snd (Parse arg0 ["--" +:+ n] iter p w)
     = ExitHelp (snd (printHelp arg0 p (fst (parse p iter ["--" +:+ n] w)))).
Proof.
  intros Hne Hn Hi Hv Ht Hp Hclean.
  assert (Hne' : n <> EmptyString) by (intros ->; discriminate Hne).
  assert (Hparse : snd (parse p iter ["--" +:+ n] w) = []
                   /\ readBool (mem (fst (parse p iter ["--" +:+ n] w))) addrHelpCalled = true).
  { pose proof (parse_holds p iter [] w v f Hv) as [b Hb].
    rewrite parse_unfold in Hclean, Hb. cbn [tokenize fst snd] in Hclean, Hb.
    rewrite parse_unfold.
    rewrite (tokenize_toggle_last _ _ _ _ Hne' Hn), (Parser_set_known _ _ _ _ _ Hi).
    unfold flag_setValueFromString. rewrite Hb.
    rewrite (setValueFromString_ok (withSet b f) "true" _ true)
      by (cbn [parseFunc withSet]; rewrite Hp; reflexivity).
    cbn [fst snd mem collect target withSet]. rewrite Hclean, Ht.
    split; [reflexivity|]. unfold readBool. rewrite lookup_insert_eq. reflexivity. }
  destruct Hparse as [Herrs Hhelp]. split; [exact Herrs|]. split; [exact Hhelp|].
  unfold Parse. destruct (parse p iter ["--" +:+ n] w) as [w' errs].
  cbn [fst snd] in *. rewrite Herrs, Hhelp. reflexivity.
Qed.

Lemma help_wins_over_required_witness :
  checkRequiredFlags countParser (countWorld ∅)
  = [Errorf "missing required flag: --" "count"]
  /\ snd (parse countParser (map_to_list (flagIndex countParser)) [] (countWorld ∅)) = []
  /\ snd (Parse "app" ["--help"] (map_to_list (flagIndex countParser)) countParser
                (countWorld ∅))
     = ExitHelp (snd (printHelp "app" countParser
                                (fst (parse countParser
                                            (map_to_list (flagIndex countParser))
                                            ["--help"] (countWorld ∅))))).
Proof.
  split; [reflexivity|].
  assert (Hclean : snd (parse countParser (map_to_list (flagIndex countParser)) []
                              (countWorld ∅)) = []) by (vm_compute; reflexivity).
  split; [exact Hclean|].
  apply (help_wins_over_required
           "app" "help" (map_to_list (flagIndex countParser)) countParser (countWorld ∅)
           0%nat (NewBoolFlag addrHelpCalled "help" "Show help message")
           eq_refl eq_refl eq_refl eq_refl eq_refl eq_refl Hclean).
Defined.

(** ** [printHelp] again *)

Lemma SortStableFunc_fixed (w : World) (l : list flag) :
  StronglySorted (nameLe w) l -> SortStableFunc (byName w) l = l.
Proof.
  induction 1 as [|x l Hl IH Hx]; [reflexivity|].
  cbn [SortStableFunc]. rewrite IH.
  destruct l as [|y l]; [reflexivity|]. cbn [insertStable].
  inversion Hx as [|? ? Hxy _]; subst. unfold nameLe in Hxy.
  destruct (byName w x y); [reflexivity|reflexivity|contradiction].
Qed.

Lemma printHelp_sorted (arg0 : string) (p : Parser) (w : World) :
  StronglySorted (nameLe w) (flags p) ->
  printHelp arg0 p w
  = (p, snd (printHelp arg0 p w)) /\ fst (printHelp arg0 p w) = p.
Proof.
  intros Hs. unfold printHelp.
  change (fun a b => Compare (flag_getName w a) (flag_getName w b)) with (byName w).
  rewrite (SortStableFunc_fixed w (flags p) Hs).
  destruct p; cbn. split; reflexivity.
Qed.

(** X7: [printHelp] is idempotent: a second call leaves the parser as
    the first call left it and writes the same text; on a parser whose
    [p.flags] is already in name order it changes nothing. The table it
    writes has one row for each registered descriptor. *)
Theorem printHelp_idempotent (arg0 : string) (p : Parser) (w : World) :
  printHelp arg0 (fst (printHelp arg0 p w)) w = printHelp arg0 p w
  /\ List.length (table (snd (printHelp arg0 p w))) = List.length (flags p)
  /\ (StronglySorted (nameLe w) (flags p) -> fst (printHelp arg0 p w) = p).
Proof.
  split.
  { destruct p as [fmt prefix auto helpName app version versionName fs index].
    cbv beta iota zeta delta [printHelp fst snd flags appName envVarFormatter envVarPrefix
                                        autoEnv helpFlagName appVersion appVersionFlagName
                                        flagIndex].
    change (fun a b => Compare (flag_getName w a) (flag_getName w b)) with (byName w).
    rewrite (SortStableFunc_fixed w _ (SortStableFunc_sorted w fs)). reflexivity. }
  split.
  { unfold printHelp. cbn [snd table flags]. rewrite length_map.
    apply Permutation_length, (SortStableFunc_perm _ (flags p)). }
  intros Hs. exact (proj2 (printHelp_sorted arg0 p w Hs)).
Qed.

(** ** The registry and the heap *)

Lemma names_insert_same (w : World) (v : flag) (d d' : descriptor) :
  heap w !! v = Some d -> descName d' = descName d ->
  map descName (<[v := d']> (heap w)) = names w.
Proof.
  intros Hv Hn. unfold names. rewrite list_fmap_insert, Hn.
  apply list_insert_id. rewrite list_lookup_fmap, Hv. reflexivity.
Qed.

Lemma touched_names (u : flag) (w w' : World) : touched u w w' -> names w' = names w.
Proof.
  intros [|t f val Hu]; [reflexivity|]. unfold names at 1. cbn [heap].
  apply (names_insert_same w u (desc t f)); [exact Hu|reflexivity].
Qed.

Lemma touched_wellConfigured (u : flag) (w w' : World) :
  touched u w w' ->
  Forall (fun d => descWellConfigured d = true) (heap w) ->
  Forall (fun d => descWellConfigured d = true) (heap w').
Proof.
  intros [|t f val Hu] Hall; [exact Hall|]. cbn [heap].
  apply Forall_insert; [exact Hall|].
  rewrite Forall_lookup in Hall. exact (Hall u _ Hu).
Qed.

Lemma flag_configure_kept (g : forall t, Flag t -> Result (Flag t)) (v : flag) (w w' : World) :
  (forall t f f', g t f = Done f' ->
                  name f' = name f /\ (wellConfigured f = true -> wellConfigured f' = true)) ->
  flag_configure g v w = Done w' ->
  names w' = names w
  /\ (Forall (fun d => descWellConfigured d = true) (heap w) ->
      Forall (fun d => descWellConfigured d = true) (heap w')).
Proof.
  intros Hg. unfold flag_configure.
  destruct (heap w !! v) as [[t f]|] eqn:Hv; [|discriminate].
  destruct (g t f) as [f'|] eqn:Hf; [|discriminate].
  intros [= <-]. destruct (Hg t f f' Hf) as [Hn Hw]. split.
  - unfold names at 1. cbn [heap].
    apply (names_insert_same w v (desc t f)); [exact Hv|exact Hn].
  - intros Hall. cbn [heap]. apply Forall_insert; [exact Hall|].
    rewrite Forall_lookup in Hall. apply Hw. exact (Hall v _ Hv).
Qed.

Lemma call_name {t} (env : gmap string string) (c : method t) (f f' : Flag t)
      (m m' : memory) :
  call env c f m = Done (f', m') -> name f' = name f.
Proof.
  destruct c; cbn [call];
    unfold Placeholder, Default, Required, setValueFromEnv, setValueFromString,
      setValueFromDefault;
    try destruct (LookupEnv env (envVarName f)) as [s0|];
    try match goal with |- context [parseFunc f ?x] =>
          destruct (parseFunc f x) as [val0 [err0|]] end;
    destruct (isBool f), (required f), (defaultValueSet f);
    try discriminate; intros [= <- <-]; reflexivity.
Qed.

Lemma builders_kept (envName ph : string) (t0 : ty) (val : denote t0)
      (t : ty) (f f' : Flag t) :
  Done (Env f envName) = Done f' \/ Placeholder f ph = Done f' \/ Required f = Done f'
  \/ match castValue t0 t val with
     | Some val' => Default f val'
     | None => Panic "type mismatch"
     end = Done f' ->
  name f' = name f /\ (wellConfigured f = true -> wellConfigured f' = true).
Proof.
  intros H.
  assert (Hcall : exists c m m', call ∅ c f m = Done (f', m')).
  { destruct H as [H|[H|[H|H]]].
    - exists (callEnv envName), ∅, ∅. cbn. injection H as <-. reflexivity.
    - exists (callPlaceholder ph), ∅, ∅. cbn. rewrite H. reflexivity.
    - exists callRequired, ∅, ∅. cbn. rewrite H. reflexivity.
    - destruct (castValue t0 t val) as [val'|]; [|discriminate H].
      exists (callDefault val'), ∅, ∅. cbn. rewrite H. reflexivity. }
  destruct Hcall as (c & m & m' & Hc). split.
  - exact (call_name ∅ c f f' m m' Hc).
  - intros Hw. exact (proj1 (call_wellConfigured ∅ c f f' m m' Hc Hw)).
Qed.

Lemma consistent_same (p : Parser) (w w' : World) :
  names w' = names w ->
  (Forall (fun d => descWellConfigured d = true) (heap w) ->
   Forall (fun d => descWellConfigured d = true) (heap w')) ->
  consistent p w -> consistent p w'.
Proof.
  intros Hn Hw (Ha & Hb & Hc & Hd). unfold consistent. rewrite Hn. auto.
Qed.

(** Allocation and [registerFlag] together. *)
Lemma register_consistent (p p' : Parser) (w : World) (nm : string) {t} (f : Flag t) :
  consistent p w -> name f = nm -> wellConfigured f = true ->
  registerFlag p nm (List.length (heap w)) = Done p' ->
  consistent p' (snd (alloc (desc t f) w)).
Proof.
  intros (Ha & Hb & Hc & Hd) Hname Hwc Hreg.
  assert (Hfree : flagIndex p !! nm = None).
  { unfold registerFlag in Hreg. destruct (flagIndex p !! nm); [discriminate|reflexivity]. }
  destruct (registerFlag_appends _ _ _ _ Hreg) as [Hflags Hindex].
  assert (Hlen : List.length (names w) = List.length (heap w)) by apply length_map.
  assert (Hnames : names (snd (alloc (desc t f) w)) = names w ++ [nm]).
  { unfold names. cbn [alloc snd heap]. rewrite map_app. cbn. rewrite Hname. reflexivity. }
  unfold consistent. rewrite Hnames, Hindex, Hflags. repeat split.
  - intros nm' v' Hi. destruct (decide (nm = nm')) as [<-|Hne].
    + rewrite lookup_insert_eq in Hi. injection Hi as <-.
      rewrite lookup_app_r by lia. rewrite Hlen, Nat.sub_diag. reflexivity.
    + rewrite lookup_insert_ne in Hi by exact Hne.
      apply lookup_app_l_Some. exact (Ha nm' v' Hi).
  - intros v' nm' Hv'. apply lookup_app_Some in Hv' as [Hv'|[Hge Hv']].
    + pose proof (Hb v' nm' Hv') as Hi.
      rewrite lookup_insert_ne; [exact Hi|]. intros <-. rewrite Hfree in Hi. discriminate Hi.
    + apply list_lookup_singleton_Some in Hv' as [Hz <-].
      assert (v' = List.length (heap w)) as -> by lia. apply lookup_insert_eq.
  - rewrite length_app. cbn [List.length]. rewrite Nat.add_1_r, seq_S, Hlen. cbn [Nat.add].
    rewrite Hc, Hlen. reflexivity.
  - cbn [alloc snd heap]. apply Forall_app. split; [exact Hd|].
    constructor; [exact Hwc|constructor].
Qed.

Lemma registerNew_consistent {t} (f : Flag t) (nm : string) (p p' : Parser) (w w' : World)
      (v : flag) :
  consistent p w -> name f = nm -> wellConfigured f = true ->
  registerNew f nm p w = Done (v, p', w') -> consistent p' w'.
Proof.
  intros Hcons Hname Hwc. unfold registerNew.
  pose proof (register_consistent p) as Hstep.
  cbn [alloc]. destruct (registerFlag p nm (List.length (heap w))) as [p1|] eqn:Hreg;
    [|discriminate].
  specialize (Hstep p1 w nm t f Hcons Hname Hwc Hreg). cbn [alloc snd] in Hstep.
  destruct (autoEnv p1).
  - destruct (flag_Env _ _ _) as [w1|] eqn:Henv; [|discriminate].
    intros [= <- <- <-].
    destruct (flag_configure_kept _ _ _ _
                (fun t0 f0 f0' H =>
                   builders_kept _ EmptyString TBool false t0 f0 f0' (or_introl H))
                Henv) as [Hn Hw].
    exact (consistent_same _ _ _ Hn Hw Hstep).
  - intros [= <- <- <-]. exact Hstep.
Qed.

Lemma options_keep_registry (opts : list Option) (p : Parser) :
  Forall keepsRegistry opts ->
  flags (foldl (fun p opt => opt p) p opts) = flags p
  /\ flagIndex (foldl (fun p opt => opt p) p opts) = flagIndex p.
Proof.
  intros Hall. revert p. induction Hall as [|opt opts Hopt _ IH]; intros p; [auto|].
  cbn [foldl]. destruct (IH (opt p)) as (-> & ->). apply Hopt.
Qed.

Lemma printHelp_consistent (arg0 : string) (p : Parser) (w : World) :
  consistent p w -> consistent (fst (printHelp arg0 p w)) w.
Proof.
  intros (Ha & Hb & Hc & Hd). destruct (printHelp_flags arg0 p w) as [Hf Hi].
  unfold consistent. rewrite Hi, Hf, SortStableFunc_perm. auto.
Qed.

Lemma New_consistent (opts : list Option) (w0 : World) (p : Parser) (w : World) :
  heap w0 = [] -> Forall keepsRegistry opts -> New opts w0 = Done (p, w) -> consistent p w.
Proof.
  intros Hheap Hopts. unfold New.
  set (p0 := mkParser defaultEnvVarFormatter EmptyString true "help" EmptyString EmptyString
                      "version" [] ∅).
  destruct (options_keep_registry opts p0 Hopts) as [Hf Hi].
  set (p1 := foldl (fun p opt => opt p) p0 opts) in *.
  set (w1 := mkWorld (environ w0)
                     (<[addrVersionCalled := VBool false]>
                        (<[addrHelpCalled := VBool false]> (mem w0)))
                     (heap w0)).
  assert (Hstart : consistent p1 w1).
  { unfold consistent, names. subst w1. cbn [heap]. rewrite Hheap, Hf, Hi. cbn.
    repeat split; try constructor.
    - intros nm v H. rewrite lookup_empty in H. discriminate H.
    - intros v nm H. destruct v; discriminate H. }
  cbn [alloc]. change (heap w1) with (heap w0) in *.
  destruct (registerFlag p1 (helpFlagName p1) (List.length (heap w0))) as [p2|] eqn:Hreg;
    [|discriminate].
  pose proof (register_consistent
                p1 p2 w1 (helpFlagName p1)
                (NewBoolFlag addrHelpCalled (helpFlagName p1) "Show help message")
                Hstart eq_refl eq_refl Hreg) as Hhelp.
  destruct (negb (appVersion p2 =? EmptyString)%string).
  - cbn [alloc snd heap] in Hhelp |- *.
    destruct (registerFlag p2 (appVersionFlagName p2) _) as [p3|] eqn:Hreg2; [|discriminate].
    intros [= <- <-].
    exact (register_consistent
             p2 p3 _ (appVersionFlagName p2)
             (NewBoolFlag addrVersionCalled (appVersionFlagName p2) "Show application version")
             Hhelp eq_refl eq_refl Hreg2).
  - intros [= <- <-]. exact Hhelp.
Qed.

Lemma parse_consistent (p : Parser) (iter : list (string * flag)) (args : list string)
      (w : World) :
  consistent p w -> consistent p (fst (parse p iter args w)).
Proof.
  intros Hcons.
  assert (H : names (fst (parse p iter args w)) = names w
              /\ Forall (fun d => descWellConfigured d = true)
                        (heap (fst (parse p iter args w)))).
  { apply (parse_invariant p iter (fun _ => True)
             (fun w' => names w' = names w
                        /\ Forall (fun d => descWellConfigured d = true) (heap w')));
      auto.
    - intros u w1 w2 _ Ht [Hn Hw]. split.
      + rewrite (touched_names _ _ _ Ht). exact Hn.
      + exact (touched_wellConfigured _ _ _ Ht Hw).
    - split; [reflexivity|]. exact (proj2 (proj2 (proj2 Hcons))). }
  destruct H as [Hn Hw]. exact (consistent_same p w _ Hn (fun _ => Hw) Hcons).
Qed.

Lemma built_is_consistent (p : Parser) (w : World) : built p w -> consistent p w.
Proof.
  induction 1 as [opts w0 p w Hheap Hopts Hnew
                 |tgt nm description p p' w w' v _ IH Hreg
                 |tgt nm description p p' w w' v _ IH Hreg
                 |tgt nm description p p' w w' v _ IH Hreg
                 |envName v p w w' _ IH Hcall
                 |ph v p w w' _ IH Hcall
                 |v p w w' _ IH Hcall
                 |t val v p w w' _ IH Hcall
                 |iter args p w _ IH
                 |arg0 p w _ IH].
  - exact (New_consistent opts w0 p w Hheap Hopts Hnew).
  - exact (registerNew_consistent (NewBoolFlag tgt nm description) nm p p' w w' v
                                   IH eq_refl eq_refl Hreg).
  - exact (registerNew_consistent (NewIntFlag tgt nm description) nm p p' w w' v
                                   IH eq_refl eq_refl Hreg).
  - exact (registerNew_consistent (NewStringFlag tgt nm description) nm p p' w w' v
                                   IH eq_refl eq_refl Hreg).
  - destruct (flag_configure_kept _ _ _ _
                (fun t0 f0 f0' H =>
                   builders_kept envName EmptyString TBool false t0 f0 f0' (or_introl H))
                Hcall) as [Hn Hw].
    exact (consistent_same _ _ _ Hn Hw IH).
  - destruct (flag_configure_kept _ _ _ _
                (fun t0 f0 f0' H =>
                   builders_kept EmptyString ph TBool false t0 f0 f0'
                                 (or_intror (or_introl H)))
                Hcall) as [Hn Hw].
    exact (consistent_same _ _ _ Hn Hw IH).
  - destruct (flag_configure_kept _ _ _ _
                (fun t0 f0 f0' H =>
                   builders_kept EmptyString EmptyString TBool false t0 f0 f0'
                                 (or_intror (or_intror (or_introl H))))
                Hcall) as [Hn Hw].
    exact (consistent_same _ _ _ Hn Hw IH).
  - destruct (flag_configure_kept _ _ _ _
                (fun t0 f0 f0' H =>
                   builders_kept EmptyString EmptyString t val t0 f0 f0'
                                 (or_intror (or_intror (or_intror H))))
                Hcall) as [Hn Hw].
    exact (consistent_same _ _ _ Hn Hw IH).
  - exact (parse_consistent p iter args w IH).
  - exact (printHelp_consistent arg0 p w IH).
Qed.

Lemma names_getName (w : World) (v : flag) (nm : string) :
  names w !! v = Some nm -> flag_getName w v = nm.
Proof.
  unfold names, flag_getName, getName. rewrite list_lookup_fmap.
  destruct (heap w !! v) as [[t f]|]; [|discriminate]. intros [= <-]. reflexivity.
Qed.

(** X8: in every state reached through the package (from [New] in a
    process without descriptors, by registrations, builder calls,
    [parse] and [printHelp]) the index maps each name to the descriptor
    that carries that name, every descriptor is in the index under its
    name and once in [p.flags], no two descriptors share a name, and
    every descriptor satisfies the constraints of the builder methods. *)
Theorem built_registry_consistent (p : Parser) (w : World) :
  built p w ->
  consistent p w
  /\ NoDup (names w)
  /\ NoDup (flags p)
  /\ (forall nm v,
        flagIndex p !! nm = Some v ->
        flag_getName w v = nm /\ v ∈ flags p
        /\ forall nm', flagIndex p !! nm' = Some v -> nm' = nm)
  /\ (forall v, v ∈ flags p -> flagIndex p !! flag_getName w v = Some v)
  /\ List.length (flags p) = List.length (heap w).
Proof.
  intros Hbuilt. pose proof (built_is_consistent p w Hbuilt) as Hcons.
  split; [exact Hcons|]. destruct Hcons as (Ha & Hb & Hc & Hd).
  assert (Hin : forall v, v ∈ flags p <-> (v < List.length (names w))%nat).
  { intros v. rewrite Hc, list_elem_of_In, in_seq. lia. }
  split.
  { apply NoDup_alt. intros i j nm Hi Hj.
    pose proof (Hb i nm Hi) as H1. pose proof (Hb j nm Hj) as H2. congruence. }
  split; [rewrite Hc; apply NoDup_ListNoDup, seq_NoDup|].
  split.
  { intros nm v Hv. pose proof (Ha nm v Hv) as Hnm.
    split; [exact (names_getName w v nm Hnm)|].
    split; [apply Hin; eapply lookup_lt_Some; exact Hnm|].
    intros nm' Hv'. pose proof (Ha nm' v Hv') as Hnm'. congruence. }
  split.
  { intros v Hv. apply Hin in Hv. apply lookup_lt_is_Some_2 in Hv as [nm Hnm].
    rewrite (names_getName w v nm Hnm). exact (Hb v nm Hnm). }
  rewrite Hc, length_seq. apply length_map.
Qed.

Lemma built_registry_consistent_witness :
  built countParser (countWorld ∅)
  /\ NoDup (names (countWorld ∅))
  /\ flag_getName (countWorld ∅) 1%nat = "count".
Proof.
  assert (H : built countParser (countWorld ∅)).
  { apply (built_Required 1%nat countParser
                          (mkWorld ∅ freshMemory
                                   [helpDescriptor;
                                    desc TInt (Env (NewIntFlag (addr 0) "count"
                                                               "Number of items") "COUNT")]));
      [|reflexivity].
    apply (built_Int (addr 0) "count" "Number of items"
                     (parserOf [0%nat] (<["help" := 0%nat]> ∅)) countParser
                     (mkWorld ∅ freshMemory [helpDescriptor]) _ 1%nat); [|reflexivity].
    apply (built_New [] (mkWorld ∅ ∅ [])); [reflexivity|constructor|reflexivity]. }
  split; [exact H|].
  destruct (built_registry_consistent countParser (countWorld ∅) H)
    as (_ & Hnames & _ & Hindex & _).
  split; [exact Hnames|].
  exact (proj1 (Hindex "count" 1%nat eq_refl)).
Defined.

(** ** The order of the first loop of [parse] *)

Lemma seed_environ (v : flag) (w : World) (errs : list error) :
  environ (fst (seed v (w, errs))) = environ w.
Proof.
  apply (seed_invariant (fun w' => environ w' = environ w)); [|reflexivity].
  intros w1 w2 Ht H. rewrite (touched_environ _ _ _ Ht). exact H.
Qed.

Lemma seed_config (u : flag) (w : World) (errs : list error) (v : flag) :
  config <$> heap (fst (seed u (w, errs))) !! v = config <$> heap w !! v.
Proof.
  apply (seed_invariant (fun w' => config <$> heap w' !! v = config <$> heap w !! v));
    [|reflexivity].
  intros w1 w2 Ht H. rewrite (touched_config _ _ _ _ Ht). exact H.
Qed.

Lemma seed_target (u : flag) (w : World) (errs : list error) (v : flag) :
  descTarget <$> heap (fst (seed u (w, errs))) !! v = descTarget <$> heap w !! v.
Proof.
  apply (config_proj descTarget); [intros [t f]; reflexivity|]. apply seed_config.
Qed.

Lemma seed_separate (u : flag) (w : World) (errs : list error) (vs : list flag) :
  separate w vs -> separate (fst (seed u (w, errs))) vs.
Proof.
  intros Hsep a b da db Ha Hb Hne Hda Hdb.
  pose proof (seed_target u w errs a) as Ta. pose proof (seed_target u w errs b) as Tb.
  rewrite Hda in Ta. rewrite Hdb in Tb.
  destruct (heap w !! a) as [da'|] eqn:Ha'; [|discriminate Ta].
  destruct (heap w !! b) as [db'|] eqn:Hb'; [|discriminate Tb].
  injection Ta as ->. injection Tb as ->.
  exact (Hsep a b da' db' Ha Hb Hne Ha' Hb').
Qed.

(** The error of a descriptor does not depend on what was seeded before. *)
Lemma seed_error_fixed (u v : flag) (w : World) (errs : list error) :
  snd (seed v (fst (seed u (w, errs)), [])) = snd (seed v (w, [])).
Proof.
  pose proof (config_proj (fun d => match d with desc _ f => seedError (environ w) f end)
                          w _ v (fun d => match d with desc _ f => eq_refl end)
                          (seed_config u w errs v)) as Hc.
  pose proof (seed_environ u w errs) as He.
  set (w1 := fst (seed u (w, errs))) in *.
  destruct (heap w1 !! v) as [[t1 f1]|] eqn:H1, (heap w !! v) as [[t f]|] eqn:H0;
    try discriminate Hc.
  - rewrite (seed_shape v w1 f1 [] H1), (seed_shape v w f [] H0). cbn [snd]. rewrite He.
    injection Hc as ->. reflexivity.
  - rewrite (seed_absent v w1 [] H1), (seed_absent v w [] H0). reflexivity.
Qed.

(** Two steps of the first loop on descriptors with targets of their
    own can be swapped. *)
Lemma seed_commute (u v : flag) (w : World) :
  (forall du dv, u <> v -> heap w !! u = Some du -> heap w !! v = Some dv ->
                 descTarget du <> descTarget dv) ->
  fst (seed u (fst (seed v (w, [])), [])) = fst (seed v (fst (seed u (w, [])), [])).
Proof.
  intros Hsep. destruct (decide (u = v)) as [->|Hne]; [reflexivity|].
  destruct (heap w !! u) as [[tu fu]|] eqn:Hu; cycle 1.
  { rewrite (seed_absent u w [] Hu). cbn [fst].
    rewrite seed_absent; [reflexivity|].
    pose proof (seed_config v w [] u) as Hc. rewrite Hu in Hc.
    destruct (heap (fst (seed v (w, []))) !! u); [discriminate Hc|reflexivity]. }
  destruct (heap w !! v) as [[tv fv]|] eqn:Hv; cycle 1.
  { rewrite (seed_absent v w [] Hv). cbn [fst].
    symmetry. rewrite seed_absent; [reflexivity|].
    pose proof (seed_config u w [] v) as Hc. rewrite Hv in Hc.
    destruct (heap (fst (seed u (w, []))) !! v); [discriminate Hc|reflexivity]. }
  specialize (Hsep _ _ Hne eq_refl eq_refl). cbn [descTarget] in Hsep.
  rewrite (seed_shape v w fv [] Hv), (seed_shape u w fu [] Hu). cbn [fst].
  destruct (seeded (environ w) fu) as [x|] eqn:Hx, (seeded (environ w) fv) as [y|] eqn:Hy.
  - rewrite (seed_shape u _ fu []), (seed_shape v _ fv []); cbn [heap environ mem fst].
    + rewrite Hx, Hy. f_equal.
      * apply insert_insert_ne. exact Hsep.
      * apply list_insert_insert_ne. exact Hne.
    + rewrite list_lookup_insert_ne by exact Hne. exact Hv.
    + rewrite list_lookup_insert_ne by (intros E; exact (Hne (eq_sym E))). exact Hu.
  - rewrite (seed_shape v _ fv []); cbn [heap environ mem fst].
    + rewrite Hy. rewrite (seed_shape u w fu [] Hu), Hx. reflexivity.
    + rewrite list_lookup_insert_ne by exact Hne. exact Hv.
  - rewrite (seed_shape u _ fu []); cbn [heap environ mem fst].
    + rewrite Hx. rewrite (seed_shape v w fv [] Hv), Hy. reflexivity.
    + rewrite list_lookup_insert_ne by (intros E; exact (Hne (eq_sym E))). exact Hu.
  - rewrite (seed_shape u w fu [] Hu), (seed_shape v w fv [] Hv), Hx, Hy. reflexivity.
Qed.

Lemma separate_sub (w : World) (vs vs' : list flag) :
  (forall v, v ∈ vs' -> v ∈ vs) -> separate w vs -> separate w vs'.
Proof. intros Hsub Hsep u v du dv Hu Hv. apply Hsep; apply Hsub; assumption. Qed.

Lemma seeds_permuted (iter iter' : list (string * flag)) :
  iter ≡ₚ iter' ->
  forall w,
    separate w (map snd iter) ->
    fst (foldl (fun st kv => seed (snd kv) st) (w, []) iter)
    = fst (foldl (fun st kv => seed (snd kv) st) (w, []) iter')
    /\ snd (foldl (fun st kv => seed (snd kv) st) (w, []) iter)
       ≡ₚ snd (foldl (fun st kv => seed (snd kv) st) (w, []) iter').
Proof.
  induction 1 as [|[k x] l l' Hperm IH|[k x] [k' y] l|l l' l'' H1 IH1 H2 IH2]; intros w Hsep.
  - split; reflexivity.
  - cbn [foldl snd].
    destruct (seed x (w, [])) as [w1 e1] eqn:Hs.
    destruct (seeds_appends l w1 e1) as [-> _]. destruct (seeds_appends l' w1 e1) as [-> _].
    cbn [fst snd].
    destruct (IH w1) as [Hw He].
    { change w1 with (fst (w1, e1)). rewrite <- Hs. apply seed_separate.
      eapply separate_sub; [|exact Hsep]. intros v Hv. cbn. right. exact Hv. }
    split; [exact Hw|]. apply Permutation_app_head. exact He.
  - cbn [foldl snd].
    destruct (seed_appends x (fst (seed y (w, []))) (snd (seed y (w, [])))) as [Hxy _].
    destruct (seed_appends y (fst (seed x (w, []))) (snd (seed x (w, [])))) as [Hyx _].
    rewrite <- surjective_pairing in Hxy, Hyx. rewrite Hxy, Hyx.
    rewrite (seed_error_fixed y x w []), (seed_error_fixed x y w []).
    rewrite (seed_commute x y w).
    + set (w2 := fst (seed y (fst (seed x (w, [])), []))).
      destruct (seeds_appends l w2 (snd (seed y (w, [])) ++ snd (seed x (w, [])))) as [-> _].
      destruct (seeds_appends l w2 (snd (seed x (w, [])) ++ snd (seed y (w, [])))) as [-> _].
      cbn [fst snd]. split; [reflexivity|].
      apply Permutation_app_tail. apply Permutation_app_comm.
    + intros du dv Hne. apply Hsep; cbn; [right; left|left|exact Hne].
  - destruct (IH1 w Hsep) as [Hw1 He1].
    destruct (IH2 w) as [Hw2 He2].
    { eapply separate_sub; [|exact Hsep]. intros v Hv.
      rewrite (fmap_Permutation snd _ _ H1). exact Hv. }
    split; [congruence|]. etransitivity; eassumption.
Qed.

(** X9: what [parse] leaves in memory and in the descriptors does not
    depend on the order in which [range] yields the index, provided
    different descriptors have different targets.  For two orders of
    the same entries the first loop ends in the same state, with the
    same errors up to their order; the errors of [parse] are those of
    the first loop followed by those the second loop adds from that
    state, which are the same for both orders; so the final states are
    equal and the errors are the same up to the order of those of the
    first loop.  [Parse] ends in the same state, with the same outcome
    when the pass has no error, and with failure for both orders when
    it has one. *)
Theorem parse_order_irrelevant (p : Parser) (iter iter' : list (string * flag))
        (arg0 : string) (args : list string) (w : World) :
  iter ≡ₚ iter' -> separate w (map snd iter) ->
  fst (parse p iter args w) = fst (parse p iter' args w)
  /\ snd (parse p iter args w) ≡ₚ snd (parse p iter' args w)
  /\ fst (firstLoop iter w) = fst (firstLoop iter' w)
  /\ snd (firstLoop iter w) ≡ₚ snd (firstLoop iter' w)
  /\ snd (parse p iter args w)
     = snd (firstLoop iter w) ++ snd (tokenize p args (fst (firstLoop iter w)) [])
  /\ snd (parse p iter' args w)
     = snd (firstLoop iter' w) ++ snd (tokenize p args (fst (firstLoop iter w)) [])
  /\ fst (Parse arg0 args iter p w) = fst (Parse arg0 args iter' p w)
  /\ (snd (parse p iter args w) = [] ->
      Parse arg0 args iter p w = Parse arg0 args iter' p w)
  /\ (snd (parse p iter args w) <> [] ->
      exists stderr stderr',
        snd (Parse arg0 args iter p w) = ExitErrors stderr
        /\ snd (Parse arg0 args iter' p w) = ExitErrors stderr').
Proof.
  intros Hperm Hsep.
  destruct (seeds_permuted iter iter' Hperm w Hsep) as [Hw He].
  fold (firstLoop iter w) in Hw, He. fold (firstLoop iter' w) in Hw, He.
  assert (Hes : snd (parse p iter args w)
                = snd (firstLoop iter w) ++ snd (tokenize p args (fst (firstLoop iter w)) [])).
  { rewrite parse_unfold. fold (firstLoop iter w).
    destruct (tokenize_appends p args (fst (firstLoop iter w)) (snd (firstLoop iter w)))
      as [-> _].
    reflexivity. }
  assert (Hes' : snd (parse p iter' args w)
                 = snd (firstLoop iter' w)
                       ++ snd (tokenize p args (fst (firstLoop iter w)) [])).
  { rewrite parse_unfold. fold (firstLoop iter' w).
    destruct (tokenize_appends p args (fst (firstLoop iter' w)) (snd (firstLoop iter' w)))
      as [-> _].
    rewrite Hw. reflexivity. }
  assert (Hst : fst (parse p iter args w) = fst (parse p iter' args w)).
  { rewrite !parse_unfold. fold (firstLoop iter w). fold (firstLoop iter' w).
    destruct (tokenize_appends p args (fst (firstLoop iter w)) (snd (firstLoop iter w)))
      as [-> _].
    destruct (tokenize_appends p args (fst (firstLoop iter' w)) (snd (firstLoop iter' w)))
      as [-> _].
    cbn [fst]. rewrite Hw. reflexivity. }
  assert (Herrs : snd (parse p iter args w) ≡ₚ snd (parse p iter' args w)).
  { rewrite Hes, Hes'. apply Permutation_app_tail. exact He. }
  split; [exact Hst|]. split; [exact Herrs|].
  split; [exact Hw|]. split; [exact He|].
  split; [exact Hes|]. split; [exact Hes'|].
  clear Hes Hes'. unfold Parse.
  destruct (parse p iter args w) as [w1 e1], (parse p iter' args w) as [w2 e2].
  cbn [fst snd] in Hst, Herrs |- *. subst w2.
  destruct e1 as [|a e1], e2 as [|b e2].
  - split; [reflexivity|]. split; [intros _; reflexivity|]. intros H. contradiction.
  - apply Permutation_nil_l in Herrs. discriminate Herrs.
  - apply Permutation_nil_r in Herrs. discriminate Herrs.
  - split; [reflexivity|]. split; [intros H; discriminate H|].
    intros _. eexists _, _. split; reflexivity.
Qed.

Lemma parse_order_irrelevant_witness :
  [("help", 0%nat); ("port", 1%nat)] ≡ₚ [("port", 1%nat); ("help", 0%nat)]
  /\ separate (portWorld {[ "PORT" := "8080" ]}) [0; 1]%nat
  /\ fst (parse portParser [("help", 0%nat); ("port", 1%nat)] ["--help"]
                (portWorld {[ "PORT" := "8080" ]}))
     = fst (parse portParser [("port", 1%nat); ("help", 0%nat)] ["--help"]
                  (portWorld {[ "PORT" := "8080" ]})).
Proof.
  assert (Hperm : [("help", 0%nat); ("port", 1%nat)] ≡ₚ [("port", 1%nat); ("help", 0%nat)])
    by apply perm_swap.
  assert (Hsep : separate (portWorld {[ "PORT" := "8080" ]}) [0; 1]%nat).
  { intros u v du dv Hu Hv Hne Hdu Hdv.
    assert (Hcases : forall x : nat, x ∈ [0; 1]%nat -> x = 0%nat \/ x = 1%nat).
    { intros x Hx. apply elem_of_cons in Hx as [->|Hx]; [left; reflexivity|].
      apply elem_of_cons in Hx as [->|Hx]; [right; reflexivity|]. inversion Hx. }
    destruct (Hcases u Hu) as [->| ->], (Hcases v Hv) as [->| ->];
      try (exfalso; apply Hne; reflexivity);
      injection Hdu as <-; injection Hdv as <-; discriminate. }
  split; [exact Hperm|]. split; [exact Hsep|].
  exact (proj1 (parse_order_irrelevant portParser _ _ EmptyString ["--help"] _ Hperm Hsep)).
Defined.

Lemma sharedTarget_state : sharedTarget = Done (sharedParser, sharedWorld).
Proof. reflexivity. Qed.

(** X10: when two flags share a target the value [parse] leaves there
    follows the order in which [range] yields the index.  For
    [p.Int(&n, "low", ...).Default(1)] and
    [p.Int(&n, "high", ...).Default(2)], with no environment variable
    and no argument, [n] ends as 2 when [low] is visited before [high]
    and as 1 when [high] comes first; both visits are orders of the
    same index, and [Parse] returns to the caller in both. *)
Theorem shared_target_follows_range_order :
  sharedTarget = Done (sharedParser, sharedWorld)
  /\ [("help", 0%nat); ("low", 1%nat); ("high", 2%nat)] ≡ₚ map_to_list (flagIndex sharedParser)
  /\ [("help", 0%nat); ("high", 2%nat); ("low", 1%nat)] ≡ₚ map_to_list (flagIndex sharedParser)
  /\ mem (fst (parse sharedParser [("help", 0%nat); ("low", 1%nat); ("high", 2%nat)] []
                     sharedWorld)) !! addr 0 = Some (VInt 2)
  /\ mem (fst (parse sharedParser [("help", 0%nat); ("high", 2%nat); ("low", 1%nat)] []
                     sharedWorld)) !! addr 0 = Some (VInt 1)
  /\ snd (Parse "app" [] [("help", 0%nat); ("low", 1%nat); ("high", 2%nat)]
                sharedParser sharedWorld) = Returns
  /\ snd (Parse "app" [] [("help", 0%nat); ("high", 2%nat); ("low", 1%nat)]
                sharedParser sharedWorld) = Returns.
Proof.
  assert (Hlist : map_to_list (flagIndex sharedParser)
                  ≡ₚ [("high", 2%nat); ("low", 1%nat); ("help", 0%nat)]).
  { unfold sharedParser, parserOf. cbn [flagIndex].
    rewrite map_to_list_insert by reflexivity.
    rewrite map_to_list_insert by reflexivity.
    rewrite map_to_list_insert by reflexivity.
    rewrite map_to_list_empty. reflexivity. }
  split; [exact sharedTarget_state|].
  split.
  { rewrite Hlist. etransitivity; [apply Permutation_rev|]. reflexivity. }
  split.
  { rewrite Hlist. etransitivity; [apply Permutation_rev|]. cbn. apply perm_swap. }
  repeat split; reflexivity.
Qed.
